(** * HP-model genetic algorithm: Conformation and Population

    A shallow embedding of [Conformation.py], [Population.py] and the
    driver loops of [main.py] and [testing.py].

    Python objects are records; the objects that are shared and mutated
    (the static evaluation counter, the collision set every conformation of
    a population points to, the global random generator) live in a [World]
    that is threaded through every call.  Python exceptions are the
    [Raise] outcome; the unbounded [while] loops take fuel. *)

From Stdlib Require Import ZArith QArith String Ascii DecimalString List Lia.
From stdpp Require Import base gmap sets list strings.

Close Scope Q_scope.
Local Open Scope Z_scope.
Local Open Scope nat_scope.

(** ** Outcomes of a call *)

(** The exceptions the interpreter can raise in these two modules (the
    source has no [raise] of its own): a list or string index out of range,
    [random.sample] asked for more elements than there are (or [min] of an
    empty sequence), an attribute of [None]. *)
Inductive exn := IndexError | ValueError | AttributeError.

Inductive result (A : Type) : Type :=
| Ok (a : A)
| Raise (e : exn)
| OutOfFuel.
Arguments Ok {A} a.
Arguments Raise {A} e.
Arguments OutOfFuel {A}.

Definition rbind {A B} (r : result A) (k : A -> result B) : result B :=
  match r with
  | Ok a => k a
  | Raise e => Raise e
  | OutOfFuel => OutOfFuel
  end.

(** ** The shared mutable world *)

Record World := mkWorld {
  (** the global [random] generator: the raw draws still to come *)
  tape : nat -> N;
  (** [Conformation.energyEvalSteps] *)
  energyEvalSteps : Z;
  (** the one set object a population hands to all of its conformations *)
  collisionSet : gset (Z * Z)
}.

Definition M (A : Type) : Type := World -> result (A * World).

Definition ret {A} (a : A) : M A := fun w => Ok (a, w).

Definition bind {A B} (m : M A) (k : A -> M B) : M B :=
  fun w => match m w with
           | Ok (a, w') => k a w'
           | Raise e => Raise e
           | OutOfFuel => OutOfFuel
           end.

Definition lift {A} (r : result A) : M A :=
  fun w => match r with
           | Ok a => Ok (a, w)
           | Raise e => Raise e
           | OutOfFuel => OutOfFuel
           end.

Definition raise {A} (e : exn) : M A := fun _ => Raise e.
Definition out_of_fuel {A} : M A := fun _ => OutOfFuel.

Notation "'let*' x ':=' c1 'in' c2" := (bind c1 (fun x => c2))
  (at level 10, x pattern, c1 at level 100, c2 at level 200).
Notation "'let?' x ':=' c1 'in' c2" := (rbind c1 (fun x => c2))
  (at level 10, x pattern, c1 at level 100, c2 at level 200).

(** *** The random module *)

Definition draw : M N :=
  fun w => Ok (tape w 0, mkWorld (fun i => tape w (S i)) (energyEvalSteps w) (collisionSet w)).

(** [random.randint(lo, hi)]: an integer of the inclusive range. *)
Definition randint (lo hi : Z) : M Z :=
  let* n := draw in ret (lo + Z.of_N n mod (hi - lo + 1))%Z.

(** [random.random()]: a 53-bit integer over [2^53], in [0, 1). *)
Definition random : M Q :=
  let* n := draw in ret (Qmake (Z.of_N n mod 9007199254740992) 9007199254740992).

(** Drawing without replacement: each pick takes one of the elements left. *)
Fixpoint sample_from {A} (pool : list A) (k : nat) : M (list A) :=
  match k with
  | O => ret []
  | S k' =>
      let* n := draw in
      let j := N.to_nat n mod List.length pool in
      match pool !! j with
      | None => ret []
      | Some a => let* rest := sample_from (delete j pool) k' in ret (a :: rest)
      end
  end.

(** [random.sample(population, k)]. *)
Definition sample {A} (population : list A) (k : nat) : M (list A) :=
  if List.length population <? k then raise ValueError
  else sample_from population k.

(** ** Protein *)

Record Protein := mkProtein { sequence : string }.

Definition getNth (p : Protein) (i : nat) : result ascii :=
  match String.get i (sequence p) with
  | Some a => Ok a
  | None => Raise IndexError
  end.

Definition getLength (p : Protein) : nat := String.length (sequence p).

(** ** Conformation *)

Definition FORWARD : Z := 0.
Definition LEFT : Z := -1.
Definition RIGHT : Z := 1.

Module Conformation.

Record t := mk {
  protein : option Protein;
  (** whether [setOfPoints] refers to the shared collision set or is [None] *)
  setOfPoints : bool;
  length : nat;
  encoding : list Z;
  absPositions : list (Z * Z);
  fitness : Z;
  generation : Z;
  validState : bool
}.

Definition set_encoding (e : list Z) (c : t) : t :=
  mk (protein c) (setOfPoints c) (length c) e (absPositions c)
     (fitness c) (generation c) (validState c).
Definition set_absPositions (p : list (Z * Z)) (c : t) : t :=
  mk (protein c) (setOfPoints c) (length c) (encoding c) p
     (fitness c) (generation c) (validState c).
Definition set_fitness (f : Z) (c : t) : t :=
  mk (protein c) (setOfPoints c) (length c) (encoding c) (absPositions c)
     f (generation c) (validState c).
Definition set_validState (v : bool) (c : t) : t :=
  mk (protein c) (setOfPoints c) (length c) (encoding c) (absPositions c)
     (fitness c) (generation c) v.

Definition getFitness (c : t) : Z := fitness c.
Definition isValid (c : t) : bool := validState c.
Definition getEncoding (c : t) : list Z := encoding c.

(** *** calcAbsolutePositions *)

(** One pass of the loop body on [(x, y, lastDirection)];
    [lastDirection]: 0 up, 1 down, 2 right, 3 left. *)
Definition turn (x y lastDirection d : Z) : Z * Z * Z :=
  if (lastDirection =? 0)%Z then
    if (d =? FORWARD)%Z then (x, y + 1, lastDirection)%Z
    else if (d =? RIGHT)%Z then (x + 1, y, 2)%Z
    else if (d =? LEFT)%Z then (x - 1, y, 3)%Z
    else (x, y, lastDirection)
  else if (lastDirection =? 1)%Z then
    if (d =? FORWARD)%Z then (x, y - 1, lastDirection)%Z
    else if (d =? RIGHT)%Z then (x - 1, y, 3)%Z
    else if (d =? LEFT)%Z then (x + 1, y, 2)%Z
    else (x, y, lastDirection)
  else if (lastDirection =? 2)%Z then
    if (d =? FORWARD)%Z then (x + 1, y, lastDirection)%Z
    else if (d =? RIGHT)%Z then (x, y - 1, 1)%Z
    else if (d =? LEFT)%Z then (x, y + 1, 0)%Z
    else (x, y, lastDirection)
  else if (lastDirection =? 3)%Z then
    if (d =? FORWARD)%Z then (x - 1, y, lastDirection)%Z
    else if (d =? RIGHT)%Z then (x, y + 1, 0)%Z
    else if (d =? LEFT)%Z then (x, y - 1, 1)%Z
    else (x, y, lastDirection)
  else (x, y, lastDirection).

(** [for i in range(length - 2)], the indices still to visit in [todo]. *)
Fixpoint positions_loop (enc : list Z) (todo : list nat) (x y lastDirection : Z)
    (pos : list (Z * Z)) : result (list (Z * Z)) :=
  match todo with
  | [] => Ok pos
  | i :: todo' =>
      match enc !! i with
      | None => Raise IndexError
      | Some d =>
          let '(x', y', dir') := turn x y lastDirection d in
          positions_loop enc todo' x' y' dir' (<[i + 2 := (x', y')]> pos)
      end
  end.

(** The list is allocated as [length] placeholders ([None] in the source;
    every slot is stored to before the call returns); the stores to slots 0
    and 1 raise when the list is too short. *)
Definition calcAbsolutePositions (c : t) : result t :=
  let pos := replicate (length c) (0, 0)%Z in
  if length c <? 1 then Raise IndexError
  else
    let pos := <[0 := (0, 0)%Z]> pos in
    if length c <? 2 then Raise IndexError
    else
      let pos := <[1 := (0, 1)%Z]> pos in
      let? pos := positions_loop (encoding c) (seq 0 (length c - 2)) 0 1 0 pos in
      Ok (set_absPositions pos c).

(** *** calcValidity *)

(** The scan over [absPositions]: [None] when a position is met twice,
    otherwise the set of positions seen. *)
Fixpoint scan (ps : list (Z * Z)) (seen : gset (Z * Z)) : option (gset (Z * Z)) :=
  match ps with
  | [] => Some seen
  | pos :: ps' =>
      if decide (pos ∈ seen) then None
      else scan ps' (seen ∪ {[pos]})
  end.

Definition calcValidity (c : t) : M t :=
  let* c := lift (calcAbsolutePositions c) in
  match scan (absPositions c) ∅ with
  | None => ret (set_validState false c)
  | Some seen =>
      fun w =>
        let w' := if setOfPoints c
                  then mkWorld (tape w) (energyEvalSteps w) seen
                  else w in
        Ok (set_validState true c, w')
  end.

(** *** calcFitness *)

Definition nth_position (c : t) (i : nat) : result (Z * Z) :=
  match absPositions c !! i with
  | Some p => Ok p
  | None => Raise IndexError
  end.

Definition protein_getNth (c : t) (i : nat) : result ascii :=
  match protein c with
  | Some p => getNth p i
  | None => Raise AttributeError
  end.

Definition is_B (a : ascii) : bool := Ascii.eqb a "B"%char.

Definition touching (ori dest : Z * Z) : bool :=
  let distX := Z.abs (ori.1 - dest.1) in
  let distY := Z.abs (ori.2 - dest.2) in
  ((distX =? 1)%Z && (distY =? 0)%Z) || ((distX =? 0)%Z && (distY =? 1)%Z).

(** [for j in range(i + 2, length)] *)
Fixpoint fitness_inner (c : t) (ori : Z * Z) (js : list nat) (fit : Z) : result Z :=
  match js with
  | [] => Ok fit
  | j :: js' =>
      let? b := protein_getNth c j in
      if is_B b then
        let? dest := nth_position c j in
        if touching ori dest then fitness_inner c ori js' (fit - 1)%Z
        else fitness_inner c ori js' fit
      else fitness_inner c ori js' fit
  end.

(** [for i in range(length)] *)
Fixpoint fitness_outer (c : t) (todo : list nat) (fit : Z) : result Z :=
  match todo with
  | [] => Ok fit
  | i :: todo' =>
      let? a := protein_getNth c i in
      if is_B a then
        let? ori := nth_position c i in
        let? fit' := fitness_inner c ori (seq (i + 2) (length c - (i + 2))) fit in
        fitness_outer c todo' fit'
      else fitness_outer c todo' fit
  end.

Definition calcFitness (c : t) : M t :=
  fun w =>
    let w := mkWorld (tape w) (energyEvalSteps w + 1)%Z (collisionSet w) in
    match fitness_outer c (seq 0 (length c)) 0%Z with
    | Ok f => Ok (set_fitness f c, w)
    | Raise e => Raise e
    | OutOfFuel => OutOfFuel
    end.

(** *** getConformationString *)

Definition letter (d : Z) : string :=
  if (d =? FORWARD)%Z then "F"
  else if (d =? LEFT)%Z then "L"
  else if (d =? RIGHT)%Z then "R"
  else "?".

Definition getConformationString (c : t) : string :=
  fold_left (fun result d => String.append result (letter d)) (encoding c) ""%string.

(** *** mutate and generateRandomConformation *)

(** [l[i] = v] *)
Definition store {A} (l : list A) (i : nat) (v : A) : result (list A) :=
  if i <? List.length l then Ok (<[i := v]> l) else Raise IndexError.

(** [l[i]] *)
Definition load {A} (l : list A) (i : nat) : result A :=
  match l !! i with
  | Some v => Ok v
  | None => Raise IndexError
  end.

Fixpoint mutate_loop (probability : Q) (todo : list nat) (enc : list Z) : M (list Z) :=
  match todo with
  | [] => ret enc
  | i :: todo' =>
      let* r := random in
      if Qle_bool r probability then
        let* d := randint (-1) 1 in
        let* enc := lift (store enc i d) in
        mutate_loop probability todo' enc
      else mutate_loop probability todo' enc
  end.

Definition mutate (probability : Q) (c : t) : M t :=
  let* enc := mutate_loop probability (seq 0 (length c - 2)) (encoding c) in
  ret (set_encoding enc c).

Fixpoint randomize_loop (todo : list nat) (enc : list Z) : M (list Z) :=
  match todo with
  | [] => ret enc
  | i :: todo' =>
      let* d := randint (-1) 1 in
      let* enc := lift (store enc i d) in
      randomize_loop todo' enc
  end.

(** The float [0.1]. *)
Definition one_tenth : Q := Qmake 3602879701896397 36028797018963968.

(** [while not self.validState: self.mutate(0.1); self.calcValidity()] *)
Fixpoint repair (fuel : nat) (c : t) : M t :=
  if validState c then ret c
  else match fuel with
       | O => out_of_fuel
       | S fuel' =>
           let* c := mutate one_tenth c in
           let* c := calcValidity c in
           repair fuel' c
       end.

Definition generateRandomConformation (fuel : nat) (valid : bool) (c : t) : M t :=
  let* enc := randomize_loop (seq 0 (length c - 2)) (encoding c) in
  let c := set_encoding enc c in
  if valid then
    let* c := calcValidity c in
    repair fuel c
  else ret c.

(** *** The two constructors *)

Definition __init__ (fuel : nat) (protein : option Protein) (setOfPoints : bool) : M t :=
  let length := match protein with Some p => getLength p | None => 0 end in
  let c := mk protein setOfPoints length
              (replicate (length - 2) 0%Z)
              (replicate length (0, 0)%Z)
              0 0 false in
  match protein with
  | Some _ => if setOfPoints then generateRandomConformation fuel true c else ret c
  | None => ret c
  end.

(** [for i in ...: dst[i] = src[i]] *)
Fixpoint copy_loop (src : list Z) (todo : list nat) (dst : list Z) : result (list Z) :=
  match todo with
  | [] => Ok dst
  | i :: todo' =>
      let? v := load src i in
      let? dst := store dst i v in
      copy_loop src todo' dst
  end.

(** The body of [crossover] once the breakpoint [randI] is drawn. *)
Definition crossover_at (randI : nat) (p1 p2 : t) (setOfPoints : bool) : M t :=
  let length := length p1 in
  let enc := replicate (length - 2) 0%Z in
  let* enc := lift (copy_loop (encoding p1) (seq 0 randI) enc) in
  let* enc := lift (copy_loop (encoding p2) (seq randI (length - 2 - randI)) enc) in
  let new_conf := mk (protein p1) setOfPoints length enc
                     (replicate length (0, 0)%Z)
                     0 ((generation p1 + generation p2) / 2 + 1)%Z false in
  if setOfPoints then calcValidity new_conf else ret new_conf.

Definition draw_breakpoint (length : nat) : M nat :=
  if 0 <? length - 2 then
    let* randI := randint 0 (Z.of_nat length - 3) in ret (Z.to_nat randI)
  else ret 0.

Definition crossover (p1 p2 : t) (setOfPoints : bool) : M t :=
  let* randI := draw_breakpoint (length p1) in
  crossover_at randI p1 p2 setOfPoints.

(** *** __eq__, __ne__ and the small accessors *)

(** [for i in range(self.length - 2): if self.encoding[i] != other.encoding[i]] *)
Fixpoint eq_loop (mine theirs : list Z) (todo : list nat) : result bool :=
  match todo with
  | [] => Ok true
  | i :: todo' =>
      let? a := load mine i in
      let? b := load theirs i in
      if negb (a =? b)%Z then Ok false else eq_loop mine theirs todo'
  end.

Definition __eq__ (self other : t) : result bool :=
  if negb (length self =? length other) then Ok false
  else eq_loop (encoding self) (encoding other) (seq 0 (length self - 2)).

Definition __ne__ (self other : t) : result bool :=
  let? b := __eq__ self other in Ok (negb b).

Definition getGeneration (c : t) : Z := generation c.

Definition olden (c : t) : t :=
  mk (protein c) (setOfPoints c) (length c) (encoding c) (absPositions c)
     (fitness c) (generation c + 1)%Z (validState c).

(** *** printAsciiPicture *)

(** [min(l)] and [max(l)] *)
Definition py_min (l : list Z) : result Z :=
  match l with
  | [] => Raise ValueError
  | x :: rest => Ok (fold_left Z.min rest x)
  end.

Definition py_max (l : list Z) : result Z :=
  match l with
  | [] => Raise ValueError
  | x :: rest => Ok (fold_left Z.max rest x)
  end.

(** The place [l[i]] refers to in a list of [n] entries: a negative index
    counts from the end. *)
Definition py_index (n : nat) (i : Z) : result nat :=
  if (0 <=? i)%Z then
    if (i <? Z.of_nat n)%Z then Ok (Z.to_nat i) else Raise IndexError
  else if (0 <=? i + Z.of_nat n)%Z then Ok (Z.to_nat (i + Z.of_nat n))
  else Raise IndexError.

(** [grid[r][c] = v] *)
Definition grid_store (grid : list (list ascii)) (r c : Z) (v : ascii)
    : result (list (list ascii)) :=
  let? r' := py_index (List.length grid) r in
  match grid !! r' with
  | None => Raise IndexError
  | Some row =>
      let? c' := py_index (List.length row) c in
      Ok (<[r' := <[c' := v]> row]> grid)
  end.

Definition marker (acid : ascii) : ascii :=
  if Ascii.eqb acid "B" then "H"%char
  else if Ascii.eqb acid "W" then "P"%char
  else acid.

(** The body of the loop over [enumerate(self.absPositions)], on the grid and
    [lastX], [lastY]. *)
Definition picture_step (c : t) (lowestX lowestY width height : Z)
    (grid : list (list ascii)) (lastX lastY : Z) (idx : nat) (pos : Z * Z)
    : result (list (list ascii) * Z * Z) :=
  let x := pos.1 in
  let y := pos.2 in
  let normX := ((x - lowestX) * 2)%Z in
  let normY := ((y - lowestY) * 2)%Z in
  let? acid := protein_getNth c idx in
  let? grid := grid_store grid normY normX (marker acid) in
  let? grid :=
    if 0 <? idx then
      let? grid :=
        if (x <? lastX)%Z then
          if (normX + 1 <? width)%Z then grid_store grid normY (normX + 1) "-"%char
          else Ok grid
        else if (lastX <? x)%Z then
          if (0 <=? normX - 1)%Z then grid_store grid normY (normX - 1) "-"%char
          else Ok grid
        else Ok grid in
      if (lastY <? y)%Z then
        if (0 <=? normY - 1)%Z then grid_store grid (normY - 1) normX "|"%char
        else Ok grid
      else if (y <? lastY)%Z then
        if (normY + 1 <? height)%Z then grid_store grid (normY + 1) normX "|"%char
        else Ok grid
      else Ok grid
    else Ok grid in
  Ok (grid, x, y).

Fixpoint picture_loop (c : t) (lowestX lowestY width height : Z)
    (grid : list (list ascii)) (lastX lastY : Z) (idx : nat) (todo : list (Z * Z))
    : result (list (list ascii)) :=
  match todo with
  | [] => Ok grid
  | pos :: todo' =>
      let? st := picture_step c lowestX lowestY width height grid lastX lastY idx pos in
      picture_loop c lowestX lowestY width height st.1.1 st.1.2 st.2 (S idx) todo'
  end.

(** The grid after the loop, before it is printed. *)
Definition picture_grid (c : t) : result (list (list ascii)) :=
  let xs := map fst (absPositions c) in
  let ys := map snd (absPositions c) in
  let? lowestX := py_min xs in
  let? highestX := py_max xs in
  let? lowestY := py_min ys in
  let? highestY := py_max ys in
  let width := ((highestX - lowestX) * 2 + 1)%Z in
  let height := ((highestY - lowestY) * 2 + 1)%Z in
  let grid := replicate (Z.to_nat height) (replicate (Z.to_nat width) " "%char) in
  let? first := load (absPositions c) 0 in
  picture_loop c lowestX lowestY width height grid first.1 first.2 0 (absPositions c).

(** The lines printed, in order. *)
Definition printAsciiPicture (c : t) : result (list string) :=
  let? grid := picture_grid c in
  Ok (map string_of_list_ascii grid).

(** [str] of an integer. *)
Definition str (z : Z) : string := NilZero.string_of_int (Z.to_int z).

Definition getStatusString (c : t) : string :=
  ("Fitness: " ++ str (fitness c) ++ "   Generation: " ++ str (generation c))%string.

(** A placeholder for dereferencing; never observed (see [Population.obj]). *)
Definition blank : t := mk None false 0 [] [] 0 0 false.

End Conformation.

(** ** Population *)

Definition Qlt_bool (x y : Q) : bool := negb (Qle_bool y x).

Module Population.

(** [parent1], [parent2] and [theFittest] refer to objects held in
    [individuals]; such a reference is the object's index in that list.
    The list is filled by the constructor and is never resized afterwards,
    and a replacement overwrites the object in place
    ([__dict__.update]), which every reference to it observes. *)
Record t := mk {
  parent1 : option nat;
  parent2 : option nat;
  mutProb : Q;
  crossProb : Q;
  protein : Protein;
  size : Z;
  setOfConformations : gset string;
  individuals : list Conformation.t;
  theFittest : nat
}.

Definition obj (p : t) (r : nat) : Conformation.t :=
  default Conformation.blank (individuals p !! r).

Definition set_parent1 (r : nat) (p : t) : t :=
  mk (Some r) (parent2 p) (mutProb p) (crossProb p) (protein p) (size p)
     (setOfConformations p) (individuals p) (theFittest p).
Definition set_parent2 (r : nat) (p : t) : t :=
  mk (parent1 p) (Some r) (mutProb p) (crossProb p) (protein p) (size p)
     (setOfConformations p) (individuals p) (theFittest p).
Definition set_theFittest (r : nat) (p : t) : t :=
  mk (parent1 p) (parent2 p) (mutProb p) (crossProb p) (protein p) (size p)
     (setOfConformations p) (individuals p) r.
Definition set_setOfConformations (s : gset string) (p : t) : t :=
  mk (parent1 p) (parent2 p) (mutProb p) (crossProb p) (protein p) (size p)
     s (individuals p) (theFittest p).
Definition set_individuals (l : list Conformation.t) (p : t) : t :=
  mk (parent1 p) (parent2 p) (mutProb p) (crossProb p) (protein p) (size p)
     (setOfConformations p) l (theFittest p).

(** [self.individuals[r].__dict__.update(child.__dict__)] *)
Definition overwrite (r : nat) (child : Conformation.t) (p : t) : t :=
  set_individuals (<[r := child]> (individuals p)) p.

(** *** setFittest, getFittest *)

Fixpoint setFittest_loop (p : t) (todo : list nat) (best : nat) : nat :=
  match todo with
  | [] => best
  | r :: todo' =>
      if (Conformation.getFitness (obj p r) <? Conformation.getFitness (obj p best))%Z
      then setFittest_loop p todo' r
      else setFittest_loop p todo' best
  end.

Definition setFittest (p : t) : t :=
  set_theFittest (setFittest_loop p (seq 0 (List.length (individuals p))) (theFittest p)) p.

Definition getFittest (p : t) : Conformation.t := obj p (theFittest p).

(** *** isInsertable *)

Definition isInsertable (candidate : Conformation.t) (p : t) : bool * t :=
  let confStr := Conformation.getConformationString candidate in
  if decide (confStr ∈ setOfConformations p) then (false, p)
  else (true, set_setOfConformations (setOfConformations p ∪ {[confStr]}) p).

(** *** The constructor *)

(** [while i < self.size] *)
Fixpoint fill (fuel : nat) (i : nat) (p : t) : M t :=
  if (Z.of_nat i <? size p)%Z then
    match fuel with
    | O => out_of_fuel
    | S fuel' =>
        let* temp := Conformation.__init__ fuel' (Some (protein p)) true in
        let* temp := Conformation.calcFitness temp in
        let confStr := Conformation.getConformationString temp in
        if negb (Conformation.getFitness temp =? 0)%Z
           && bool_decide (confStr ∉ setOfConformations p)
        then
          let p := set_individuals (individuals p ++ [temp]) p in
          let p := set_setOfConformations (setOfConformations p ∪ {[confStr]}) p in
          fill fuel' (S i) p
        else fill fuel' i p
    end
  else ret p.

Definition __init__ (fuel : nat) (size : Z) (prot : Protein) (mutProb crossProb : Q) : M t :=
  fun w =>
    (* the fresh collision set *)
    let w := mkWorld (tape w) (energyEvalSteps w) ∅ in
    (let* p := fill fuel 0 (mk None None mutProb crossProb prot size ∅ [] 0) in
     match individuals p with
     | [] => raise IndexError
     | _ :: _ => ret (setFittest (set_theFittest 0 p))
     end) w.

(** *** tournamentSelect *)

(** [min(participants, key=...)] on a non-empty list: the first minimum. *)
Fixpoint min_loop (p : t) (todo : list nat) (best : nat) : nat :=
  match todo with
  | [] => best
  | r :: todo' =>
      if (Conformation.getFitness (obj p r) <? Conformation.getFitness (obj p best))%Z
      then min_loop p todo' r
      else min_loop p todo' best
  end.

Definition tournamentSelect (tournament_size : nat) (p : t) : M nat :=
  let* participants := sample (seq 0 (List.length (individuals p))) tournament_size in
  match participants with
  | [] => raise ValueError
  | r :: rest => ret (min_loop p rest r)
  end.

(** *** crossover: one generation step *)

(** The replacement attempt for a valid, scored child, [if
    self.isInsertable(child): ... elif ...]: [owner] is the parent compared
    first.  The source has this block twice, for [child1] with [parent1]
    first and for [child2] with [parent2] first. *)
Definition place (child : Conformation.t) (owner other : nat) (p : t) : t :=
  let '(insertable, p) := isInsertable child p in
  if insertable then
    if (Conformation.getFitness child <? Conformation.getFitness (obj p owner))%Z
    then overwrite owner child p
    else if (Conformation.getFitness child <? Conformation.getFitness (obj p other))%Z
    then overwrite other child p
    else p
  else p.

(** What the step does with one child: mutate it, recompute validity and,
    if valid, fitness, then try to place it. *)
Definition offspring (child : Conformation.t) (owner other : nat) (p : t) : M t :=
  let* child := Conformation.mutate (mutProb p) child in
  let* child := Conformation.calcValidity child in
  if Conformation.isValid child then
    let* child := Conformation.calcFitness child in
    ret (place child owner other p)
  else ret p.

(** The two closing comparisons of the step with [theFittest]. *)
Definition refresh_fittest (r1 r2 : nat) (p : t) : t :=
  let p := if (Conformation.getFitness (obj p r1) <? Conformation.getFitness (getFittest p))%Z
           then set_theFittest r1 p else p in
  if (Conformation.getFitness (obj p r2) <? Conformation.getFitness (getFittest p))%Z
  then set_theFittest r2 p else p.

Definition crossover (p : t) : M t :=
  let* r1 := tournamentSelect 3 p in
  let p := set_parent1 r1 p in
  let* u := random in
  if Qlt_bool (crossProb p) u then ret p
  else
    let* r2 := tournamentSelect 3 p in
    let p := set_parent2 r2 p in
    let* u := random in
    if Qlt_bool (crossProb p) u then ret p
    else
      let* child1 := Conformation.crossover (obj p r1) (obj p r2) true in
      let* child2 := Conformation.crossover (obj p r2) (obj p r1) true in
      let* p := offspring child1 r1 r2 p in
      let* p := offspring child2 r2 r1 p in
      ret (refresh_fittest r1 r2 p).

End Population.

(** ** main: the driver loop *)

Module Main.

(** The module's global variables.  [global_fittest_ptr] is a reference to
    an individual of the population, [None] until [calculation] sets it. *)
Record Globals := mkGlobals {
  global_fittest_ptr : option nat;
  isTerminated : bool;
  switch_enable_graphics : bool;
  switch_minen : Z;
  switch_max_evaluations : Z
}.

(** The values the module is loaded with. *)
Definition globals : Globals := mkGlobals None false false (-22) 500000.

Definition set_global_fittest_ptr (r : option nat) (g : Globals) : Globals :=
  mkGlobals r (isTerminated g) (switch_enable_graphics g) (switch_minen g)
    (switch_max_evaluations g).
Definition set_isTerminated (b : bool) (g : Globals) : Globals :=
  mkGlobals (global_fittest_ptr g) b (switch_enable_graphics g) (switch_minen g)
    (switch_max_evaluations g).

(** The state of the driver: the population, the globals, and the lines
    it has printed. *)
Definition State : Type := Population.t * Globals * list string.

(** [global_fittest_ptr.getFitness()], read through the reference. *)
Definition ptr_fitness (pop : Population.t) (g : Globals) : result Z :=
  match global_fittest_ptr g with
  | None => Raise AttributeError
  | Some r => Ok (Conformation.getFitness (Population.obj pop r))
  end.

(** The body of the [while] loop. *)
Definition calculation_body (st : State) : M State :=
  let '(pop, g, out) := st in
  let* pop := Population.crossover pop in
  let* best := lift (ptr_fitness pop g) in
  if (Conformation.getFitness (Population.getFittest pop) <? best)%Z then
    let g := set_global_fittest_ptr (Some (Population.theFittest pop)) g in
    if negb (switch_enable_graphics g) then
      let status := Conformation.getStatusString (Population.getFittest pop) in
      let* picture := lift (Conformation.printAsciiPicture (Population.getFittest pop)) in
      ret (pop, g, out ++ status :: picture)
    else ret (pop, g, out)
  else ret (pop, g, out).

(** The loop condition. *)
Definition running (st : State) (w : World) : bool :=
  let '(pop, g, _) := st in
  (switch_minen g <? Conformation.getFitness (Population.getFittest pop))%Z
  && (energyEvalSteps w <? switch_max_evaluations g)%Z.

Fixpoint calculation_loop (fuel : nat) (st : State) : M State :=
  fun w =>
    if running st w then
      match fuel with
      | O => OutOfFuel
      | S fuel' => (let* st := calculation_body st in calculation_loop fuel' st) w
      end
    else Ok (st, w).

Definition calculation (fuel : nat) (st : State) : M State :=
  let '(pop, g, out) := st in
  let g := set_global_fittest_ptr (Some (Population.theFittest pop)) g in
  let* st := calculation_loop fuel (pop, g, out) in
  let '(pop, g, out) := st in
  ret (pop, set_isTerminated true g, out).

End Main.

(** ** testing: the benchmark loop *)

Module Testing.

Section Configuration.

(** The two configuration constants the loop reads. *)
Variables (SWITCH_MIN_ENERGY SWITCH_MAX_EVALUATIONS : Z).

(** The local variables of [calculation]; [best] is a reference to an
    individual of the population. *)
Record Locals := mkLocals {
  best : nat;
  best_fitness : Z;
  best_eval : Z;
  generation : Z;
  best_generation : Z;
  birth_generation : Z
}.

(** The body of the [while] loop. *)
Definition calculation_body (st : Population.t * Locals) : M (Population.t * Locals) :=
  let '(pop, l) := st in
  let* pop := Population.crossover pop in
  fun w =>
    let generation := (generation l + 1)%Z in
    let current := Population.theFittest pop in
    if (Conformation.getFitness (Population.obj pop current) <? best_fitness l)%Z then
      Ok ((pop, mkLocals current (Conformation.getFitness (Population.obj pop current))
                  (energyEvalSteps w) generation generation
                  (Conformation.getGeneration (Population.obj pop current))), w)
    else
      Ok ((pop, mkLocals (best l) (best_fitness l) (best_eval l) generation
                  (best_generation l) (birth_generation l)), w).

(** The loop condition. *)
Definition running (st : Population.t * Locals) (w : World) : bool :=
  let '(pop, l) := st in
  (SWITCH_MIN_ENERGY <? Conformation.getFitness (Population.obj pop (best l)))%Z
  && (energyEvalSteps w <? SWITCH_MAX_EVALUATIONS)%Z.

Fixpoint calculation_loop (fuel : nat) (st : Population.t * Locals)
    : M (Population.t * Locals) :=
  fun w =>
    if running st w then
      match fuel with
      | O => OutOfFuel
      | S fuel' => (let* st := calculation_body st in calculation_loop fuel' st) w
      end
    else Ok (st, w).

(** Returns the population as the loop left it, and the tuple
    [(best_fitness, best_eval, unique_confs, best_generation,
    birth_generation)]. *)
Definition calculation (fuel : nat) (pop : Population.t)
    : M (Population.t * (Z * Z * nat * Z * Z)) :=
  fun w =>
    let w := mkWorld (tape w) 0 (collisionSet w) in
    let best := Population.theFittest pop in
    let l := mkLocals best (Conformation.getFitness (Population.obj pop best))
               (energyEvalSteps w) 0 0
               (Conformation.getGeneration (Population.obj pop best)) in
    (let* st := calculation_loop fuel (pop, l) in
     let '(pop, l) := st in
     let unique_confs := size (Population.setOfConformations pop) in
     ret (pop, (best_fitness l, best_eval l, unique_confs, best_generation l,
                birth_generation l))) w.

End Configuration.

Definition SWITCH_MIN_ENERGY : Z := -42.
Definition SWITCH_MAX_EVALUATIONS : Z := 100000.

End Testing.

(** ** The specification's vocabulary *)

(** *** Lattice walk (spec 4.1) *)

Inductive heading := Up | Down | Right | Left.

Inductive symbol := SLEFT | SFORWARD | SRIGHT.

Definition code (s : symbol) : Z :=
  match s with
  | SLEFT => LEFT
  | SFORWARD => FORWARD
  | SRIGHT => RIGHT
  end.

Definition rotate_left (h : heading) : heading :=
  match h with
  | Up => Left
  | Left => Down
  | Down => Right
  | Right => Up
  end.

Definition rotate_right (h : heading) : heading :=
  match h with
  | Up => Right
  | Right => Down
  | Down => Left
  | Left => Up
  end.

(** One lattice step from [p] in heading [h]. *)
Definition advance (h : heading) (p : Z * Z) : Z * Z :=
  match h with
  | Up => (p.1, p.2 + 1)%Z
  | Down => (p.1, p.2 - 1)%Z
  | Right => (p.1 + 1, p.2)%Z
  | Left => (p.1 - 1, p.2)%Z
  end.

Definition new_heading (h : heading) (s : symbol) : heading :=
  match s with
  | SFORWARD => h
  | SLEFT => rotate_left h
  | SRIGHT => rotate_right h
  end.

(** The residues placed after a residue at [p] reached with heading [h]. *)
Fixpoint spec_walk (h : heading) (p : Z * Z) (syms : list symbol) : list (Z * Z) :=
  match syms with
  | [] => []
  | s :: syms' =>
      let h' := new_heading h s in
      let p' := advance h' p in
      p' :: spec_walk h' p' syms'
  end.

Definition spec_positions (syms : list symbol) : list (Z * Z) :=
  (0, 0)%Z :: (0, 1)%Z :: spec_walk Up (0, 1)%Z syms.

(** How the source numbers the headings. *)
Definition heading_code (h : heading) : Z :=
  match h with
  | Up => 0
  | Down => 1
  | Right => 2
  | Left => 3
  end.

(** *** Contact energy (spec 4.3) *)

Definition hydrophobic (p : Protein) (i : nat) : bool :=
  bool_decide (String.get i (sequence p) = Some "B"%char).

Definition manhattan (a b : Z * Z) : Z :=
  (Z.abs (a.1 - b.1) + Z.abs (a.2 - b.2))%Z.

Definition position (pos : list (Z * Z)) (i : nat) : Z * Z :=
  default (0, 0)%Z (pos !! i).

(** Residues [i] and [j >= i + 2], both hydrophobic, one lattice unit apart. *)
Definition is_contact (p : Protein) (pos : list (Z * Z)) (ij : nat * nat) : bool :=
  (ij.1 + 2 <=? ij.2)
  && hydrophobic p ij.1 && hydrophobic p ij.2
  && (manhattan (position pos ij.1) (position pos ij.2) =? 1)%Z.

Definition contacts (p : Protein) (pos : list (Z * Z)) (n : nat) : list (nat * nat) :=
  List.filter (is_contact p pos) (list_prod (seq 0 n) (seq 0 n)).

(** *** Population invariants (spec 3 and 4.5) *)

Definition encoding_strings (p : Population.t) : list string :=
  Conformation.getConformationString <$> Population.individuals p.

(** A conformation that passed the validity check. *)
Definition self_avoiding (c : Conformation.t) : Prop :=
  Conformation.validState c = true /\ NoDup (Conformation.absPositions c).

Record admissible (p : Population.t) : Prop := mkAdmissible {
  adm_count : Z.of_nat (length (Population.individuals p)) = Population.size p;
  adm_members : forall c, c ∈ Population.individuals p ->
                  self_avoiding c /\ (Conformation.fitness c < 0)%Z;
  adm_unique : NoDup (encoding_strings p);
  adm_indexed : forall s, s ∈ encoding_strings p -> s ∈ Population.setOfConformations p
}.

Definition fittest_minimal (p : Population.t) : Prop :=
  Population.theFittest p < length (Population.individuals p)
  /\ forall c, c ∈ Population.individuals p ->
       (Conformation.fitness (Population.getFittest p) <= Conformation.fitness c)%Z.

(** A step of the population in which only the objects [r1] and [r2] may
    have been overwritten, and then only by a fitter, self-avoiding newcomer
    whose string was not in the index. *)
Definition refines (r1 r2 : nat) (p p' : Population.t) : Prop :=
  Population.size p' = Population.size p
  /\ Population.theFittest p' = Population.theFittest p
  /\ length (Population.individuals p') = length (Population.individuals p)
  /\ Population.setOfConformations p ⊆ Population.setOfConformations p'
  /\ (forall i, i <> r1 -> i <> r2 -> Population.obj p' i = Population.obj p i)
  /\ (forall i, (Conformation.fitness (Population.obj p' i)
                 <= Conformation.fitness (Population.obj p i))%Z)
  /\ (admissible p -> admissible p').

(** What holds of the population while the constructor fills it. *)
Definition filling (p : Population.t) : Prop :=
  (forall c, c ∈ Population.individuals p ->
     self_avoiding c /\ (Conformation.fitness c < 0)%Z)
  /\ NoDup (encoding_strings p)
  /\ (forall s, s ∈ encoding_strings p -> s ∈ Population.setOfConformations p)
  /\ (Z.of_nat (length (Population.individuals p)) <= Z.max 0 (Population.size p))%Z.

(** Any number of generation steps, each from whatever the world is then. *)
Inductive generations : Population.t -> Population.t -> Prop :=
| generations_none (p : Population.t) : generations p p
| generations_step (p p' p'' : Population.t) (w w' : World) :
    Population.crossover p w = Ok (p', w') ->
    generations p' p'' ->
    generations p p''.

(** *** Elitist replacement (spec 4.4) *)

(** What a generation step does with the recombined [child0], whose owning
    parent is the individual [owner] and whose other parent is [other]; the
    population is [p] before and [p'] after, the world [w] before and [w']
    after.  The child is mutated and its validity recomputed.  Found invalid,
    it is dropped.  Found valid, it is scored; if its string is in the index
    nothing changes; otherwise the string is registered and the child
    overwrites the owning parent when strictly fitter than it, else the other
    parent when strictly fitter than that one, else nobody.  The number of
    individuals stays what it was. *)
Definition child_outcome (child0 : Conformation.t) (owner other : nat)
    (p p' : Population.t) (w w' : World) : Prop :=
  exists (mutated : Conformation.t) (w1 : World) (validated : Conformation.t) (w2 : World),
    Conformation.mutate (Population.mutProb p) child0 w = Ok (mutated, w1)
    /\ Conformation.calcValidity mutated w1 = Ok (validated, w2)
    /\ length (Population.individuals p') = length (Population.individuals p)
    /\ (Conformation.validState validated = false -> p' = p /\ w' = w2)
    /\ (Conformation.validState validated = true ->
        exists child : Conformation.t,
          Conformation.calcFitness validated w2 = Ok (child, w')
          /\ let s := Conformation.getConformationString child in
             (s ∈ Population.setOfConformations p -> p' = p)
             /\ ((s ∉ Population.setOfConformations p) ->
                 Population.setOfConformations p' = Population.setOfConformations p ∪ {[s]}
                 /\ ((Conformation.fitness child
                      < Conformation.fitness (Population.obj p owner))%Z ->
                     Population.individuals p'
                     = <[owner := child]> (Population.individuals p))
                 /\ ((Conformation.fitness (Population.obj p owner)
                      <= Conformation.fitness child)%Z ->
                     (Conformation.fitness child
                      < Conformation.fitness (Population.obj p other))%Z ->
                     Population.individuals p'
                     = <[other := child]> (Population.individuals p))
                 /\ ((Conformation.fitness (Population.obj p owner)
                      <= Conformation.fitness child)%Z ->
                     (Conformation.fitness (Population.obj p other)
                      <= Conformation.fitness child)%Z ->
                     Population.individuals p' = Population.individuals p))).

(** ** A worked example: the sequence BWWBWB *)

Definition tape_of (l : list N) : nat -> N := fun i => nth i l 0%N.

(** A raw draw on which [random()] is as close to 1 as it gets. *)
Definition never : N := 9007199254740991.

Definition with_tape (l : list N) (w : World) : World :=
  mkWorld (tape_of l) (energyEvalSteps w) (collisionSet w).

Definition ex_protein : Protein := mkProtein "BWWBWB".

(** The folding LLFL before its positions are computed, and after. *)
Definition ex_seed : Conformation.t :=
  Conformation.mk (Some ex_protein) true 6 [LEFT; LEFT; FORWARD; LEFT]
    (replicate 6 (0, 0)%Z) 0 0 false.

Definition ex_folded : Conformation.t :=
  Conformation.mk (Some ex_protein) true 6 [LEFT; LEFT; FORWARD; LEFT]
    [(0, 0); (0, 1); (-1, 1); (-1, 0); (-1, -1); (0, -1)]%Z 0 0 true.

Definition ex_other : Conformation.t :=
  Conformation.mk (Some ex_protein) true 6 [RIGHT; RIGHT; FORWARD; FORWARD]
    (replicate 6 (0, 0)%Z) 0 3 false.

(** The draws that seed LLFF, RRFF and LLFR. *)
Definition ex_world : World :=
  mkWorld (tape_of [0; 0; 1; 1; 2; 2; 1; 1; 0; 0; 1; 2]%N) 0 ∅.

Definition ex_empty : Population.t :=
  Population.mk None None 0 0 ex_protein 0 ∅ [] 0.

Definition after (r : result (Population.t * World)) : Population.t :=
  match r with Ok (p, _) => p | _ => ex_empty end.

Definition world_after (r : result (Population.t * World)) : World :=
  match r with Ok (_, w) => w | _ => ex_world end.

Definition ex_init : result (Population.t * World) :=
  Population.__init__ 3 3 ex_protein (1 # 2) 1 ex_world.

Definition ex_population : Population.t := after ex_init.
Definition ex_world_ready : World := world_after ex_init.

(** A step with parents 0 (LLFF) and 1 (RRFF), both of fitness -1, both cuts
    at 3; the first child is mutated at locus 2 to R, giving LLRF of fitness
    -1, the second child is left as RRFF. *)
Definition ex_world_tie : World :=
  with_tape [0; 0; 0; 0; 1; 0; 0; 0; 3; 3;
             never; never; 0; 2; never; never; never; never; never]%N ex_world_ready.

(** The same step, the first child mutated at locus 3 to L instead, giving
    LLFL of fitness -2. *)
Definition ex_world_better : World :=
  with_tape [0; 0; 0; 0; 1; 0; 0; 0; 3; 3;
             never; never; never; 0; 0; never; never; never; never]%N ex_world_ready.

Definition ex_tied : Population.t := after (Population.crossover ex_population ex_world_tie).
Definition ex_replaced : Population.t :=
  after (Population.crossover ex_population ex_world_better).

(** The first child of the step [ex_world_tie], mutated, validated, scored. *)
Definition ex_tie_child : Conformation.t :=
  Conformation.mk (Some ex_protein) true 6 [LEFT; LEFT; RIGHT; FORWARD]
    [(0, 0); (0, 1); (-1, 1); (-1, 0); (-2, 0); (-3, 0)]%Z (-1) 1 true.

(** The draws of that child's mutation alone. *)
Definition ex_world_mutation : World :=
  with_tape [never; never; 0; 2; never]%N ex_world_ready.

(** The straight folding FFFF before its positions are computed. *)
Definition ex_straight : Conformation.t :=
  Conformation.mk (Some ex_protein) true 6 [FORWARD; FORWARD; FORWARD; FORWARD]
    (replicate 6 (0, 0)%Z) 0 0 false.

(** A population of one, seeded with LLFF. *)
Definition ex_init_small : result (Population.t * World) :=
  Population.__init__ 3 1 ex_protein (1 # 2) 1 ex_world.

Definition ex_small : Population.t := after ex_init_small.

(** A sequence whose hydrophobic residues are an even number of places apart. *)
Definition ex_alternating : Protein := mkProtein "BWBWB".

(** A step with parents 1 (RRFF) and 2 (LLFR), both cuts at 3, no mutation:
    the first child is RRFR of fitness -2. *)
Definition ex_world_report : World :=
  with_tape [1; 1; 0; 0; 2; 0; 0; 0; 3; 3;
             never; never; never; never; never; never; never; never; never]%N ex_world_ready.

(** The driver's globals with a threshold the sequence BWWBWB can reach. *)
Definition ex_switches : Main.Globals := Main.mkGlobals None false false (-2) 100.

(** ** Well-formed conformations *)

Definition alphabet (d : Z) : Prop := d = LEFT \/ d = FORWARD \/ d = RIGHT.

(** A conformation of the sequence [prot], with one locus per residue after
    the second, each a turn symbol. *)
Definition shaped (prot : Protein) (c : Conformation.t) : Prop :=
  Conformation.protein c = Some prot
  /\ Conformation.length c = getLength prot
  /\ 2 <= Conformation.length c
  /\ length (Conformation.encoding c) = Conformation.length c - 2
  /\ Forall alphabet (Conformation.encoding c).

(** Positions and flag as [calcValidity] leaves them. *)
Definition positions_current (c : Conformation.t) : Prop :=
  Conformation.calcAbsolutePositions c = Ok c
  /\ Conformation.validState c = bool_decide (NoDup (Conformation.absPositions c)).

(** Positions, validity flag and fitness are those the encoding gives:
    recomputing them changes nothing. *)
Definition up_to_date (c : Conformation.t) : Prop :=
  Conformation.calcAbsolutePositions c = Ok c
  /\ Conformation.validState c = bool_decide (NoDup (Conformation.absPositions c))
  /\ Conformation.fitness_outer c (seq 0 (Conformation.length c)) 0 = Ok (Conformation.fitness c).

(** Every individual is a well-formed, up-to-date conformation of the
    population's sequence. *)
Definition wellformed (p : Population.t) : Prop :=
  forall c, c ∈ Population.individuals p -> shaped (Population.protein p) c /\ up_to_date c.

(** The float [random()] makes of a raw draw. *)
Definition random_value (n : N) : Q :=
  Qmake (Z.of_N n mod 9007199254740992) 9007199254740992.

(** An outcome that is not an exception. *)
Definition no_exception {A} (r : result A) : Prop :=
  (exists a, r = Ok a) \/ r = OutOfFuel.

(** *** Reading a picture *)

(** The character in row [r], column [c] of a grid. *)
Definition gcell (grid : list (list ascii)) (r c : nat) : option ascii :=
  match grid !! r with
  | Some row => row !! c
  | None => None
  end.

(** A grid of [h] rows of [w] characters. *)
Definition grid_dims (grid : list (list ascii)) (h w : nat) : Prop :=
  length grid = h /\ forall row, row ∈ grid -> length row = w.

(** Twice the offset of a coordinate from the lowest one. *)
Definition norm (lowest v : Z) : nat := Z.to_nat ((v - lowest) * 2).

(** *** The benchmark's bookkeeping *)

(** The locals of the benchmark loop describe the best individual of the
    population: [best] refers to it, [best_fitness] and [birth_generation]
    are its fitness and generation, and the two counters recorded at the
    last improvement are within the running ones. *)
Definition tracked (p : Population.t) (l : Testing.Locals) (w : World) : Prop :=
  Testing.best l = Population.theFittest p
  /\ Testing.best_fitness l = Conformation.fitness (Population.getFittest p)
  /\ Testing.birth_generation l = Conformation.generation (Population.getFittest p)
  /\ (0 <= Testing.best_eval l <= energyEvalSteps w)%Z
  /\ (0 <= Testing.best_generation l <= Testing.generation l)%Z.

(** ** Properties *)

(** *** Running a computation *)

Lemma bind_Ok {A B} (m : M A) (k : A -> M B) w b w2 :
  bind m k w = Ok (b, w2) ->
  exists a w1, m w = Ok (a, w1) /\ k a w1 = Ok (b, w2).
Proof.
  unfold bind. destruct (m w) as [[a w1]| |]; try discriminate. eauto.
Qed.

Lemma rbind_Ok {A B} (r : result A) (k : A -> result B) b :
  rbind r k = Ok b -> exists a, r = Ok a /\ k a = Ok b.
Proof. destruct r; simpl; try discriminate. eauto. Qed.

Lemma lift_Ok {A} (r : result A) w a w1 :
  lift r w = Ok (a, w1) -> r = Ok a /\ w1 = w.
Proof. unfold lift. destruct r; try discriminate. intros [= -> ->]. auto. Qed.

Lemma ret_Ok {A} (a : A) w b w1 : ret a w = Ok (b, w1) -> b = a /\ w1 = w.
Proof. unfold ret. intros [= -> ->]. auto. Qed.

Ltac run_in H :=
  lazymatch type of H with
  | bind _ _ _ = Ok _ =>
      let a := fresh "a" in let w := fresh "w" in
      let H1 := fresh "Hrun" in
      apply bind_Ok in H as (a & w & H1 & H); run_in H1; run_in H
  | rbind _ _ = Ok _ =>
      let a := fresh "a" in let H1 := fresh "Hrun" in
      apply rbind_Ok in H as (a & H1 & H); run_in H
  | ret _ _ = Ok _ =>
      let E1 := fresh "E" in let E2 := fresh "E" in
      destruct (ret_Ok _ _ _ _ H) as [E1 E2]; clear H;
      try (rewrite E1 in * ); try (rewrite E2 in * ); clear E1 E2
  | lift _ _ = Ok _ =>
      let E2 := fresh "E" in
      apply lift_Ok in H as [H E2]; try (rewrite E2 in * ); clear E2
  | _ => idtac
  end.

(** *** Lattice walk *)

Lemma turn_heading (h : heading) (s : symbol) (x y : Z) :
  Conformation.turn x y (heading_code h) (code s)
  = (advance (new_heading h s) (x, y), heading_code (new_heading h s)).
Proof. destruct h, s; reflexivity. Qed.

Lemma positions_loop_walk (syms : list symbol) :
  forall (k : nat) (h : heading) (x y : Z) (pre : list (Z * Z)) (before : list Z) (after : list Z),
    length pre = k + 2 ->
    length before = k ->
    Conformation.positions_loop (before ++ map code syms ++ after) (seq k (length syms))
      x y (heading_code h) (pre ++ replicate (length syms) (0, 0)%Z)
    = Ok (pre ++ spec_walk h (x, y) syms).
Proof.
  induction syms as [|s syms IH]; intros k h x y pre before after Hpre Hbefore.
  - simpl. by rewrite app_nil_r.
  - cbn [length seq Conformation.positions_loop map].
    rewrite lookup_app_r by lia.
    replace (k - length before) with 0 by lia. cbn [lookup list_lookup app].
    rewrite turn_heading.
    destruct (advance (new_heading h s) (x, y)) as [x' y'] eqn:Hadv.
    rewrite insert_app_r_alt by lia.
    replace (k + 2 - length pre) with 0 by lia.
    cbn [replicate insert list_insert].
    specialize (IH (S k) (new_heading h s) x' y' (pre ++ [(x', y')]) (before ++ [code s]) after).
    rewrite <- !app_assoc in IH. cbn [app] in IH.
    rewrite IH.
    + cbn [spec_walk]. by rewrite Hadv.
    + rewrite length_app. simpl. lia.
    + rewrite length_app. simpl. lia.
Qed.

Lemma positions_loop_total (enc : list Z) (n : nat) :
  forall (k : nat) (x y d : Z) (pos : list (Z * Z)),
    k + n <= length enc ->
    exists pos', Conformation.positions_loop enc (seq k n) x y d pos = Ok pos'
                 /\ length pos' = length pos.
Proof.
  induction n as [|n IH]; intros k x y d pos Hlen.
  - simpl. eauto.
  - cbn [seq Conformation.positions_loop].
    destruct (lookup_lt_is_Some_2 enc k) as [v Hv]; [lia|]. rewrite Hv.
    destruct (Conformation.turn x y d v) as [[x' y'] d'].
    destruct (IH (S k) x' y' d' (<[k + 2 := (x', y')]> pos)) as (pos' & Hrun & Hl); [lia|].
    exists pos'. split; [done|]. by rewrite Hl, length_insert.
Qed.

Lemma calcAbsolutePositions_total (c : Conformation.t) :
  2 <= Conformation.length c ->
  Conformation.length c - 2 <= length (Conformation.encoding c) ->
  exists pos, Conformation.calcAbsolutePositions c = Ok (Conformation.set_absPositions pos c)
              /\ length pos = Conformation.length c.
Proof.
  intros Hn Henc. unfold Conformation.calcAbsolutePositions.
  destruct (Nat.ltb_spec (Conformation.length c) 1); [lia|].
  destruct (Nat.ltb_spec (Conformation.length c) 2); [lia|].
  edestruct (positions_loop_total (Conformation.encoding c) (Conformation.length c - 2) 0)
    as (pos' & Hrun & Hl); [simpl; lia|].
  rewrite Hrun. simpl. exists pos'. split; [done|].
  by rewrite Hl, !length_insert, length_replicate.
Qed.

Lemma calcAbsolutePositions_spec (c : Conformation.t) (syms : list symbol) :
  Conformation.encoding c = map code syms ->
  Conformation.length c = length syms + 2 ->
  Conformation.calcAbsolutePositions c
  = Ok (Conformation.set_absPositions (spec_positions syms) c).
Proof.
  intros Henc Hn. unfold Conformation.calcAbsolutePositions.
  destruct (Nat.ltb_spec (Conformation.length c) 1); [lia|].
  destruct (Nat.ltb_spec (Conformation.length c) 2); [lia|].
  rewrite Hn, Henc. replace (length syms + 2 - 2) with (length syms) by lia.
  replace (length syms + 2) with (S (S (length syms))) by lia.
  cbn [replicate insert list_insert].
  pose proof (positions_loop_walk syms 0 Up 0 1 [(0, 0)%Z; (0, 1)%Z] [] []) as Hw.
  cbn [app heading_code] in Hw. rewrite app_nil_r in Hw.
  rewrite Hw by reflexivity. reflexivity.
Qed.

(** C2: for an encoding of [n - 2] symbols over LEFT, FORWARD, RIGHT,
    [calcAbsolutePositions] returns the walk of the specification: residue 0
    at (0,0), residue 1 at (0,1) heading up, then one lattice step per symbol
    in the heading kept (FORWARD) or rotated by a quarter turn (LEFT, RIGHT).
    The result depends on the encoding alone: recomputing it, or computing it
    for any other conformation with the same encoding, gives the same
    coordinates. *)
Theorem calcAbsolutePositions_walk (c : Conformation.t) (syms : list symbol) :
  Conformation.encoding c = map code syms ->
  Conformation.length c = length syms + 2 ->
  let c' := Conformation.set_absPositions (spec_positions syms) c in
  Conformation.calcAbsolutePositions c = Ok c'
  /\ Conformation.calcAbsolutePositions c' = Ok c'
  /\ forall c2 : Conformation.t,
       Conformation.encoding c2 = Conformation.encoding c ->
       Conformation.length c2 = Conformation.length c ->
       exists c2', Conformation.calcAbsolutePositions c2 = Ok c2'
                   /\ Conformation.absPositions c2' = Conformation.absPositions c'.
Proof.
  intros Henc Hn c'. split; [|split].
  - by apply calcAbsolutePositions_spec.
  - by rewrite (calcAbsolutePositions_spec c' syms).
  - intros c2 He2 Hn2. eexists. split.
    + apply (calcAbsolutePositions_spec c2 syms); congruence.
    + reflexivity.
Qed.

(** *** Self-avoidance *)

Lemma scan_spec (ps : list (Z * Z)) :
  forall seen : gset (Z * Z),
    match Conformation.scan ps seen with
    | Some s => NoDup ps /\ (forall p, p ∈ ps -> p ∉ seen) /\ s = seen ∪ list_to_set ps
    | None => ~ (NoDup ps /\ forall p, p ∈ ps -> p ∉ seen)
    end.
Proof.
  induction ps as [|p ps IH]; intros seen; simpl.
  - split; [constructor|]. split; [intros p Hp; inversion Hp | set_solver].
  - destruct (decide (p ∈ seen)) as [Hin|Hnin].
    + intros [_ Hd]. apply (Hd p); [left | done].
    + specialize (IH (seen ∪ {[p]})).
      destruct (Conformation.scan ps (seen ∪ {[p]})) as [s|].
      * destruct IH as (Hnd & Hd & ->). split; [|split].
        -- constructor; [|done]. intros Hp. apply (Hd p Hp). set_solver.
        -- intros q Hq. apply elem_of_cons in Hq as [->|Hq]; [done|].
           specialize (Hd q Hq). set_solver.
        -- set_solver.
      * intros [Hnd Hd]. apply IH. apply NoDup_cons in Hnd as [Hp Hnd].
        split; [done|]. intros q Hq Hseen.
        apply elem_of_union in Hseen as [Hseen|Hseen].
        -- apply (Hd q); [by right | done].
        -- apply elem_of_singleton in Hseen as ->. done.
Qed.

Lemma scan_NoDup (ps : list (Z * Z)) :
  is_Some (Conformation.scan ps ∅) <-> NoDup ps.
Proof.
  pose proof (scan_spec ps ∅) as H.
  destruct (Conformation.scan ps ∅) as [s|].
  - split; [intros _; tauto | eauto].
  - split; [intros [? [=]] | intros Hnd; exfalso; apply H; split; [done | set_solver]].
Qed.

(** What [calcValidity] returns, in terms of the recomputed positions. *)
Lemma calcValidity_Ok (c c' : Conformation.t) (w w' : World) :
  Conformation.calcValidity c w = Ok (c', w') ->
  exists c1, Conformation.calcAbsolutePositions c = Ok c1
             /\ c' = Conformation.set_validState (bool_decide (NoDup (Conformation.absPositions c1))) c1
             /\ tape w' = tape w /\ energyEvalSteps w' = energyEvalSteps w.
Proof.
  unfold Conformation.calcValidity. intros H. run_in H.
  exists a. split; [done|].
  pose proof (scan_NoDup (Conformation.absPositions a)) as Hs.
  destruct (Conformation.scan (Conformation.absPositions a) ∅) as [s|].
  - injection H as <- <-. rewrite bool_decide_eq_true_2 by (apply Hs; eauto).
    split; [done|]. by destruct (Conformation.setOfPoints a).
  - run_in H. rewrite bool_decide_eq_false_2; [done|].
    intros Hnd. apply Hs in Hnd as [? [=]].
Qed.

Lemma calcValidity_total (c : Conformation.t) (w : World) :
  2 <= Conformation.length c ->
  Conformation.length c - 2 <= length (Conformation.encoding c) ->
  exists c' w', Conformation.calcValidity c w = Ok (c', w').
Proof.
  intros Hn Henc.
  destruct (calcAbsolutePositions_total c Hn Henc) as (pos & Hrun & _).
  unfold Conformation.calcValidity, bind, lift. rewrite Hrun.
  destruct (Conformation.scan _ ∅); eauto.
Qed.

(** C3: [calcValidity] recomputes the [length] positions and sets the flag to
    true exactly when no two residues, adjacent in the chain or not, share a
    lattice cell. *)
Theorem calcValidity_exact (c : Conformation.t) (w : World) :
  2 <= Conformation.length c ->
  Conformation.length c - 2 <= length (Conformation.encoding c) ->
  exists c' w',
    Conformation.calcValidity c w = Ok (c', w')
    /\ Conformation.calcAbsolutePositions c
       = Ok (Conformation.set_absPositions (Conformation.absPositions c') c)
    /\ length (Conformation.absPositions c') = Conformation.length c
    /\ (Conformation.validState c' = true <->
        forall (i j : nat) (p q : Z * Z),
          i <> j ->
          Conformation.absPositions c' !! i = Some p ->
          Conformation.absPositions c' !! j = Some q ->
          p <> q).
Proof.
  intros Hn Henc.
  destruct (calcValidity_total c w Hn Henc) as (c' & w' & Hrun).
  exists c', w'. split; [done|].
  apply calcValidity_Ok in Hrun as (c1 & Hpos & -> & _).
  destruct (calcAbsolutePositions_total c Hn Henc) as (pos & Hpos' & Hl).
  rewrite Hpos' in Hpos. injection Hpos as <-. simpl.
  split; [done|]. split; [done|].
  rewrite bool_decide_eq_true, NoDup_alt. split.
  - intros Hnd i j p q Hij Hi Hj ->. apply Hij. by eapply Hnd.
  - intros Hd i j p Hi Hj. destruct (decide (i = j)) as [|Hij]; [done|].
    exfalso. by apply (Hd i j p p Hij).
Qed.

(** *** Contact energy *)

Lemma touching_manhattan (a b : Z * Z) :
  Conformation.touching a b = (manhattan a b =? 1)%Z.
Proof.
  unfold Conformation.touching, manhattan.
  destruct (Z.eqb_spec (Z.abs (a.1 - b.1)) 1), (Z.eqb_spec (Z.abs (a.2 - b.2)) 0),
    (Z.eqb_spec (Z.abs (a.1 - b.1)) 0), (Z.eqb_spec (Z.abs (a.2 - b.2)) 1),
    (Z.eqb_spec (Z.abs (a.1 - b.1) + Z.abs (a.2 - b.2)) 1); simpl; try reflexivity; lia.
Qed.

Lemma get_lt (s : string) :
  forall i : nat, i < String.length s -> is_Some (String.get i s).
Proof.
  induction s as [|a s IH]; intros i Hi; simpl in *; [lia|].
  destruct i; [eauto|]. apply IH. lia.
Qed.

Lemma protein_getNth_hydrophobic (c : Conformation.t) (p : Protein) (i : nat) :
  Conformation.protein c = Some p ->
  i < getLength p ->
  exists a, Conformation.protein_getNth c i = Ok a
            /\ Conformation.is_B a = hydrophobic p i.
Proof.
  intros Hp Hi. unfold Conformation.protein_getNth, getNth, hydrophobic. rewrite Hp.
  destruct (get_lt (sequence p) i Hi) as [a Ha]. rewrite Ha.
  exists a. split; [done|]. unfold Conformation.is_B.
  destruct (Ascii.eqb_spec a "B"%char) as [->|Hne].
  - by rewrite bool_decide_eq_true_2.
  - rewrite bool_decide_eq_false_2; [done|]. congruence.
Qed.

Lemma nth_position_Ok (c : Conformation.t) (i : nat) :
  i < length (Conformation.absPositions c) ->
  Conformation.nth_position c i = Ok (position (Conformation.absPositions c) i).
Proof.
  intros Hi. unfold Conformation.nth_position, position.
  destruct (lookup_lt_is_Some_2 _ _ Hi) as [v ->]. done.
Qed.

(** The inner loop subtracts one per hydrophobic [j] touching [ori]. *)
Lemma fitness_inner_count (c : Conformation.t) (p : Protein) (ori : Z * Z) (js : list nat) :
  Conformation.protein c = Some p ->
  (forall j, j ∈ js -> j < getLength p /\ j < length (Conformation.absPositions c)) ->
  forall fit : Z,
    Conformation.fitness_inner c ori js fit
    = Ok (fit - Z.of_nat (length (List.filter
            (fun j => hydrophobic p j
                      && (manhattan ori (position (Conformation.absPositions c) j) =? 1)%Z)
            js)))%Z.
Proof.
  intros Hp. induction js as [|j js IH]; intros Hjs fit.
  - simpl. f_equal. lia.
  - destruct (Hjs j) as [Hj1 Hj2]; [left|].
    assert (Hjs' : forall j', j' ∈ js ->
              j' < getLength p /\ j' < length (Conformation.absPositions c))
      by (intros j' Hj'; apply Hjs; by right).
    destruct (protein_getNth_hydrophobic c p j Hp Hj1) as (a & Ha & Hab).
    cbn [Conformation.fitness_inner List.filter]. rewrite Ha. cbn [rbind].
    rewrite Hab. destruct (hydrophobic p j); cbn [andb].
    + rewrite nth_position_Ok by done. cbn [rbind].
      rewrite touching_manhattan.
      destruct (manhattan ori (position (Conformation.absPositions c) j) =? 1)%Z.
      * rewrite IH by done. cbn [length]. f_equal. lia.
      * by rewrite IH.
    + by rewrite IH.
Qed.

Lemma filter_none {A} (f : A -> bool) (l : list A) :
  (forall x, In x l -> f x = false) -> List.filter f l = [].
Proof.
  induction l as [|x l IH]; intros H; simpl; [done|].
  rewrite (H x) by (by left). apply IH. intros y Hy. apply H. by right.
Qed.

Lemma filter_ext_in' {A} (f g : A -> bool) (l : list A) :
  (forall x, In x l -> f x = g x) -> List.filter f l = List.filter g l.
Proof.
  induction l as [|x l IH]; intros H; simpl; [done|].
  rewrite (H x) by (by left). rewrite IH; [done|]. intros y Hy. apply H. by right.
Qed.

(** Row [i] of the pair table, cut down to the [j]s the inner loop visits. *)
Lemma contact_row (p : Protein) (pos : list (Z * Z)) (i n : nat) :
  List.filter (fun j => is_contact p pos (i, j)) (seq 0 n)
  = if hydrophobic p i
    then List.filter (fun j => hydrophobic p j
                               && (manhattan (position pos i) (position pos j) =? 1)%Z)
           (seq (i + 2) (n - (i + 2)))
    else [].
Proof.
  destruct (hydrophobic p i) eqn:Hi.
  - destruct (Nat.le_gt_cases (i + 2) n) as [Hle|Hgt].
    + replace n with ((i + 2) + (n - (i + 2))) at 1 by lia.
      rewrite seq_app, List.filter_app. cbn [Nat.add].
      rewrite filter_none.
      * cbn [app]. apply filter_ext_in'. intros j Hj. apply in_seq in Hj.
        unfold is_contact. cbn [fst snd]. rewrite Hi.
        destruct (Nat.leb_spec (i + 2) j); [done | lia].
      * intros j Hj. apply in_seq in Hj. unfold is_contact. cbn [fst snd].
        destruct (Nat.leb_spec (i + 2) j); [lia | done].
    + replace (n - (i + 2)) with 0 by lia. cbn [seq List.filter].
      apply filter_none. intros j Hj. apply in_seq in Hj. unfold is_contact. cbn [fst snd].
      destruct (Nat.leb_spec (i + 2) j); [lia | done].
  - apply filter_none. intros j _. unfold is_contact. cbn [fst snd]. rewrite Hi.
    by rewrite andb_false_r.
Qed.

Lemma filter_pair_row {B} (f : nat * B -> bool) (i : nat) (l : list B) :
  length (List.filter f (map (pair i) l)) = length (List.filter (fun j => f (i, j)) l).
Proof.
  induction l as [|x l IH]; simpl; [done|].
  destruct (f (i, x)); simpl; by rewrite IH.
Qed.

(** The outer loop subtracts the number of contacts in the rows it visits. *)
Lemma fitness_outer_count (c : Conformation.t) (p : Protein) (todo : list nat) :
  Conformation.protein c = Some p ->
  getLength p = Conformation.length c ->
  length (Conformation.absPositions c) = Conformation.length c ->
  (forall i, i ∈ todo -> i < Conformation.length c) ->
  forall fit : Z,
    Conformation.fitness_outer c todo fit
    = Ok (fit - Z.of_nat (length (List.filter (is_contact p (Conformation.absPositions c))
                                    (list_prod todo (seq 0 (Conformation.length c))))))%Z.
Proof.
  intros Hp Hlen Hpos. induction todo as [|i todo IH]; intros Htodo fit.
  - simpl. f_equal. lia.
  - assert (Hi : i < Conformation.length c) by (apply Htodo; left).
    assert (Htodo' : forall i', i' ∈ todo -> i' < Conformation.length c)
      by (intros i' Hi'; apply Htodo; by right).
    cbn [Conformation.fitness_outer list_prod].
    rewrite List.filter_app, length_app, filter_pair_row, contact_row.
    destruct (protein_getNth_hydrophobic c p i Hp) as (a & Ha & Hab); [lia|].
    rewrite Ha. cbn [rbind]. rewrite Hab.
    destruct (hydrophobic p i).
    + rewrite nth_position_Ok by lia. cbn [rbind].
      rewrite (fitness_inner_count c p _ _ Hp).
      * cbn [rbind]. rewrite IH by done. f_equal. lia.
      * intros j Hj. apply list_elem_of_In, in_seq in Hj. lia.
    + rewrite IH by done. done.
Qed.

Lemma NoDup_list_prod {A B} (l1 : list A) (l2 : list B) :
  NoDup l1 -> NoDup l2 -> NoDup (list_prod l1 l2).
Proof.
  intros H1 H2. induction H1 as [|a l1 Ha H1 IH]; simpl; [constructor|].
  apply NoDup_app. split; [|split; [|done]].
  - apply (NoDup_fmap_2 (pair a)). done.
  - intros [a' b] Hin Hin'. apply list_elem_of_fmap in Hin as (b' & [= -> ->] & _).
    apply list_elem_of_In, in_prod_iff in Hin' as [Hin' _].
    by apply Ha, list_elem_of_In.
Qed.

(** C1: on a conformation whose position list has its [length] entries,
    [calcFitness] stores minus the number of pairs [(i, j)], [j >= i + 2], of
    hydrophobic residues at Manhattan distance 1 (and counts one evaluation);
    the fitness is never positive, and both residues of every counted pair
    are hydrophobic. *)
Theorem calcFitness_counts_contacts (c : Conformation.t) (p : Protein) (w : World) :
  Conformation.protein c = Some p ->
  getLength p = Conformation.length c ->
  length (Conformation.absPositions c) = Conformation.length c ->
  let pairs := contacts p (Conformation.absPositions c) (Conformation.length c) in
  Conformation.calcFitness c w
  = Ok (Conformation.set_fitness (- Z.of_nat (length pairs)) c,
        mkWorld (tape w) (energyEvalSteps w + 1) (collisionSet w))
  /\ (- Z.of_nat (length pairs) <= 0)%Z
  /\ (forall i j : nat,
        In (i, j) pairs <->
        (i + 2 <= j < Conformation.length c
         /\ String.get i (sequence p) = Some "B"%char
         /\ String.get j (sequence p) = Some "B"%char
         /\ manhattan (position (Conformation.absPositions c) i)
                      (position (Conformation.absPositions c) j) = 1%Z))
  /\ List.NoDup pairs.
Proof.
  intros Hp Hlen Hpos pairs. split; [|split; [lia|split]].
  - unfold Conformation.calcFitness.
    rewrite (fitness_outer_count c p _ Hp Hlen Hpos).
    + reflexivity.
    + intros i Hi. apply list_elem_of_In, in_seq in Hi. lia.
  - intros i j. unfold pairs, contacts. rewrite filter_In, in_prod_iff, !in_seq.
    unfold is_contact, hydrophobic. cbn [fst snd].
    rewrite !andb_true_iff, !bool_decide_eq_true, Nat.leb_le, Z.eqb_eq.
    intuition lia.
  - apply List.NoDup_filter, NoDup_ListNoDup, NoDup_list_prod; apply NoDup_seq.
Qed.

(** *** Single-point crossover *)

Lemma copy_loop_range (src : list Z) (n : nat) :
  forall (k : nat) (dst : list Z),
    k + n <= length src ->
    k + n <= length dst ->
    Conformation.copy_loop src (seq k n) dst
    = Ok (take k dst ++ take n (drop k src) ++ drop (k + n) dst).
Proof.
  induction n as [|n IH]; intros k dst Hsrc Hdst.
  - simpl. rewrite Nat.add_0_r. by rewrite take_drop.
  - cbn [seq Conformation.copy_loop].
    destruct (lookup_lt_is_Some_2 src k) as [v Hv]; [lia|].
    unfold Conformation.load, Conformation.store. rewrite Hv. cbn [rbind].
    destruct (Nat.ltb_spec k (length dst)); [|lia]. cbn [rbind].
    rewrite IH by (rewrite ?length_insert; lia).
    f_equal.
    rewrite (take_S_r _ _ v) by (apply list_lookup_insert_eq; lia).
    rewrite take_insert_ge by lia.
    rewrite drop_insert_lt by lia.
    rewrite (drop_S src v k Hv). cbn [take].
    rewrite <- app_assoc. cbn [app].
    by replace (S k + n) with (k + S n) by lia.
Qed.

Lemma crossover_encoding (e1 e2 : list Z) (m k : nat) :
  k <= m -> length e1 = m -> length e2 = m ->
  exists enc1,
    Conformation.copy_loop e1 (seq 0 k) (replicate m 0%Z) = Ok enc1
    /\ Conformation.copy_loop e2 (seq k (m - k)) enc1 = Ok (take k e1 ++ drop k e2).
Proof.
  intros Hk H1 H2.
  assert (Hl : length (take k e1 ++ drop k (replicate m 0%Z)) = m)
    by (rewrite length_app, length_take, length_drop, length_replicate; lia).
  exists (take k e1 ++ drop k (replicate m 0%Z)). split.
  - rewrite copy_loop_range by (rewrite ?length_replicate; lia).
    by rewrite take_0, drop_0.
  - rewrite copy_loop_range by lia. f_equal.
    rewrite take_app_length' by (rewrite length_take; lia).
    rewrite (drop_ge _ (k + (m - k))) by lia.
    rewrite app_nil_r. f_equal. apply take_ge. rewrite length_drop. lia.
Qed.

Lemma crossover_at_child (k : nat) (p1 p2 : Conformation.t) (sp : bool) (w : World) :
  2 <= Conformation.length p1 ->
  k <= Conformation.length p1 - 2 ->
  length (Conformation.encoding p1) = Conformation.length p1 - 2 ->
  length (Conformation.encoding p2) = Conformation.length p1 - 2 ->
  exists child w',
    Conformation.crossover_at k p1 p2 sp w = Ok (child, w')
    /\ Conformation.encoding child
       = take k (Conformation.encoding p1) ++ drop k (Conformation.encoding p2)
    /\ Conformation.length child = Conformation.length p1
    /\ Conformation.generation child
       = ((Conformation.generation p1 + Conformation.generation p2) / 2 + 1)%Z
    /\ Conformation.protein child = Conformation.protein p1
    /\ Conformation.setOfPoints child = sp
    /\ tape w' = tape w.
Proof.
  intros Hn Hk H1 H2.
  destruct (crossover_encoding _ _ _ k Hk H1 H2) as (enc1 & Hc1 & Hc2).
  unfold Conformation.crossover_at, bind, lift. rewrite Hc1, Hc2.
  destruct sp.
  - match goal with |- context [Conformation.calcValidity ?c w] =>
      destruct (calcValidity_total c w) as (c' & w' & Hrun); cbn [Conformation.length Conformation.encoding];
      [lia | rewrite length_app, length_take, length_drop; lia |]
    end.
    exists c', w'. split; [done|].
    apply calcValidity_Ok in Hrun as (c1 & Hpos & -> & Ht & _).
    unfold Conformation.calcAbsolutePositions in Hpos.
    repeat match type of Hpos with
      | (if ?b then _ else _) = _ => destruct b; [discriminate|]
      end.
    apply rbind_Ok in Hpos as (pos & _ & [= <-]). by repeat split.
  - eexists _, _. split; [reflexivity|]. by repeat split.
Qed.

Lemma draw_breakpoint_Ok (n : nat) (w : World) :
  exists k w',
    Conformation.draw_breakpoint n w = Ok (k, w')
    /\ k = (if 0 <? n - 2 then N.to_nat (tape w 0) mod (n - 2) else 0)
    /\ k <= n - 3.
Proof.
  unfold Conformation.draw_breakpoint.
  destruct (Nat.ltb_spec 0 (n - 2)) as [Hn|Hn].
  - eexists _, _. split; [reflexivity|].
    assert (Hk : Z.to_nat (0 + Z.of_N (tape w 0) mod (Z.of_nat n - 3 - 0 + 1))
                 = N.to_nat (tape w 0) mod (n - 2)).
    { replace (Z.of_nat n - 3 - 0 + 1)%Z with (Z.of_nat (n - 2)) by lia.
      rewrite <- (N_nat_Z (tape w 0)), Z.add_0_l, <- Nat2Z.inj_mod.
      apply Nat2Z.id. }
    split; [exact Hk|]. rewrite Hk.
    pose proof (Nat.mod_upper_bound (N.to_nat (tape w 0)) (n - 2)). lia.
  - eexists _, _. split; [reflexivity|]. split; [done | lia].
Qed.

(** C5: for parents of common residue count [n] (at least 2, with encodings
    of [n - 2] loci), [crossover] draws one breakpoint [k], the raw draw
    reduced modulo [n - 2], hence in [0, n - 3] with every value of that
    range drawn (and [k = 0] without drawing when [n - 2 <= 0]), and returns
    one child: its encoding has [n - 2] loci,
    those of the first parent below [k] followed by those of the second from
    [k] on, and its generation is [floor ((gA + gB) / 2) + 1].  With the
    parents exchanged and the same breakpoint the child is the complementary
    one, with the same generation and residue count. *)
Theorem crossover_single_point (A B : Conformation.t) (n : nat) (sp : bool) (w : World) :
  2 <= n ->
  Conformation.length A = n ->
  Conformation.length B = n ->
  length (Conformation.encoding A) = n - 2 ->
  length (Conformation.encoding B) = n - 2 ->
  exists (k : nat) (w1 : World) (child : Conformation.t) (w2 : World)
         (child' : Conformation.t) (w2' : World),
    Conformation.draw_breakpoint n w = Ok (k, w1)
    /\ k = (if 0 <? n - 2 then N.to_nat (tape w 0) mod (n - 2) else 0)
    /\ k <= n - 3
    /\ (forall k0 : nat, 0 < n - 2 -> k0 <= n - 3 -> tape w 0 = N.of_nat k0 -> k = k0)
    /\ Conformation.crossover A B sp w = Ok (child, w2)
    /\ Conformation.crossover_at k A B sp w1 = Ok (child, w2)
    /\ Conformation.encoding child
       = take k (Conformation.encoding A) ++ drop k (Conformation.encoding B)
    /\ length (Conformation.encoding child) = n - 2
    /\ Conformation.length child = n
    /\ Conformation.generation child
       = ((Conformation.generation A + Conformation.generation B) / 2 + 1)%Z
    /\ Conformation.crossover_at k B A sp w1 = Ok (child', w2')
    /\ Conformation.encoding child'
       = take k (Conformation.encoding B) ++ drop k (Conformation.encoding A)
    /\ Conformation.generation child' = Conformation.generation child
    /\ Conformation.length child' = n.
Proof.
  intros Hn HA HB HeA HeB.
  destruct (draw_breakpoint_Ok n w) as (k & w1 & Hdraw & Hk & Hle).
  destruct (crossover_at_child k A B sp w1) as (child & w2 & Hc & He & Hl & Hg & _);
    [lia..|].
  destruct (crossover_at_child k B A sp w1) as (child' & w2' & Hc' & He' & Hl' & Hg' & _);
    [lia..|].
  exists k, w1, child, w2, child', w2'.
  split_and!; try done; try lia.
  - intros k0 Hpos Hk0 Htape. rewrite Hk, Htape, Nat2N.id.
    destruct (Nat.ltb_spec 0 (n - 2)); [|lia]. apply Nat.mod_small. lia.
  - unfold Conformation.crossover, bind. rewrite HA, Hdraw. exact Hc.
  - rewrite He, length_app, length_take, length_drop. lia.
  - rewrite Hg, Hg'. do 2 f_equal. lia.
Qed.

(** *** Tournament selection *)

Lemma sample_from_subset {A} (k : nat) :
  forall (pool l : list A) (w w' : World),
    sample_from pool k w = Ok (l, w') -> forall x, x ∈ l -> x ∈ pool.
Proof.
  induction k as [|k IH]; intros pool l w w' H x Hx; cbn [sample_from] in H.
  - run_in H. inversion Hx.
  - run_in H. destruct (pool !! _) as [a0|] eqn:Ha.
    + run_in H. apply elem_of_cons in Hx as [->|Hx].
      * by eapply list_elem_of_lookup_2.
      * eapply IH in Hrun0; [|exact Hx].
        eapply elem_of_sublist; [exact Hrun0 | apply sublist_delete].
    + run_in H. inversion Hx.
Qed.

Lemma sample_from_distinct {A} (k : nat) :
  forall (pool : list A) (w : World),
    k <= length pool ->
    NoDup pool ->
    exists l w', sample_from pool k w = Ok (l, w') /\ length l = k /\ NoDup l.
Proof.
  induction k as [|k IH]; intros pool w Hk Hnd; cbn [sample_from].
  - eexists _, _. split; [reflexivity|]. split; [done | constructor].
  - unfold bind at 1. unfold draw at 1.
    set (j := N.to_nat (tape w 0) mod length pool).
    assert (Hj : j < length pool) by (apply Nat.mod_upper_bound; lia).
    destruct (lookup_lt_is_Some_2 pool j Hj) as [a Ha]. rewrite Ha.
    set (w1 := mkWorld _ _ _).
    destruct (IH (delete j pool) w1) as (l & w' & Hrun & Hl & Hndl).
    + rewrite length_delete by eauto. lia.
    + eapply sublist_NoDup; [exact Hnd | apply sublist_delete].
    + exists (a :: l), w'. unfold bind. rewrite Hrun. split; [done|].
      split; [simpl; lia|]. constructor; [|done].
      intros Hin. eapply sample_from_subset in Hrun; [|exact Hin].
      rewrite delete_take_drop in Hrun.
      rewrite <- (take_drop_middle pool j a Ha) in Hnd.
      apply NoDup_app in Hnd as (_ & Hd & Hnd').
      apply NoDup_cons in Hnd' as [Hnd' _].
      apply elem_of_app in Hrun as [Hin'|Hin']; [|done].
      apply (Hd a Hin'). left.
Qed.

(** Every selection without repetition is drawn on some tape. *)
Lemma sample_from_complete {A} (l : list A) :
  forall pool : list A,
    NoDup l ->
    (forall x, x ∈ l -> x ∈ pool) ->
    exists h : list N,
      forall w : World,
        (forall i n, h !! i = Some n -> tape w i = n) ->
        exists w', sample_from pool (length l) w = Ok (l, w').
Proof.
  induction l as [|x l IH]; intros pool Hnd Hsub.
  - exists []. intros w _. eexists. reflexivity.
  - apply NoDup_cons in Hnd as [Hx Hnd].
    destruct (list_elem_of_lookup_1 pool x) as [j Hj]; [apply Hsub; left|].
    pose proof (lookup_lt_Some _ _ _ Hj) as Hlt.
    destruct (IH (delete j pool) Hnd) as [h Hh].
    { intros y Hy. specialize (Hsub y ltac:(by right)).
      rewrite delete_take_drop.
      rewrite <- (take_drop_middle pool j x Hj) in Hsub.
      apply elem_of_app in Hsub as [Hin|Hin]; [apply elem_of_app; by left|].
      apply elem_of_cons in Hin as [->|Hin]; [done|].
      apply elem_of_app. by right. }
    exists (N.of_nat j :: h). intros w Hw.
    cbn [length sample_from]. unfold bind at 1. unfold draw at 1.
    rewrite (Hw 0 (N.of_nat j) eq_refl), Nat2N.id, Nat.mod_small by done.
    rewrite Hj. unfold bind.
    match goal with |- context [sample_from _ _ ?w1] =>
      destruct (Hh w1) as [w' Hrun]; [intros i n Hi; exact (Hw (S i) n Hi)|]
    end.
    exists w'. by rewrite Hrun.
Qed.

Lemma min_loop_spec (p : Population.t) (todo : list nat) :
  forall best : nat,
    Population.min_loop p todo best ∈ best :: todo
    /\ forall x, x ∈ best :: todo ->
         (Conformation.getFitness (Population.obj p (Population.min_loop p todo best))
          <= Conformation.getFitness (Population.obj p x))%Z.
Proof.
  induction todo as [|r todo IH]; intros best; cbn [Population.min_loop].
  - split; [left|]. intros x Hx. apply list_elem_of_singleton in Hx as ->. lia.
  - destruct (Z.ltb_spec (Conformation.getFitness (Population.obj p r))
                (Conformation.getFitness (Population.obj p best))) as [Hlt|Hge].
    + destruct (IH r) as [Hin Hmin]. split.
      * right. exact Hin.
      * intros x Hx. apply elem_of_cons in Hx as [->|Hx]; [|by apply Hmin].
        specialize (Hmin r ltac:(left)). lia.
    + destruct (IH best) as [Hin Hmin]. split.
      * apply elem_of_cons in Hin as [->|Hin]; [left | right; by right].
      * intros x Hx. apply elem_of_cons in Hx as [->|Hx]; [apply Hmin; left|].
        apply elem_of_cons in Hx as [->|Hx]; [|apply Hmin; by right].
        specialize (Hmin best ltac:(left)). lia.
Qed.

Lemma obj_lookup (p : Population.t) (r : nat) :
  r < length (Population.individuals p) ->
  Population.individuals p !! r = Some (Population.obj p r).
Proof.
  intros Hr. unfold Population.obj.
  destruct (lookup_lt_is_Some_2 _ _ Hr) as [c ->]. done.
Qed.

(** A reference returned by [tournamentSelect] is in range. *)
Lemma tournamentSelect_Ok (k : nat) (p : Population.t) (w w' : World) (r : nat) :
  Population.tournamentSelect k p w = Ok (r, w') ->
  r < length (Population.individuals p).
Proof.
  unfold Population.tournamentSelect. intros H. run_in H.
  destruct a as [|r0 rest]; [discriminate|]. run_in H.
  unfold sample in Hrun. destruct (_ <? _); [discriminate|].
  pose proof (sample_from_subset _ _ _ _ _ Hrun) as Hsub.
  destruct (min_loop_spec p rest r0) as [Hin _].
  apply Hsub, list_elem_of_In, in_seq in Hin. lia.
Qed.

(** C7: when the population has at least [tournament_size >= 1] members,
    [tournamentSelect] samples [tournament_size] distinct members and returns
    one of them whose fitness is lowest among the sampled ones; the object
    returned is held in [individuals].  Every selection of [tournament_size]
    distinct members is the sample on some draws. *)
Theorem tournamentSelect_best_of_sample (tournament_size : nat) (p : Population.t) (w : World) :
  1 <= tournament_size <= length (Population.individuals p) ->
  exists (participants : list nat) (r : nat) (w' : World),
    sample (seq 0 (length (Population.individuals p))) tournament_size w
    = Ok (participants, w')
    /\ Population.tournamentSelect tournament_size p w = Ok (r, w')
    /\ length participants = tournament_size
    /\ NoDup participants
    /\ (forall x, x ∈ participants -> x < length (Population.individuals p))
    /\ r ∈ participants
    /\ Population.individuals p !! r = Some (Population.obj p r)
    /\ (forall x, x ∈ participants ->
          (Conformation.getFitness (Population.obj p r)
           <= Conformation.getFitness (Population.obj p x))%Z)
    /\ (forall l : list nat,
          NoDup l -> length l = tournament_size ->
          (forall x, x ∈ l -> x < length (Population.individuals p)) ->
          exists (h : list N) (w1 : World),
            sample (seq 0 (length (Population.individuals p))) tournament_size (with_tape h w)
            = Ok (l, w1)).
Proof.
  intros [Hk1 Hk2].
  destruct (sample_from_distinct tournament_size (seq 0 (length (Population.individuals p))) w)
    as (l & w' & Hrun & Hl & Hnd); [by rewrite length_seq | apply NoDup_seq |].
  assert (Hs : sample (seq 0 (length (Population.individuals p))) tournament_size w
               = Ok (l, w')).
  { unfold sample. rewrite length_seq.
    destruct (Nat.ltb_spec (length (Population.individuals p)) tournament_size); [lia | done]. }
  assert (Hrange : forall x, x ∈ l -> x < length (Population.individuals p)).
  { intros x Hx. eapply sample_from_subset in Hrun; [|exact Hx].
    apply list_elem_of_In, in_seq in Hrun. lia. }
  destruct l as [|r0 rest]; [simpl in Hl; lia|].
  destruct (min_loop_spec p rest r0) as [Hin Hmin].
  exists (r0 :: rest), (Population.min_loop p rest r0), w'.
  split; [done|]. split.
  { unfold Population.tournamentSelect, bind. by rewrite Hs. }
  split_and!; try done.
  - apply obj_lookup, Hrange, Hin.
  - intros l Hndl Hll Hlr.
    destruct (sample_from_complete l (seq 0 (length (Population.individuals p))) Hndl)
      as [h Hh].
    { intros x Hx. apply list_elem_of_In, in_seq. specialize (Hlr x Hx). lia. }
    destruct (Hh (with_tape h w)) as [w1 Hw1].
    { intros i n Hi. cbn. unfold tape_of. by apply nth_lookup_Some. }
    exists h, w1. unfold sample. rewrite length_seq.
    destruct (Nat.ltb_spec (length (Population.individuals p)) tournament_size); [lia|].
    by rewrite <- Hll.
Qed.

(** *** What the operators of a conformation leave alone *)

Lemma calcAbsolutePositions_Ok (c c1 : Conformation.t) :
  Conformation.calcAbsolutePositions c = Ok c1 ->
  exists pos, c1 = Conformation.set_absPositions pos c.
Proof.
  unfold Conformation.calcAbsolutePositions. intros H.
  repeat match type of H with
    | (if ?b then _ else _) = _ => destruct b; [discriminate|]
    end.
  apply rbind_Ok in H as (pos & _ & [= <-]). eauto.
Qed.

Lemma calcValidity_self_avoiding (c c' : Conformation.t) (w w' : World) :
  Conformation.calcValidity c w = Ok (c', w') ->
  Conformation.encoding c' = Conformation.encoding c
  /\ (Conformation.validState c' = true -> self_avoiding c').
Proof.
  intros H. apply calcValidity_Ok in H as (c1 & Hpos & -> & _).
  apply calcAbsolutePositions_Ok in Hpos as (pos & ->).
  split; [done|]. unfold self_avoiding. cbn.
  intros Hv. split; [done|]. by apply bool_decide_eq_true in Hv.
Qed.

Lemma fitness_inner_le (c : Conformation.t) (ori : Z * Z) (js : list nat) :
  forall fit f : Z, Conformation.fitness_inner c ori js fit = Ok f -> (f <= fit)%Z.
Proof.
  induction js as [|j js IH]; intros fit f H; cbn [Conformation.fitness_inner] in H.
  - injection H as <-. lia.
  - apply rbind_Ok in H as (b & _ & H). destruct (Conformation.is_B b).
    + apply rbind_Ok in H as (dest & _ & H).
      destruct (Conformation.touching ori dest); apply IH in H; lia.
    + by apply IH.
Qed.

Lemma fitness_outer_le (c : Conformation.t) (todo : list nat) :
  forall fit f : Z, Conformation.fitness_outer c todo fit = Ok f -> (f <= fit)%Z.
Proof.
  induction todo as [|i todo IH]; intros fit f H; cbn [Conformation.fitness_outer] in H.
  - injection H as <-. lia.
  - apply rbind_Ok in H as (a & _ & H). destruct (Conformation.is_B a).
    + apply rbind_Ok in H as (ori & _ & H). apply rbind_Ok in H as (fit' & Hin & H).
      apply fitness_inner_le in Hin. apply IH in H. lia.
    + by apply IH.
Qed.

Lemma calcFitness_Ok (c c' : Conformation.t) (w w' : World) :
  Conformation.calcFitness c w = Ok (c', w') ->
  exists f : Z, c' = Conformation.set_fitness f c /\ (f <= 0)%Z.
Proof.
  unfold Conformation.calcFitness. intros H.
  destruct (Conformation.fitness_outer c _ 0) as [f| |] eqn:Hf; try discriminate.
  injection H as <- <-. exists f. split; [done|]. by apply fitness_outer_le in Hf.
Qed.

Lemma repair_Ok (fuel : nat) :
  forall (c c' : Conformation.t) (w w' : World),
    Conformation.repair fuel c w = Ok (c', w') ->
    (Conformation.validState c = true -> self_avoiding c) ->
    self_avoiding c'.
Proof.
  induction fuel as [|fuel IH]; intros c c' w w' H Hc; cbn [Conformation.repair] in H.
  - destruct (Conformation.validState c) eqn:Hv; [|discriminate].
    run_in H. by apply Hc.
  - destruct (Conformation.validState c) eqn:Hv.
    + run_in H. by apply Hc.
    + run_in H. eapply IH; [exact H|].
      by apply calcValidity_self_avoiding in Hrun0 as [_ ?].
Qed.

Lemma Conformation_init_Ok (fuel : nat) (prot : Protein) (c : Conformation.t) (w w' : World) :
  Conformation.__init__ fuel (Some prot) true w = Ok (c, w') -> self_avoiding c.
Proof.
  unfold Conformation.__init__, Conformation.generateRandomConformation.
  intros H. run_in H. eapply repair_Ok; [exact H|].
  by apply calcValidity_self_avoiding in Hrun0 as [_ ?].
Qed.

(** *** Replacement in place *)

Lemma NoDup_insert_fresh {A} (l : list A) (i : nat) (y : A) :
  NoDup l -> y ∉ l -> NoDup (<[i := y]> l).
Proof.
  intros Hnd Hy. destruct (decide (i < length l)) as [Hi|Hi].
  - destruct (lookup_lt_is_Some_2 l i Hi) as [x Hx].
    rewrite insert_take_drop by done.
    rewrite <- (take_drop_middle l i x Hx) in Hnd, Hy.
    apply NoDup_app in Hnd as (H1 & H2 & H3). apply NoDup_cons in H3 as [H3 H4].
    apply NoDup_app. split; [done|]. split.
    + intros z Hz Hz'. apply elem_of_cons in Hz' as [->|Hz'].
      * apply Hy, elem_of_app. by left.
      * apply (H2 z Hz). by right.
    + apply NoDup_cons. split; [|done].
      intros Hin. apply Hy, elem_of_app. right. by right.
  - rewrite list_insert_ge by lia. done.
Qed.

Lemma elem_of_insert_inv {A} (l : list A) (i : nat) (y x : A) :
  x ∈ <[i := y]> l -> x = y \/ x ∈ l.
Proof.
  intros Hx. apply list_elem_of_lookup in Hx as [j Hj].
  destruct (decide (i = j)) as [->|Hne].
  - destruct (decide (j < length l)).
    + rewrite list_lookup_insert_eq in Hj by done. left. congruence.
    + rewrite list_insert_ge in Hj by lia. right. by eapply list_elem_of_lookup_2.
  - rewrite list_lookup_insert_ne in Hj by done. right. by eapply list_elem_of_lookup_2.
Qed.

(** The four ways a replacement attempt can end. *)
Lemma place_cases (child : Conformation.t) (owner other : nat) (p : Population.t) :
  let s := Conformation.getConformationString child in
  let p1 := Population.set_setOfConformations (Population.setOfConformations p ∪ {[s]}) p in
  (s ∈ Population.setOfConformations p /\ Population.place child owner other p = p)
  \/ ((s ∉ Population.setOfConformations p)
      /\ (Conformation.fitness child < Conformation.fitness (Population.obj p owner))%Z
      /\ Population.place child owner other p = Population.overwrite owner child p1)
  \/ ((s ∉ Population.setOfConformations p)
      /\ (Conformation.fitness (Population.obj p owner) <= Conformation.fitness child)%Z
      /\ (Conformation.fitness child < Conformation.fitness (Population.obj p other))%Z
      /\ Population.place child owner other p = Population.overwrite other child p1)
  \/ ((s ∉ Population.setOfConformations p)
      /\ (Conformation.fitness (Population.obj p owner) <= Conformation.fitness child)%Z
      /\ (Conformation.fitness (Population.obj p other) <= Conformation.fitness child)%Z
      /\ Population.place child owner other p = p1).
Proof.
  intros s p1. unfold Population.place, Population.isInsertable. fold s.
  destruct (decide (s ∈ Population.setOfConformations p)) as [Hin|Hnin]; [by left|].
  right. fold p1.
  change (Population.obj p1) with (Population.obj p).
  unfold Conformation.getFitness.
  destruct (Z.ltb_spec (Conformation.fitness child)
              (Conformation.fitness (Population.obj p owner))); [by left|].
  right.
  destruct (Z.ltb_spec (Conformation.fitness child)
              (Conformation.fitness (Population.obj p other))); [by left | by right].
Qed.

Lemma refines_refl (r1 r2 : nat) (p : Population.t) : refines r1 r2 p p.
Proof. unfold refines. split_and!; done. Qed.

Lemma refines_sym (r1 r2 : nat) (p p' : Population.t) :
  refines r1 r2 p p' -> refines r2 r1 p p'.
Proof.
  unfold refines. intros (H1 & H2 & H3 & H4 & H5 & H6 & H7).
  split_and!; try done. intros i Hi1 Hi2. by apply H5.
Qed.

Lemma refines_trans (r1 r2 : nat) (p p' p'' : Population.t) :
  refines r1 r2 p p' -> refines r1 r2 p' p'' -> refines r1 r2 p p''.
Proof.
  unfold refines.
  intros (H1 & H2 & H3 & H4 & H5 & H6 & H7) (G1 & G2 & G3 & G4 & G5 & G6 & G7).
  split; [congruence|]. split; [congruence|]. split; [congruence|].
  split; [set_solver|]. split; [|split].
  - intros i Hi1 Hi2. rewrite G5, H5; done.
  - intros i. specialize (H6 i). specialize (G6 i). lia.
  - auto.
Qed.

Lemma admissible_fields (p p' : Population.t) :
  Population.individuals p' = Population.individuals p ->
  Population.setOfConformations p' = Population.setOfConformations p ->
  Population.size p' = Population.size p ->
  admissible p -> admissible p'.
Proof.
  intros Hi Hs Hz [H1 H2 H3 H4]. unfold encoding_strings in *.
  constructor; unfold encoding_strings; rewrite ?Hi, ?Hs, ?Hz; done.
Qed.

Lemma index_grows_refines (r1 r2 : nat) (s : string) (p : Population.t) :
  refines r1 r2 p
    (Population.set_setOfConformations (Population.setOfConformations p ∪ {[s]}) p).
Proof.
  unfold refines. cbn. split_and!; try done.
  - set_solver.
  - intros [H1 H2 H3 H4]. constructor; try done.
    cbn. intros s' Hs'. apply H4 in Hs'. set_solver.
Qed.

Lemma overwrite_refines (r r1 r2 : nat) (child : Conformation.t) (p : Population.t) :
  r = r1 \/ r = r2 ->
  self_avoiding child ->
  Conformation.getConformationString child ∉ Population.setOfConformations p ->
  (Conformation.fitness child < Conformation.fitness (Population.obj p r))%Z ->
  refines r1 r2 p
    (Population.overwrite r child
       (Population.set_setOfConformations
          (Population.setOfConformations p
           ∪ {[Conformation.getConformationString child]}) p)).
Proof.
  intros Hr Hsa Hfresh Hfit. unfold refines, Population.overwrite. cbn.
  split_and!; try done.
  - by rewrite length_insert.
  - set_solver.
  - intros i Hi1 Hi2. unfold Population.obj. cbn.
    rewrite list_lookup_insert_ne; [done|]. destruct Hr; congruence.
  - intros i. unfold Population.obj in *. cbn.
    destruct (decide (i = r)) as [->|Hne].
    + destruct (decide (r < length (Population.individuals p))).
      * rewrite list_lookup_insert_eq by done. cbn. lia.
      * rewrite list_insert_ge by lia. lia.
    + rewrite list_lookup_insert_ne by done. lia.
  - intros [H1 H2 H3 H4]. constructor; unfold encoding_strings in *; cbn.
    + by rewrite length_insert.
    + intros c Hc. apply elem_of_insert_inv in Hc as [->|Hc]; [|by apply H2].
      split; [done|].
      destruct (decide (r < length (Population.individuals p))) as [Hlt|Hge].
      * pose proof (obj_lookup p r Hlt) as Hl.
        apply list_elem_of_lookup_2, H2 in Hl as [_ Hl]. lia.
      * unfold Population.obj in Hfit. rewrite lookup_ge_None_2 in Hfit by lia.
        cbn in Hfit. lia.
    + rewrite list_fmap_insert. apply NoDup_insert_fresh; [done|].
      intros Hin. by apply Hfresh, H4.
    + rewrite list_fmap_insert. intros s Hs.
      apply elem_of_insert_inv in Hs as [->|Hs]; [set_solver|].
      apply H4 in Hs. set_solver.
Qed.

Lemma place_refines (child : Conformation.t) (owner other : nat) (p : Population.t) :
  self_avoiding child ->
  refines owner other p (Population.place child owner other p).
Proof.
  intros Hsa.
  destruct (place_cases child owner other p)
    as [[_ ->]|[(Hs & Hf & ->)|[(Hs & _ & Hf & ->)|(Hs & _ & _ & ->)]]].
  - apply refines_refl.
  - apply overwrite_refines; auto.
  - apply overwrite_refines; auto.
  - apply index_grows_refines.
Qed.

Lemma offspring_refines (child : Conformation.t) (owner other : nat)
    (p p' : Population.t) (w w' : World) :
  Population.offspring child owner other p w = Ok (p', w') ->
  refines owner other p p'.
Proof.
  unfold Population.offspring. intros H. run_in H.
  unfold Conformation.isValid in H.
  destruct (Conformation.validState a0) eqn:Hv.
  - run_in H. apply place_refines.
    apply calcValidity_self_avoiding in Hrun0 as [_ Hsa]. specialize (Hsa Hv).
    apply calcFitness_Ok in Hrun1 as (f & -> & _). exact Hsa.
  - run_in H. apply refines_refl.
Qed.

Lemma refresh_fittest_spec (r1 r2 : nat) (p : Population.t) :
  exists t : nat,
    Population.refresh_fittest r1 r2 p = Population.set_theFittest t p
    /\ (t = Population.theFittest p \/ t = r1 \/ t = r2)
    /\ (Conformation.fitness (Population.obj p t)
        <= Conformation.fitness (Population.obj p (Population.theFittest p)))%Z
    /\ (Conformation.fitness (Population.obj p t) <= Conformation.fitness (Population.obj p r1))%Z
    /\ (Conformation.fitness (Population.obj p t) <= Conformation.fitness (Population.obj p r2))%Z.
Proof.
  unfold Population.refresh_fittest, Population.getFittest, Conformation.getFitness.
  destruct p as [q1 q2 mp cp pr sz idx inds tf].
  unfold Population.obj, Population.set_theFittest; cbn.
  destruct (Z.ltb_spec (Conformation.fitness (default Conformation.blank (inds !! r1)))
              (Conformation.fitness (default Conformation.blank (inds !! tf)))); cbn.
  - destruct (Z.ltb_spec (Conformation.fitness (default Conformation.blank (inds !! r2)))
                (Conformation.fitness (default Conformation.blank (inds !! r1)))); cbn.
    + exists r2. split_and!; auto; lia.
    + exists r1. split_and!; auto; lia.
  - destruct (Z.ltb_spec (Conformation.fitness (default Conformation.blank (inds !! r2)))
                (Conformation.fitness (default Conformation.blank (inds !! tf)))); cbn.
    + exists r2. split_and!; auto; lia.
    + exists tf. split_and!; auto; lia.
Qed.

(** The shape of one generation step. *)
Lemma crossover_Ok (p p' : Population.t) (w w' : World) :
  Population.crossover p w = Ok (p', w') ->
  exists r1 r2 : nat,
    r1 < length (Population.individuals p)
    /\ r2 < length (Population.individuals p)
    /\ (p' = Population.set_parent1 r1 p
        \/ p' = Population.set_parent2 r2 (Population.set_parent1 r1 p)
        \/ exists pm, refines r1 r2 p pm /\ p' = Population.refresh_fittest r1 r2 pm).
Proof.
  unfold Population.crossover. intros H. run_in H.
  pose proof (tournamentSelect_Ok _ _ _ _ _ Hrun) as Hr1.
  destruct (Qlt_bool _ a0).
  { run_in H. exists a, a. auto. }
  run_in H.
  pose proof (tournamentSelect_Ok _ _ _ _ _ Hrun1) as Hr2. cbn in Hr2.
  exists a, a1. split; [done|]. split; [done|].
  destruct (Qlt_bool _ a2).
  { run_in H. auto. }
  run_in H. right. right. exists a6. split; [|done].
  apply offspring_refines in Hrun5, Hrun6.
  eapply refines_trans; [|eapply refines_trans; [exact Hrun5|apply refines_sym, Hrun6]].
  unfold refines. cbn. split_and!; try done.
  intros Ha. eapply admissible_fields; [..|exact Ha]; done.
Qed.

(** *** Construction of the population *)

Lemma setFittest_loop_spec (p : Population.t) (todo : list nat) :
  forall best : nat,
    Population.setFittest_loop p todo best ∈ best :: todo
    /\ forall x, x ∈ best :: todo ->
         (Conformation.getFitness (Population.obj p (Population.setFittest_loop p todo best))
          <= Conformation.getFitness (Population.obj p x))%Z.
Proof.
  induction todo as [|r todo IH]; intros best; cbn [Population.setFittest_loop].
  - split; [left|]. intros x Hx. apply list_elem_of_singleton in Hx as ->. lia.
  - destruct (Z.ltb_spec (Conformation.getFitness (Population.obj p r))
                (Conformation.getFitness (Population.obj p best))) as [Hlt|Hge].
    + destruct (IH r) as [Hin Hmin]. split; [by right|].
      intros x Hx. apply elem_of_cons in Hx as [->|Hx]; [|by apply Hmin].
      specialize (Hmin r ltac:(left)). lia.
    + destruct (IH best) as [Hin Hmin]. split.
      * apply elem_of_cons in Hin as [->|Hin]; [left | right; by right].
      * intros x Hx. apply elem_of_cons in Hx as [->|Hx]; [apply Hmin; left|].
        apply elem_of_cons in Hx as [->|Hx]; [|apply Hmin; by right].
        specialize (Hmin best ltac:(left)). lia.
Qed.

Lemma elem_of_individuals (p : Population.t) (c : Conformation.t) :
  c ∈ Population.individuals p <->
  exists i, i < length (Population.individuals p) /\ c = Population.obj p i.
Proof.
  split.
  - intros Hc. apply list_elem_of_lookup in Hc as [i Hi]. exists i.
    pose proof (lookup_lt_Some _ _ _ Hi) as Hlt. split; [done|].
    unfold Population.obj. by rewrite Hi.
  - intros (i & Hi & ->). eapply list_elem_of_lookup_2, obj_lookup, Hi.
Qed.

Lemma setFittest_minimal (p : Population.t) :
  Population.individuals p <> [] ->
  fittest_minimal (Population.setFittest (Population.set_theFittest 0 p)).
Proof.
  intros Hne. unfold fittest_minimal, Population.setFittest, Population.getFittest. cbn.
  set (p0 := Population.set_theFittest 0 p).
  destruct (setFittest_loop_spec p0 (seq 0 (length (Population.individuals p))) 0)
    as [Hin Hmin].
  assert (Hlen : 0 < length (Population.individuals p))
    by (destruct (Population.individuals p); [done | simpl; lia]).
  split.
  - apply elem_of_cons in Hin as [->|Hin]; [done|].
    apply list_elem_of_In, in_seq in Hin. lia.
  - intros c Hc. apply elem_of_individuals in Hc as (i & Hi & ->).
    specialize (Hmin i). unfold Conformation.getFitness in Hmin.
    change (Population.obj (Population.set_theFittest _ p0)) with (Population.obj p).
    change (Population.obj p0) with (Population.obj p) in Hmin.
    apply Hmin. right. apply list_elem_of_In, in_seq. lia.
Qed.

Lemma fill_Ok (fuel : nat) :
  forall (i : nat) (p p' : Population.t) (w w' : World),
    Population.fill fuel i p w = Ok (p', w') ->
    i = length (Population.individuals p) ->
    filling p ->
    filling p'
    /\ Population.size p' = Population.size p
    /\ (Population.size p' <= Z.of_nat (length (Population.individuals p')))%Z.
Proof.
  induction fuel as [|fuel IH]; intros i p p' w w' H Hi Hp.
  - cbn [Population.fill] in H.
    destruct (Z.ltb_spec (Z.of_nat i) (Population.size p)); [discriminate|].
    run_in H. split; [done|]. split; [done | lia].
  - cbn [Population.fill] in H.
    destruct (Z.ltb_spec (Z.of_nat i) (Population.size p)) as [Hlt|Hge].
    2:{ run_in H. split; [done|]. split; [done | lia]. }
    run_in H.
    apply Conformation_init_Ok in Hrun.
    apply calcFitness_Ok in Hrun0 as (f & -> & Hf).
    destruct (_ && _) eqn:Hcond.
    + apply andb_true_iff in Hcond as [Hnz Hfresh].
      apply negb_true_iff, Z.eqb_neq in Hnz. cbn in Hnz.
      apply bool_decide_eq_true in Hfresh.
      eapply IH in H as (Hf' & Hs' & Hl').
      * split; [exact Hf'|]. split; [by rewrite Hs' | done].
      * cbn. rewrite length_app. simpl. lia.
      * destruct Hp as (H1 & H2 & H3 & H4).
        unfold filling, encoding_strings in *. cbn. split_and!.
        -- intros c Hc. apply elem_of_app in Hc as [Hc|Hc]; [by apply H1|].
           apply list_elem_of_singleton in Hc as ->. split; [exact Hrun|]. cbn. lia.
        -- rewrite fmap_app. apply NoDup_app. split; [done|]. split.
           ++ intros s Hs Hs'. apply list_elem_of_singleton in Hs' as ->.
              by apply Hfresh, H3.
           ++ apply NoDup_singleton.
        -- rewrite fmap_app. intros s Hs. apply elem_of_app in Hs as [Hs|Hs].
           ++ apply H3 in Hs. set_solver.
           ++ apply list_elem_of_singleton in Hs as ->. set_solver.
        -- rewrite length_app. simpl. lia.
    + by eapply IH in H.
Qed.

Lemma Population_init_Ok (fuel : nat) (size : Z) (prot : Protein) (mutProb crossProb : Q)
    (w w' : World) (p : Population.t) :
  Population.__init__ fuel size prot mutProb crossProb w = Ok (p, w') ->
  admissible p /\ fittest_minimal p /\ Population.size p = size.
Proof.
  unfold Population.__init__. intros H. run_in H.
  apply fill_Ok in Hrun as ((H1 & H2 & H3 & H4) & Hsz & Hge); [|done|].
  2:{ unfold filling, encoding_strings. cbn. split_and!.
      - intros c Hc. inversion Hc.
      - constructor.
      - intros s Hs. inversion Hs.
      - lia. }
  cbn in Hsz.
  destruct (Population.individuals a) as [|c0 rest] eqn:Hinds; [discriminate|].
  run_in H.
  assert (Hne : Population.individuals a <> []) by (rewrite Hinds; done).
  split; [|split].
  - rewrite <- Hinds in H1, H4, Hge.
    assert (0 < length (Population.individuals a)) by (rewrite Hinds; simpl; lia).
    constructor; unfold encoding_strings in *; cbn; try done. lia.
  - by apply setFittest_minimal.
  - done.
Qed.

(** *** Generation steps *)

Lemma crossover_admissible (p p' : Population.t) (w w' : World) :
  Population.crossover p w = Ok (p', w') ->
  admissible p ->
  admissible p' /\ Population.size p' = Population.size p.
Proof.
  intros H Hadm.
  apply crossover_Ok in H as (r1 & r2 & _ & _ & [->|[->|(pm & Href & ->)]]).
  - split; [|done]. eapply admissible_fields; [..|exact Hadm]; done.
  - split; [|done]. eapply admissible_fields; [..|exact Hadm]; done.
  - destruct Href as (Hsz & _ & _ & _ & _ & _ & Hpm).
    destruct (refresh_fittest_spec r1 r2 pm) as (t & -> & _).
    split; [|done]. eapply admissible_fields; [..|exact (Hpm Hadm)]; done.
Qed.

Lemma crossover_fittest (p p' : Population.t) (w w' : World) :
  Population.crossover p w = Ok (p', w') ->
  fittest_minimal p ->
  fittest_minimal p'
  /\ (Conformation.fitness (Population.getFittest p')
      <= Conformation.fitness (Population.getFittest p))%Z.
Proof.
  intros H [Hlt Hmin].
  apply crossover_Ok in H as (r1 & r2 & Hr1 & Hr2 & [->|[->|(pm & Href & ->)]]).
  - split; [by split | apply Z.le_refl].
  - split; [by split | apply Z.le_refl].
  - destruct Href as (_ & Htf & Hlen & _ & Hsame & Hle & _).
    destruct (refresh_fittest_spec r1 r2 pm) as (t & -> & Ht & Ht0 & Ht1 & Ht2).
    rewrite Htf in Ht, Ht0.
    assert (Hold : forall i, i < length (Population.individuals p) ->
              (Conformation.fitness (Population.obj p (Population.theFittest p))
               <= Conformation.fitness (Population.obj p i))%Z).
    { intros i Hi. apply Hmin, elem_of_individuals. eauto. }
    unfold fittest_minimal, Population.getFittest in *. cbn.
    change (Population.obj (Population.set_theFittest t pm)) with (Population.obj pm).
    split; [split|].
    + rewrite Hlen. destruct Ht as [->|[->| ->]]; done.
    + intros c Hc. apply elem_of_individuals in Hc as (i & Hi & ->).
      rewrite Hlen in Hi.
      destruct (decide (i = r1)) as [->|Hn1]; [done|].
      destruct (decide (i = r2)) as [->|Hn2]; [done|].
      rewrite (Hsame i Hn1 Hn2). specialize (Hold i Hi).
      specialize (Hle (Population.theFittest p)). lia.
    + specialize (Hle (Population.theFittest p)). lia.
Qed.

Lemma crossover_index_grows (p p' : Population.t) (w w' : World) :
  Population.crossover p w = Ok (p', w') ->
  Population.setOfConformations p ⊆ Population.setOfConformations p'
  /\ length (Population.individuals p') = length (Population.individuals p).
Proof.
  intros H.
  apply crossover_Ok in H as (r1 & r2 & _ & _ & [->|[->|(pm & Href & ->)]]); [done..|].
  destruct Href as (_ & _ & Hlen & Hsub & _).
  by destruct (refresh_fittest_spec r1 r2 pm) as (t & -> & _).
Qed.

(** C4: when the constructor returns, the population holds exactly [size]
    individuals, each flagged valid with distinct positions and a strictly
    negative fitness, with pairwise distinct encoding strings, all recorded
    in the index; and so it is after any number of generation steps. *)
Theorem population_invariant (fuel : nat) (size : Z) (prot : Protein) (mutProb crossProb : Q)
    (w w' : World) (p p' : Population.t) :
  Population.__init__ fuel size prot mutProb crossProb w = Ok (p, w') ->
  generations p p' ->
  Z.of_nat (length (Population.individuals p')) = size
  /\ (forall c, c ∈ Population.individuals p' ->
        Conformation.validState c = true
        /\ NoDup (Conformation.absPositions c)
        /\ (Conformation.fitness c < 0)%Z)
  /\ NoDup (encoding_strings p')
  /\ (forall s, s ∈ encoding_strings p' -> s ∈ Population.setOfConformations p').
Proof.
  intros Hinit Hgen.
  apply Population_init_Ok in Hinit as (Hadm & _ & Hsz).
  assert (H : admissible p' /\ Population.size p' = size).
  { clear w w'. induction Hgen as [p|p p1 p2 w w' Hstep _ IH]; [done|].
    apply crossover_admissible in Hstep as [Hadm1 Hsz1]; [|done].
    apply IH; congruence. }
  destruct H as [[H1 H2 H3 H4] Hsz'].
  split; [congruence|]. split; [|done].
  intros c Hc. destruct (H2 c Hc) as [[Hv Hnd] Hf]. done.
Qed.

Lemma generations_fittest (p p' : Population.t) :
  generations p p' ->
  fittest_minimal p ->
  fittest_minimal p'
  /\ (Conformation.fitness (Population.getFittest p')
      <= Conformation.fitness (Population.getFittest p))%Z.
Proof.
  induction 1 as [p|p p1 p2 w w' Hstep _ IH]; intros Hmin.
  - split; [done | lia].
  - apply crossover_fittest in Hstep as [Hmin1 Hle1]; [|done].
    destruct (IH Hmin1) as [Hmin2 Hle2]. split; [done | lia].
Qed.

(** C10: after construction and after every generation step, [theFittest]
    refers to one of the individuals and no individual has a lower fitness;
    from any population so reached, further steps never raise the fitness of
    [getFittest]. *)
Theorem fittest_tracks_minimum (fuel : nat) (size : Z) (prot : Protein) (mutProb crossProb : Q)
    (w w' : World) (p p' : Population.t) :
  Population.__init__ fuel size prot mutProb crossProb w = Ok (p, w') ->
  generations p p' ->
  Population.individuals p' !! Population.theFittest p' = Some (Population.getFittest p')
  /\ (forall c, c ∈ Population.individuals p' ->
        (Conformation.fitness (Population.getFittest p') <= Conformation.fitness c)%Z)
  /\ (forall p'', generations p' p'' ->
        (Conformation.fitness (Population.getFittest p'')
         <= Conformation.fitness (Population.getFittest p'))%Z).
Proof.
  intros Hinit Hgen.
  apply Population_init_Ok in Hinit as (_ & Hmin & _).
  destruct (generations_fittest p p' Hgen Hmin) as [[Hlt Hmin'] _].
  split; [by apply obj_lookup|]. split; [done|].
  intros p'' Hgen'. by apply (generations_fittest p' p'' Hgen').
Qed.

(** C9, as the code has it: the index only grows.  After a generation step
    it still holds every string it held before, in particular the former
    encoding string of each individual, displaced or not, and the strings of
    the individuals now present. *)
Theorem index_keeps_displaced_encodings (p p' : Population.t) (w w' : World) :
  admissible p ->
  Population.crossover p w = Ok (p', w') ->
  Population.setOfConformations p ⊆ Population.setOfConformations p'
  /\ (forall c, c ∈ Population.individuals p ->
        Conformation.getConformationString c ∈ Population.setOfConformations p')
  /\ (forall c, c ∈ Population.individuals p' ->
        Conformation.getConformationString c ∈ Population.setOfConformations p').
Proof.
  intros Hadm Hstep.
  destruct (crossover_index_grows _ _ _ _ Hstep) as [Hsub _].
  destruct (crossover_admissible _ _ _ _ Hstep Hadm) as [[_ _ _ H4'] _].
  destruct Hadm as [_ _ _ H4]. unfold encoding_strings in *.
  split; [done|]. split.
  - intros c Hc. apply Hsub, H4, list_elem_of_fmap. eauto.
  - intros c Hc. apply H4', list_elem_of_fmap. eauto.
Qed.

Lemma place_protein (child : Conformation.t) (owner other : nat) (p : Population.t) :
  Population.protein (Population.place child owner other p) = Population.protein p.
Proof.
  by destruct (place_cases child owner other p)
    as [[_ ->]|[(_ & _ & ->)|[(_ & _ & _ & ->)|(_ & _ & _ & ->)]]].
Qed.

Lemma place_fields (child : Conformation.t) (owner other : nat) (p : Population.t) :
  let p' := Population.place child owner other p in
  Population.parent1 p' = Population.parent1 p
  /\ Population.parent2 p' = Population.parent2 p
  /\ Population.mutProb p' = Population.mutProb p
  /\ Population.crossProb p' = Population.crossProb p.
Proof.
  by destruct (place_cases child owner other p)
    as [[_ ->]|[(_ & _ & ->)|[(_ & _ & _ & ->)|(_ & _ & _ & ->)]]].
Qed.

Lemma offspring_fields (child : Conformation.t) (owner other : nat) (p p' : Population.t)
    (w w' : World) :
  Population.offspring child owner other p w = Ok (p', w') ->
  Population.parent1 p' = Population.parent1 p
  /\ Population.parent2 p' = Population.parent2 p
  /\ Population.mutProb p' = Population.mutProb p
  /\ Population.crossProb p' = Population.crossProb p
  /\ Population.protein p' = Population.protein p.
Proof.
  unfold Population.offspring. intros H. run_in H.
  destruct (Conformation.isValid a0); run_in H; [|done].
  destruct (place_fields a1 owner other p) as (H1 & H2 & H3 & H4).
  split_and!; try done. apply place_protein.
Qed.

Lemma offspring_outcome (child0 : Conformation.t) (owner other : nat)
    (p p' : Population.t) (w w' : World) :
  Population.offspring child0 owner other p w = Ok (p', w') ->
  child_outcome child0 owner other p p' w w'.
Proof.
  intros Hoff. pose proof (offspring_refines _ _ _ _ _ _ _ Hoff) as (_ & _ & Hlen & _).
  revert Hoff. unfold Population.offspring. intros H. run_in H.
  exists a, w0, a0, w1. split; [done|]. split; [done|]. split; [done|].
  unfold Conformation.isValid in H.
  destruct (Conformation.validState a0) eqn:Hv.
  - split; [discriminate|]. intros _. run_in H. exists a1. split; [done|].
    destruct (place_cases a1 owner other p)
      as [[Hs ->]|[(Hs & Hf & ->)|[(Hs & Hf1 & Hf2 & ->)|(Hs & Hf1 & Hf2 & ->)]]];
      (split; [intros Hin; done|]); intros Hnin; try (by destruct (Hnin Hs)); cbn;
      split_and!; try done; intros; lia.
  - split; [|discriminate]. intros _. by run_in H.
Qed.

(** C6, as the code has it: a generation step that returns has chosen its
    parents [r1] and [r2] among the individuals and either stopped at one of
    the two probability tests, changing nothing but the parent references,
    or recombined the parents into [child1] (owned by parent1) and [child2]
    (owned by parent2) and treated first [child1], then [child2]: the child
    is mutated and its validity recomputed; found valid it is scored, and if
    its string is not in the index it is registered and overwrites the
    owning parent when its fitness is strictly lower than that parent's,
    otherwise the other parent when strictly lower than that one's, otherwise
    nobody (a tie replaces no parent).  Each child overwrites at most one
    slot, and the number of individuals never changes. *)
Theorem offspring_elitist_replacement (p p' : Population.t) (w w' : World) :
  Population.crossover p w = Ok (p', w') ->
  length (Population.individuals p') = length (Population.individuals p)
  /\ exists r1 r2 : nat,
       r1 < length (Population.individuals p)
       /\ r2 < length (Population.individuals p)
       /\ (p' = Population.set_parent1 r1 p
           \/ p' = Population.set_parent2 r2 (Population.set_parent1 r1 p)
           \/ exists (child1 child2 : Conformation.t) (wa wb wc wd : World)
                     (p1 p2 : Population.t),
                Conformation.crossover (Population.obj p r1) (Population.obj p r2) true wa
                = Ok (child1, wb)
                /\ Conformation.crossover (Population.obj p r2) (Population.obj p r1) true wb
                   = Ok (child2, wc)
                /\ child_outcome child1 r1 r2
                     (Population.set_parent2 r2 (Population.set_parent1 r1 p)) p1 wc wd
                /\ child_outcome child2 r2 r1 p1 p2 wd w'
                /\ p' = Population.refresh_fittest r1 r2 p2
                /\ Population.parent1 p' = Some r1
                /\ Population.parent2 p' = Some r2
                /\ Population.individuals p' = Population.individuals p2
                /\ Population.setOfConformations p' = Population.setOfConformations p2).
Proof.
  intros Hstep. split.
  { apply crossover_Ok in Hstep as (r1 & r2 & _ & _ & [->|[->|(pm & Href & ->)]]);
      [done | done |].
    destruct Href as (_ & _ & Hlen & _).
    destruct (refresh_fittest_spec r1 r2 pm) as (t & -> & _). done. }
  revert Hstep. unfold Population.crossover. intros H. run_in H.
  pose proof (tournamentSelect_Ok _ _ _ _ _ Hrun) as Hr1.
  destruct (Qlt_bool _ a0).
  { run_in H. exists a, a. auto. }
  run_in H.
  pose proof (tournamentSelect_Ok _ _ _ _ _ Hrun1) as Hr2. cbn in Hr2.
  exists a, a1. split; [done|]. split; [done|].
  destruct (Qlt_bool _ a2).
  { run_in H. auto. }
  run_in H. right. right.
  exists a3, a4, w3, w4, w5, w6, a5, a6.
  pose proof (offspring_fields _ _ _ _ _ _ _ Hrun5) as (Hp1 & Hp2 & _).
  pose proof (offspring_fields _ _ _ _ _ _ _ Hrun6) as (Hq1 & Hq2 & _).
  destruct (refresh_fittest_spec a a1 a6) as (t & Ht & _).
  split; [exact Hrun3|]. split; [exact Hrun4|].
  split; [by apply offspring_outcome|]. split; [by apply offspring_outcome|].
  split; [done|]. rewrite Ht. cbn. rewrite Hq1, Hq2, Hp1, Hp2. done.
Qed.

(** *** Degenerate sequences *)

Lemma Conformation_init_degenerate (fuel : nat) (prot : Protein) (w : World) :
  getLength prot < 2 ->
  Conformation.__init__ fuel (Some prot) true w = Raise IndexError.
Proof.
  intros Hlen.
  unfold Conformation.__init__, Conformation.generateRandomConformation. cbn.
  replace (getLength prot - 2) with 0 by lia. cbn.
  unfold bind, ret, Conformation.calcValidity, bind, lift,
    Conformation.calcAbsolutePositions. cbn.
  destruct (Nat.leb_spec (getLength prot) 0); [done|].
  destruct (Nat.leb_spec (getLength prot) 1); [done | lia].
Qed.

(** C8, as the code has it: no check of the sequence length is made.  For a
    sequence of fewer than 2 residues position reconstruction raises
    IndexError (the store to slot 0 or 1 of the position list), so building a
    conformation with a collision set, and therefore the population
    constructor as soon as it has fuel for one iteration, ends with that
    IndexError instead of looping. *)
Theorem degenerate_sequence_raises_IndexError (prot : Protein) :
  getLength prot < 2 ->
  (forall c : Conformation.t,
      Conformation.length c = getLength prot ->
      Conformation.calcAbsolutePositions c = Raise IndexError)
  /\ (forall (fuel : nat) (w : World),
        Conformation.__init__ fuel (Some prot) true w = Raise IndexError)
  /\ (forall (fuel : nat) (size : Z) (mutProb crossProb : Q) (w : World),
        Population.__init__ (S fuel) size prot mutProb crossProb w = Raise IndexError).
Proof.
  intros Hlen. split; [|split].
  - intros c Hc. unfold Conformation.calcAbsolutePositions. rewrite Hc.
    destruct (Nat.ltb_spec (getLength prot) 1); [done|].
    destruct (Nat.ltb_spec (getLength prot) 2); [done | lia].
  - intros fuel w. by apply Conformation_init_degenerate.
  - intros fuel size mutProb crossProb w.
    unfold Population.__init__. cbn [Population.fill Population.size].
    destruct (Z.ltb_spec (Z.of_nat 0) size).
    + unfold bind at 1. unfold bind at 1.
      by rewrite Conformation_init_degenerate.
    + reflexivity.
Qed.

(** *** The worked example *)

Lemma ex_init_Ok : ex_init = Ok (ex_population, ex_world_ready).
Proof. vm_compute. reflexivity. Qed.

Lemma ex_step_better :
  Population.crossover ex_population ex_world_better
  = Ok (ex_replaced, world_after (Population.crossover ex_population ex_world_better)).
Proof. vm_compute. reflexivity. Qed.

Lemma ex_step_tie :
  Population.crossover ex_population ex_world_tie
  = Ok (ex_tied, world_after (Population.crossover ex_population ex_world_tie)).
Proof. vm_compute. reflexivity. Qed.

Lemma ex_generations : generations ex_population ex_replaced.
Proof.
  eapply generations_step; [exact ex_step_better | apply generations_none].
Qed.

Lemma individuals_set_parent1 (r : nat) (p : Population.t) :
  Population.individuals (Population.set_parent1 r p) = Population.individuals p.
Proof. reflexivity. Qed.

Lemma individuals_set_parent2 (r : nat) (p : Population.t) :
  Population.individuals (Population.set_parent2 r p) = Population.individuals p.
Proof. reflexivity. Qed.

Lemma ex_replaced_changed :
  Population.individuals ex_replaced <> Population.individuals ex_population.
Proof. vm_compute. discriminate. Qed.

(** The folding LLFL of BWWBWB has the two contacts (0,3) and (0,5). *)
Lemma calcFitness_counts_contacts_witness :
  Conformation.protein ex_folded = Some ex_protein
  /\ getLength ex_protein = Conformation.length ex_folded
  /\ length (Conformation.absPositions ex_folded) = Conformation.length ex_folded
  /\ Conformation.calcFitness ex_folded ex_world
     = Ok (Conformation.set_fitness (-2) ex_folded,
           mkWorld (tape ex_world) 1 (collisionSet ex_world))
  /\ contacts ex_protein (Conformation.absPositions ex_folded) 6 = [(0, 3); (0, 5)].
Proof.
  split_and!; [reflexivity..| |reflexivity].
  exact (proj1 (calcFitness_counts_contacts ex_folded ex_protein ex_world
                  eq_refl eq_refl eq_refl)).
Defined.

(** The walk of LLFL. *)
Lemma calcAbsolutePositions_walk_witness :
  Conformation.encoding ex_seed = map code [SLEFT; SLEFT; SFORWARD; SLEFT]
  /\ Conformation.length ex_seed = length [SLEFT; SLEFT; SFORWARD; SLEFT] + 2
  /\ Conformation.calcAbsolutePositions ex_seed
     = Ok (Conformation.set_absPositions
             [(0, 0); (0, 1); (-1, 1); (-1, 0); (-1, -1); (0, -1)]%Z ex_seed).
Proof.
  split_and!; [reflexivity..|].
  exact (proj1 (calcAbsolutePositions_walk ex_seed [SLEFT; SLEFT; SFORWARD; SLEFT]
                  eq_refl eq_refl)).
Defined.

(** The validity check on LLFL. *)
Lemma calcValidity_exact_witness :
  2 <= Conformation.length ex_seed
  /\ Conformation.length ex_seed - 2 <= length (Conformation.encoding ex_seed)
  /\ exists c' w',
       Conformation.calcValidity ex_seed ex_world = Ok (c', w')
       /\ Conformation.calcAbsolutePositions ex_seed
          = Ok (Conformation.set_absPositions (Conformation.absPositions c') ex_seed)
       /\ length (Conformation.absPositions c') = Conformation.length ex_seed
       /\ (Conformation.validState c' = true <->
           forall (i j : nat) (p q : Z * Z),
             i <> j ->
             Conformation.absPositions c' !! i = Some p ->
             Conformation.absPositions c' !! j = Some q ->
             p <> q).
Proof.
  assert (H1 : 2 <= Conformation.length ex_seed) by (cbn; lia).
  assert (H2 : Conformation.length ex_seed - 2 <= length (Conformation.encoding ex_seed))
    by (cbn; lia).
  split_and!; [exact H1 | exact H2 |].
  exact (calcValidity_exact ex_seed ex_world H1 H2).
Defined.

(** The population seeded from [ex_world], after the step [ex_world_better]. *)
Lemma population_invariant_witness :
  Population.__init__ 3 3 ex_protein (1 # 2) 1 ex_world = Ok (ex_population, ex_world_ready)
  /\ generations ex_population ex_replaced
  /\ Z.of_nat (length (Population.individuals ex_replaced)) = 3%Z
  /\ NoDup (encoding_strings ex_replaced).
Proof.
  pose proof (population_invariant 3 3 ex_protein (1 # 2) 1 ex_world ex_world_ready
                ex_population ex_replaced ex_init_Ok ex_generations) as (H1 & _ & H3 & _).
  split_and!; [exact ex_init_Ok | exact ex_generations | exact H1 | exact H3].
Defined.

(** LLFL and RRFF cut at 2 give LLFF, of generation floor ((0 + 3) / 2) + 1. *)
Lemma crossover_single_point_witness :
  2 <= 6
  /\ Conformation.length ex_seed = 6
  /\ Conformation.length ex_other = 6
  /\ length (Conformation.encoding ex_seed) = 6 - 2
  /\ length (Conformation.encoding ex_other) = 6 - 2
  /\ exists child w',
       Conformation.crossover ex_seed ex_other false (with_tape [2%N] ex_world) = Ok (child, w')
       /\ Conformation.encoding child = [LEFT; LEFT; FORWARD; FORWARD]
       /\ Conformation.generation child = 2%Z.
Proof.
  assert (H0 : 2 <= 6) by lia.
  split_and!; [exact H0 | reflexivity..|].
  destruct (crossover_single_point ex_seed ex_other 6 false (with_tape [2%N] ex_world)
              H0 eq_refl eq_refl eq_refl eq_refl)
    as (k & w1 & child & w2 & _ & _ & _ & Hk & _ & _ & Hc & _ & He & _ & _ & Hg & _).
  exists child, w2. split; [exact Hc|]. split; [|exact Hg].
  rewrite He, Hk. reflexivity.
Defined.

(** A tournament of 3 among the three seeded individuals. *)
Lemma tournamentSelect_best_of_sample_witness :
  1 <= 3 <= length (Population.individuals ex_population)
  /\ exists (participants : list nat) (r : nat) (w' : World),
       Population.tournamentSelect 3 ex_population ex_world_tie = Ok (r, w')
       /\ length participants = 3
       /\ r ∈ participants
       /\ Population.individuals ex_population !! r = Some (Population.obj ex_population r).
Proof.
  assert (H : 1 <= 3 <= length (Population.individuals ex_population))
    by (split; [lia | apply Nat.le_refl]).
  split; [exact H|].
  destruct (tournamentSelect_best_of_sample 3 ex_population ex_world_tie H)
    as (participants & r & w' & _ & Hsel & Hlen & _ & _ & Hin & Hobj & _ & _).
  exists participants, r, w'. split_and!; assumption.
Defined.

(** The fittest individual after the step [ex_world_better]. *)
Lemma fittest_tracks_minimum_witness :
  Population.__init__ 3 3 ex_protein (1 # 2) 1 ex_world = Ok (ex_population, ex_world_ready)
  /\ generations ex_population ex_replaced
  /\ Population.individuals ex_replaced !! Population.theFittest ex_replaced
     = Some (Population.getFittest ex_replaced)
  /\ forall c, c ∈ Population.individuals ex_replaced ->
       (Conformation.fitness (Population.getFittest ex_replaced) <= Conformation.fitness c)%Z.
Proof.
  pose proof (fittest_tracks_minimum 3 3 ex_protein (1 # 2) 1 ex_world ex_world_ready
                ex_population ex_replaced ex_init_Ok ex_generations) as (H1 & H2 & _).
  split_and!; [exact ex_init_Ok | exact ex_generations | exact H1 | exact H2].
Defined.

Lemma ex_admissible : admissible ex_population.
Proof. exact (proj1 (Population_init_Ok _ _ _ _ _ _ _ _ ex_init_Ok)). Qed.

(** The index after the step [ex_world_better]. *)
Lemma index_keeps_displaced_encodings_witness :
  admissible ex_population
  /\ Population.crossover ex_population ex_world_better
     = Ok (ex_replaced, world_after (Population.crossover ex_population ex_world_better))
  /\ Population.setOfConformations ex_population ⊆ Population.setOfConformations ex_replaced
  /\ forall c, c ∈ Population.individuals ex_population ->
       Conformation.getConformationString c ∈ Population.setOfConformations ex_replaced.
Proof.
  pose proof (index_keeps_displaced_encodings ex_population ex_replaced ex_world_better _
                ex_admissible ex_step_better) as (H1 & H2 & _).
  split_and!; [exact ex_admissible | exact ex_step_better | exact H1 | exact H2].
Defined.

(** The step [ex_world_better]: parents 0 and 1 are recombined, and the first
    child, mutated to LLFL of fitness -2, overwrites parent 0. *)
Lemma offspring_elitist_replacement_witness :
  Population.crossover ex_population ex_world_better
  = Ok (ex_replaced, world_after (Population.crossover ex_population ex_world_better))
  /\ length (Population.individuals ex_replaced) = length (Population.individuals ex_population)
  /\ exists (r1 r2 : nat) (child1 child2 : Conformation.t) (wa wb wc wd : World)
            (p1 p2 : Population.t),
       Conformation.crossover (Population.obj ex_population r1) (Population.obj ex_population r2)
         true wa = Ok (child1, wb)
       /\ Conformation.crossover (Population.obj ex_population r2)
            (Population.obj ex_population r1) true wb = Ok (child2, wc)
       /\ child_outcome child1 r1 r2
            (Population.set_parent2 r2 (Population.set_parent1 r1 ex_population)) p1 wc wd
       /\ child_outcome child2 r2 r1 p1 p2 wd
            (world_after (Population.crossover ex_population ex_world_better))
       /\ ex_replaced = Population.refresh_fittest r1 r2 p2.
Proof.
  split; [exact ex_step_better|].
  destruct (offspring_elitist_replacement _ _ _ _ ex_step_better)
    as (Hlen & r1 & r2 & _ & _ & [Hskip|[Hskip|Hfull]]).
  - destruct ex_replaced_changed. rewrite Hskip. apply individuals_set_parent1.
  - destruct ex_replaced_changed. rewrite Hskip.
    rewrite individuals_set_parent2. apply individuals_set_parent1.
  - split; [exact Hlen|].
    destruct Hfull as (child1 & child2 & wa & wb & wc & wd & p1 & p2
                       & H1 & H2 & H3 & H4 & H5 & _).
    exists r1, r2, child1, child2, wa, wb, wc, wd, p1, p2.
    split; [exact H1|]. split; [exact H2|]. split; [exact H3|]. split; [exact H4 | exact H5].
Defined.

(** The one-residue sequence B. *)
Lemma degenerate_sequence_raises_IndexError_witness :
  getLength (mkProtein "B") < 2
  /\ Population.__init__ 1 3 (mkProtein "B") (1 # 2) 1 ex_world = Raise IndexError.
Proof.
  assert (H : getLength (mkProtein "B") < 2) by (cbn; lia).
  split; [exact H|].
  exact (proj2 (proj2 (degenerate_sequence_raises_IndexError (mkProtein "B") H))
           0 3%Z (1 # 2)%Q 1%Q ex_world).
Defined.

(** C6, the claim as stated fails on a tie.  In the step [ex_world_tie] the
    first child LLRF is valid, new to the index and of fitness -1, as are both
    of its parents: neither parent is better than the child, yet no parent is
    replaced; the child is only registered in the index. *)
Lemma tie_replaces_no_parent :
  Conformation.validState ex_tie_child = true
  /\ (Conformation.getConformationString ex_tie_child ∉ Population.setOfConformations ex_population)
  /\ (Conformation.fitness (Population.obj ex_population 0)
      >= Conformation.fitness ex_tie_child)%Z
  /\ (Conformation.fitness (Population.obj ex_population 1)
      >= Conformation.fitness ex_tie_child)%Z
  /\ Population.individuals (Population.place ex_tie_child 0 1 ex_population)
     = Population.individuals ex_population
  /\ (ex_tie_child ∉ Population.individuals (Population.place ex_tie_child 0 1 ex_population))
  /\ Population.crossover ex_population ex_world_tie
     = Ok (ex_tied, world_after (Population.crossover ex_population ex_world_tie))
  /\ Population.parent1 ex_tied = Some 0
  /\ Population.parent2 ex_tied = Some 1
  /\ Population.individuals ex_tied = Population.individuals ex_population
  /\ Conformation.getConformationString ex_tie_child ∈ Population.setOfConformations ex_tied.
Proof.
  split_and!.
  - reflexivity.
  - apply (bool_decide_unpack _). vm_compute. exact I.
  - vm_compute. discriminate.
  - vm_compute. discriminate.
  - vm_compute. reflexivity.
  - intros Hin. apply list_elem_of_In in Hin. vm_compute in Hin.
    repeat destruct Hin as [Hin|Hin]; try discriminate. exact Hin.
  - exact ex_step_tie.
  - vm_compute. reflexivity.
  - vm_compute. reflexivity.
  - vm_compute. reflexivity.
  - apply (bool_decide_unpack _). vm_compute. exact I.
Qed.

(** C9, the claim as stated fails.  In the step [ex_world_better] the child
    LLFL overwrites the individual in slot 0, whose string was LLFF; no
    individual holds LLFF afterwards, and LLFF is still in the index. *)
Lemma displaced_encoding_stays_indexed :
  Population.crossover ex_population ex_world_better
  = Ok (ex_replaced, world_after (Population.crossover ex_population ex_world_better))
  /\ Conformation.getConformationString (Population.obj ex_population 0) = "LLFF"%string
  /\ Conformation.getConformationString (Population.obj ex_replaced 0) = "LLFL"%string
  /\ ("LLFF"%string ∉ encoding_strings ex_replaced)
  /\ "LLFF"%string ∈ Population.setOfConformations ex_replaced.
Proof.
  split_and!.
  - exact ex_step_better.
  - vm_compute. reflexivity.
  - vm_compute. reflexivity.
  - apply (bool_decide_unpack _). vm_compute. exact I.
  - apply (bool_decide_unpack _). vm_compute. exact I.
Qed.

(** C8, the claim as stated fails.  Nothing checks the length of the
    sequence: for the one-residue sequence B a conformation built without a
    collision set is returned normally, with an empty encoding; the
    population constructor goes into its loop (with no fuel it stops there)
    and ends, in the first candidate, with the IndexError of the position
    list. *)
Lemma degenerate_sequence_not_rejected :
  getLength (mkProtein "B") < 2
  /\ Conformation.__init__ 0 (Some (mkProtein "B")) false ex_world
     = Ok (Conformation.mk (Some (mkProtein "B")) false 1 [] [(0, 0)%Z] 0 0 false, ex_world)
  /\ Population.__init__ 0 3 (mkProtein "B") (1 # 2) 1 ex_world = OutOfFuel
  /\ Population.__init__ 1 3 (mkProtein "B") (1 # 2) 1 ex_world = Raise IndexError
  /\ Conformation.calcAbsolutePositions
       (Conformation.mk (Some (mkProtein "B")) true 1 [] [(0, 0)%Z] 0 0 false)
     = Raise IndexError.
Proof.
  split_and!; [cbn; lia | reflexivity..].
Qed.

(** ** Further properties of the code *)

(** *** Encoding strings and equality *)

Lemma append_assoc' (a b c : string) :
  String.append (String.append a b) c = String.append a (String.append b c).
Proof.
  induction a as [|x a IH]; [done|].
  change (String x (String.append (String.append a b) c)
          = String x (String.append a (String.append b c))).
  by rewrite IH.
Qed.

Lemma append_empty_r (a : string) : String.append a "" = a.
Proof.
  induction a as [|x a IH]; [done|].
  change (String x (String.append a "") = String x a). by rewrite IH.
Qed.

Lemma append_length (a b : string) :
  String.length (String.append a b) = String.length a + String.length b.
Proof.
  induction a as [|x a IH]; [done|].
  change (S (String.length (String.append a b)) = S (String.length a + String.length b)).
  by rewrite IH.
Qed.

Lemma append_empty_l (a : string) : String.append "" a = a.
Proof. reflexivity. Qed.

Lemma string_fold_acc (l : list Z) :
  forall acc : string,
    fold_left (fun result d => String.append result (Conformation.letter d)) l acc
    = String.append acc
        (fold_left (fun result d => String.append result (Conformation.letter d)) l ""%string).
Proof.
  induction l as [|d l IH]; intros acc; cbn [fold_left].
  - by rewrite append_empty_r.
  - rewrite append_empty_l, IH, (IH (Conformation.letter d)). by rewrite append_assoc'.
Qed.

Lemma getConformationString_cons (c : Conformation.t) (d : Z) (l : list Z) :
  Conformation.encoding c = d :: l ->
  Conformation.getConformationString c
  = String.append (Conformation.letter d)
      (Conformation.getConformationString (Conformation.set_encoding l c)).
Proof.
  intros He. unfold Conformation.getConformationString. rewrite He.
  cbn [fold_left Conformation.encoding Conformation.set_encoding].
  by rewrite append_empty_l, string_fold_acc.
Qed.

Lemma letter_one_char (d : Z) : exists a, Conformation.letter d = String a EmptyString.
Proof.
  unfold Conformation.letter.
  destruct (d =? FORWARD)%Z; [eauto|]. destruct (d =? LEFT)%Z; [eauto|].
  destruct (d =? RIGHT)%Z; eauto.
Qed.

Lemma letter_inj (d d' : Z) :
  alphabet d -> alphabet d' -> Conformation.letter d = Conformation.letter d' -> d = d'.
Proof.
  intros [->|[->| ->]] [->|[->| ->]]; cbn; intros H; try done; discriminate.
Qed.

Lemma encoding_string_length (l : list Z) :
  String.length (fold_left (fun result d => String.append result (Conformation.letter d))
                   l ""%string) = length l.
Proof.
  induction l as [|d l IH]; [done|]. cbn [fold_left length].
  rewrite append_empty_l, string_fold_acc, append_length, IH.
  destruct (letter_one_char d) as [a ->]. done.
Qed.

Lemma encoding_string_inj (l : list Z) :
  forall l' : list Z,
    Forall alphabet l -> Forall alphabet l' ->
    fold_left (fun result d => String.append result (Conformation.letter d)) l ""%string
    = fold_left (fun result d => String.append result (Conformation.letter d)) l' ""%string ->
    l = l'.
Proof.
  induction l as [|d l IH]; intros l' Hl Hl' Heq.
  - destruct l' as [|d' l']; [done|]. exfalso.
    apply (f_equal String.length) in Heq. rewrite !encoding_string_length in Heq. done.
  - destruct l' as [|d' l'].
    { exfalso. apply (f_equal String.length) in Heq.
      rewrite !encoding_string_length in Heq. done. }
    apply Forall_cons in Hl as [Hd Hl]. apply Forall_cons in Hl' as [Hd' Hl'].
    cbn [fold_left] in Heq.
    rewrite !append_empty_l, (string_fold_acc l), (string_fold_acc l') in Heq.
    destruct (letter_one_char d) as [a Ha]. destruct (letter_one_char d') as [a' Ha'].
    rewrite Ha, Ha' in Heq. injection Heq as Haa Heq.
    f_equal; [|by apply IH].
    apply letter_inj; [done..|]. congruence.
Qed.

(** X1: the encoding string has one character per locus, and two encodings
    over LEFT, FORWARD, RIGHT with the same string are the same encoding. *)
Theorem getConformationString_faithful (c c' : Conformation.t) :
  String.length (Conformation.getConformationString c) = length (Conformation.encoding c)
  /\ (Forall alphabet (Conformation.encoding c) ->
      Forall alphabet (Conformation.encoding c') ->
      Conformation.getConformationString c = Conformation.getConformationString c' ->
      Conformation.encoding c = Conformation.encoding c').
Proof.
  split; [apply encoding_string_length|].
  intros H H' Heq. by apply encoding_string_inj.
Qed.

Lemma eq_loop_spec (mine theirs : list Z) (n : nat) :
  forall k : nat,
    k + n <= length mine -> k + n <= length theirs ->
    Conformation.eq_loop mine theirs (seq k n)
    = Ok (bool_decide (take n (drop k mine) = take n (drop k theirs))).
Proof.
  induction n as [|n IH]; intros k Hm Ht; cbn [seq Conformation.eq_loop].
  - by rewrite !take_0, bool_decide_eq_true_2.
  - destruct (lookup_lt_is_Some_2 mine k) as [a Ha]; [lia|].
    destruct (lookup_lt_is_Some_2 theirs k) as [b Hb]; [lia|].
    unfold Conformation.load. rewrite Ha, Hb. cbn [rbind].
    rewrite (drop_S mine a k Ha), (drop_S theirs b k Hb). cbn [take].
    destruct (Z.eqb_spec a b) as [->|Hne]; cbn [negb].
    + rewrite IH by lia. f_equal. apply bool_decide_ext. split; congruence.
    + f_equal. symmetry. apply bool_decide_eq_false_2. congruence.
Qed.

Lemma eq_spec (a b : Conformation.t) :
  length (Conformation.encoding a) = Conformation.length a - 2 ->
  length (Conformation.encoding b) = Conformation.length b - 2 ->
  Conformation.__eq__ a b
  = Ok (bool_decide (Conformation.length a = Conformation.length b
                     /\ Conformation.encoding a = Conformation.encoding b)).
Proof.
  intros Ha Hb. unfold Conformation.__eq__.
  destruct (Nat.eqb_spec (Conformation.length a) (Conformation.length b)) as [Hl|Hl]; cbn [negb].
  - rewrite eq_loop_spec by lia. rewrite !drop_0, !take_ge by lia.
    f_equal. apply bool_decide_ext. tauto.
  - f_equal. symmetry. apply bool_decide_eq_false_2. tauto.
Qed.

(** X2: on conformations whose encodings have their [length - 2] loci,
    [__eq__] returns whether residue counts and encodings agree, whatever the
    other fields (protein, positions, fitness, generation) are, and [__ne__]
    returns the opposite; for two conformations of a same sequence this is
    whether their encoding strings agree. *)
Theorem eq_compares_encodings (a b : Conformation.t) :
  length (Conformation.encoding a) = Conformation.length a - 2 ->
  length (Conformation.encoding b) = Conformation.length b - 2 ->
  Conformation.__eq__ a b
  = Ok (bool_decide (Conformation.length a = Conformation.length b
                     /\ Conformation.encoding a = Conformation.encoding b))
  /\ Conformation.__ne__ a b
     = Ok (negb (bool_decide (Conformation.length a = Conformation.length b
                              /\ Conformation.encoding a = Conformation.encoding b)))
  /\ (forall prot, shaped prot a -> shaped prot b ->
        (Conformation.__eq__ a b = Ok true <->
         Conformation.getConformationString a = Conformation.getConformationString b)).
Proof.
  intros Ha Hb. pose proof (eq_spec a b Ha Hb) as Heq.
  split; [done|]. split; [unfold Conformation.__ne__; by rewrite Heq|].
  intros prot (_ & Hla & _ & _ & Hfa) (_ & Hlb & _ & _ & Hfb). rewrite Heq. split.
  - intros [= H]. apply bool_decide_eq_true in H as [_ He].
    unfold Conformation.getConformationString. by rewrite He.
  - intros Hs. f_equal. apply bool_decide_eq_true_2. split; [congruence|].
    by apply encoding_string_inj.
Qed.

(** *** Draws, mutation and random seeding *)

Lemma draw_Ok (w : World) :
  exists w', draw w = Ok (tape w 0, w')
             /\ energyEvalSteps w' = energyEvalSteps w
             /\ collisionSet w' = collisionSet w.
Proof. eexists. by split_and!. Qed.

Lemma randint_alphabet (w : World) :
  exists d w', randint (-1) 1 w = Ok (d, w')
               /\ alphabet d
               /\ energyEvalSteps w' = energyEvalSteps w
               /\ collisionSet w' = collisionSet w.
Proof.
  unfold randint, bind, draw, ret. eexists _, _. split; [reflexivity|].
  split; [|done]. unfold alphabet, LEFT, FORWARD, RIGHT.
  pose proof (Z.mod_pos_bound (Z.of_N (tape w 0)) (1 - -1 + 1) ltac:(lia)). lia.
Qed.

Lemma random_Ok (w : World) :
  exists u w', random w = Ok (u, w')
               /\ energyEvalSteps w' = energyEvalSteps w
               /\ collisionSet w' = collisionSet w.
Proof. unfold random, bind, draw, ret. eexists _, _. by split_and!. Qed.

Lemma store_Ok {A} (l : list A) (i : nat) (v : A) :
  i < length l -> Conformation.store l i v = Ok (<[i := v]> l).
Proof.
  intros Hi. unfold Conformation.store.
  destruct (Nat.ltb_spec i (length l)); [done | lia].
Qed.

Lemma Forall_insert_alphabet (enc : list Z) (i : nat) (d : Z) :
  Forall alphabet enc -> alphabet d -> Forall alphabet (<[i := d]> enc).
Proof.
  intros He Hd. apply Forall_forall. intros x Hx.
  apply elem_of_insert_inv in Hx as [->|Hx]; [done|].
  rewrite Forall_forall in He. by apply He.
Qed.

(** [mutate] never fails on loci that exist, keeps their number, and keeps
    the encoding over the alphabet. *)
Lemma mutate_loop_Ok (probability : Q) (todo : list nat) :
  forall (enc : list Z) (w : World),
    (forall i, i ∈ todo -> i < length enc) ->
    exists enc' w',
      Conformation.mutate_loop probability todo enc w = Ok (enc', w')
      /\ length enc' = length enc
      /\ (Forall alphabet enc -> Forall alphabet enc')
      /\ energyEvalSteps w' = energyEvalSteps w
      /\ collisionSet w' = collisionSet w.
Proof.
  induction todo as [|i todo IH]; intros enc w Htodo; cbn [Conformation.mutate_loop].
  - eexists _, _. by split_and!.
  - assert (Hi : i < length enc) by (apply Htodo; left).
    assert (Htodo' : forall j, j ∈ todo -> j < length enc)
      by (intros j Hj; apply Htodo; by right).
    destruct (random_Ok w) as (u & w1 & Hu & Hc1 & Hs1).
    unfold bind at 1. rewrite Hu.
    destruct (Qle_bool u probability).
    + destruct (randint_alphabet w1) as (d & w2 & Hd & Hal & Hc2 & Hs2).
      unfold bind at 1. rewrite Hd.
      unfold bind at 1, lift. rewrite store_Ok by done.
      destruct (IH (<[i := d]> enc) w2) as (enc' & w' & Hrun & Hl & Hf & Hc & Hs).
      { intros j Hj. rewrite length_insert. by apply Htodo'. }
      exists enc', w'. rewrite Hrun. split; [done|].
      rewrite Hl, length_insert. split; [done|]. split.
      * intros He. by apply Hf, Forall_insert_alphabet.
      * split; congruence.
    + destruct (IH enc w1 Htodo') as (enc' & w' & Hrun & Hl & Hf & Hc & Hs).
      exists enc', w'. rewrite Hrun. split_and!; try done; congruence.
Qed.

Lemma randomize_loop_Ok (todo : list nat) :
  forall (enc : list Z) (w : World),
    (forall i, i ∈ todo -> i < length enc) ->
    exists enc' w',
      Conformation.randomize_loop todo enc w = Ok (enc', w')
      /\ length enc' = length enc
      /\ (forall j v, enc' !! j = Some v -> alphabet v \/ ((j ∉ todo) /\ enc !! j = Some v))
      /\ energyEvalSteps w' = energyEvalSteps w
      /\ collisionSet w' = collisionSet w.
Proof.
  induction todo as [|i todo IH]; intros enc w Htodo; cbn [Conformation.randomize_loop].
  - eexists _, _. split_and!; try done. intros j v Hj. right. split; [|done].
    intros Hin. inversion Hin.
  - assert (Hi : i < length enc) by (apply Htodo; left).
    destruct (randint_alphabet w) as (d & w1 & Hd & Hal & Hc1 & Hs1).
    unfold bind at 1. rewrite Hd.
    unfold bind at 1, lift. rewrite store_Ok by done.
    destruct (IH (<[i := d]> enc) w1) as (enc' & w' & Hrun & Hl & Hf & Hc & Hs).
    { intros j Hj. rewrite length_insert. apply Htodo. by right. }
    exists enc', w'. rewrite Hrun. split; [done|].
    rewrite Hl, length_insert. split; [done|]. split; [|split; congruence].
    intros j v Hj. destruct (Hf j v Hj) as [Ha|[Hnin Hold]]; [by left|].
    destruct (decide (j = i)) as [->|Hne].
    + rewrite list_lookup_insert_eq in Hold by done. left. congruence.
    + rewrite list_lookup_insert_ne in Hold by done. right. split; [|done].
      intros Hin. apply elem_of_cons in Hin as [?|?]; done.
Qed.

Lemma mutate_Ok (probability : Q) (prot : Protein) (c : Conformation.t) (w : World) :
  shaped prot c ->
  exists c' w',
    Conformation.mutate probability c w = Ok (c', w')
    /\ shaped prot c'
    /\ c' = Conformation.set_encoding (Conformation.encoding c') c
    /\ energyEvalSteps w' = energyEvalSteps w
    /\ collisionSet w' = collisionSet w.
Proof.
  intros (Hp & Hl & Hn & He & Hf). unfold Conformation.mutate.
  destruct (mutate_loop_Ok probability (seq 0 (Conformation.length c - 2))
              (Conformation.encoding c) w) as (enc' & w' & Hrun & Hl' & Hf' & Hc & Hs).
  { intros i Hi. apply list_elem_of_In, in_seq in Hi. lia. }
  exists (Conformation.set_encoding enc' c), w'. unfold bind, ret. rewrite Hrun.
  split; [done|]. split; [|done].
  unfold shaped. cbn. split_and!; try done; [congruence | auto].
Qed.

(** *** Recomputing changes nothing *)

Lemma calcAbsolutePositions_Ok_length (c c1 : Conformation.t) :
  Conformation.calcAbsolutePositions c = Ok c1 -> 2 <= Conformation.length c.
Proof.
  unfold Conformation.calcAbsolutePositions. intros H.
  destruct (Nat.ltb_spec (Conformation.length c) 1); [discriminate|].
  destruct (Nat.ltb_spec (Conformation.length c) 2); [discriminate | lia].
Qed.

(** Positions depend on [length] and [encoding] alone. *)
Lemma calcAbsolutePositions_ext (c c2 : Conformation.t) (pos : list (Z * Z)) :
  Conformation.calcAbsolutePositions c = Ok (Conformation.set_absPositions pos c) ->
  Conformation.length c2 = Conformation.length c ->
  Conformation.encoding c2 = Conformation.encoding c ->
  Conformation.calcAbsolutePositions c2 = Ok (Conformation.set_absPositions pos c2).
Proof.
  unfold Conformation.calcAbsolutePositions. intros H Hl He. rewrite Hl, He.
  destruct (_ <? 1); [discriminate|]. destruct (_ <? 2); [discriminate|].
  destruct (Conformation.positions_loop _ _ _ _ _ _) as [pos'| |]; try discriminate.
  cbn in *. injection H as ->. done.
Qed.

Lemma fitness_inner_ext (c c2 : Conformation.t) (ori : Z * Z) (js : list nat) :
  Conformation.protein c2 = Conformation.protein c ->
  Conformation.absPositions c2 = Conformation.absPositions c ->
  forall fit, Conformation.fitness_inner c2 ori js fit = Conformation.fitness_inner c ori js fit.
Proof.
  intros Hp Ha. induction js as [|j js IH]; intros fit; cbn [Conformation.fitness_inner]; [done|].
  unfold Conformation.protein_getNth, Conformation.nth_position. rewrite Hp, Ha.
  destruct (match Conformation.protein c with Some p => getNth p j | None => Raise AttributeError end)
    as [b| |]; cbn [rbind]; try done.
  destruct (Conformation.is_B b); [|done].
  destruct (Conformation.absPositions c !! j); cbn [rbind]; [|done].
  destruct (Conformation.touching ori p); done.
Qed.

Lemma fitness_outer_ext (c c2 : Conformation.t) (todo : list nat) :
  Conformation.protein c2 = Conformation.protein c ->
  Conformation.absPositions c2 = Conformation.absPositions c ->
  Conformation.length c2 = Conformation.length c ->
  forall fit, Conformation.fitness_outer c2 todo fit = Conformation.fitness_outer c todo fit.
Proof.
  intros Hp Ha Hl. induction todo as [|i todo IH]; intros fit;
    cbn [Conformation.fitness_outer]; [done|].
  unfold Conformation.protein_getNth, Conformation.nth_position. rewrite Hp, Ha, Hl.
  destruct (match Conformation.protein c with Some p => getNth p i | None => Raise AttributeError end)
    as [b| |]; cbn [rbind]; try done.
  destruct (Conformation.is_B b); [|done].
  destruct (Conformation.absPositions c !! i); cbn [rbind]; [|done].
  rewrite (fitness_inner_ext c c2) by done.
  destruct (Conformation.fitness_inner c p _ fit); cbn [rbind]; done.
Qed.

Lemma calcValidity_current (c c' : Conformation.t) (w w' : World) :
  Conformation.calcValidity c w = Ok (c', w') ->
  positions_current c'
  /\ c' = Conformation.set_validState (Conformation.validState c')
            (Conformation.set_absPositions (Conformation.absPositions c') c)
  /\ energyEvalSteps w' = energyEvalSteps w.
Proof.
  intros H. apply calcValidity_Ok in H as (c1 & Hpos & -> & _ & Hc).
  destruct (calcAbsolutePositions_Ok _ _ Hpos) as [pos ->].
  split; [|done]. split; [|done].
  pose proof (calcAbsolutePositions_ext c
                (Conformation.set_validState
                   (bool_decide (NoDup (Conformation.absPositions
                                          (Conformation.set_absPositions pos c))))
                   (Conformation.set_absPositions pos c)) pos Hpos eq_refl eq_refl) as H.
  rewrite H. by destruct c.
Qed.

Lemma calcValidity_shaped (prot : Protein) (c c' : Conformation.t) (w w' : World) :
  Conformation.calcValidity c w = Ok (c', w') -> shaped prot c -> shaped prot c'.
Proof.
  intros H Hs. apply calcValidity_current in H as (_ & -> & _). exact Hs.
Qed.

Lemma calcFitness_current (c c' : Conformation.t) (w w' : World) :
  Conformation.calcFitness c w = Ok (c', w') ->
  positions_current c ->
  up_to_date c'
  /\ c' = Conformation.set_fitness (Conformation.fitness c') c
  /\ energyEvalSteps w' = (energyEvalSteps w + 1)%Z.
Proof.
  unfold Conformation.calcFitness. intros H [Hpos Hv].
  destruct (Conformation.fitness_outer c _ 0) as [f| |] eqn:Hf; try discriminate.
  injection H as <- <-. split; [|done]. unfold up_to_date. split_and!.
  - destruct (calcAbsolutePositions_Ok _ _ Hpos) as [pos Hc].
    rewrite Hc in Hpos at 2.
    rewrite (calcAbsolutePositions_ext c (Conformation.set_fitness f c) pos Hpos eq_refl eq_refl).
    f_equal. rewrite Hc at 2. by destruct c.
  - exact Hv.
  - rewrite (fitness_outer_ext c (Conformation.set_fitness f c)) by done. exact Hf.
Qed.

Lemma calcFitness_total (prot : Protein) (c : Conformation.t) (w : World) :
  shaped prot c ->
  positions_current c ->
  exists c' w', Conformation.calcFitness c w = Ok (c', w').
Proof.
  intros (Hp & Hl & Hn & He & _) [Hpos _].
  assert (Hlen : length (Conformation.absPositions c) = Conformation.length c).
  { destruct (calcAbsolutePositions_total c Hn) as (pos & Hrun & Hlen); [lia|].
    rewrite Hrun in Hpos. injection Hpos as Hpos. rewrite <- Hpos. exact Hlen. }
  unfold Conformation.calcFitness.
  rewrite (fitness_outer_count c prot) by
    (try done; intros i Hi; apply list_elem_of_In, in_seq in Hi; lia).
  eauto.
Qed.

(** *** Random seeding *)

Lemma repair_shaped (prot : Protein) (fuel : nat) :
  forall (c c' : Conformation.t) (w w' : World),
    Conformation.repair fuel c w = Ok (c', w') ->
    shaped prot c ->
    positions_current c ->
    shaped prot c' /\ positions_current c' /\ Conformation.validState c' = true
    /\ energyEvalSteps w' = energyEvalSteps w.
Proof.
  induction fuel as [|fuel IH]; intros c c' w w' H Hs Hc; cbn [Conformation.repair] in H.
  - destruct (Conformation.validState c) eqn:Hv; [|discriminate]. by run_in H.
  - destruct (Conformation.validState c) eqn:Hv; [by run_in H|].
    run_in H.
    destruct (mutate_Ok Conformation.one_tenth prot c w Hs) as (c1 & w1' & Hm & Hs1 & _ & Hc1 & _).
    rewrite Hm in Hrun. injection Hrun as <- <-.
    pose proof (calcValidity_shaped prot _ _ _ _ Hrun0 Hs1) as Hs2.
    apply calcValidity_current in Hrun0 as (Hcur & _ & Hc2).
    destruct (IH _ _ _ _ H Hs2 Hcur) as (H1 & H2 & H3 & H4).
    split_and!; try done. congruence.
Qed.

Lemma repair_no_raise (prot : Protein) (fuel : nat) :
  forall (c : Conformation.t) (w : World),
    shaped prot c -> no_exception (Conformation.repair fuel c w).
Proof.
  induction fuel as [|fuel IH]; intros c w Hs; cbn [Conformation.repair].
  - destruct (Conformation.validState c); [left; by eexists | by right].
  - destruct (Conformation.validState c); [left; by eexists|].
    destruct (mutate_Ok Conformation.one_tenth prot c w Hs) as (c1 & w1 & Hm & Hs1 & _).
    unfold bind at 1. rewrite Hm.
    destruct Hs1 as (Hp1 & Hl1 & Hn1 & He1 & Hf1).
    destruct (calcValidity_total c1 w1 Hn1) as (c2 & w2 & Hv); [lia|].
    unfold bind at 1. rewrite Hv. apply IH.
    eapply calcValidity_shaped; [exact Hv|]. by unfold shaped.
Qed.

Lemma seeded_shape (prot : Protein) (w : World) :
  exists enc w1,
    Conformation.randomize_loop (seq 0 (getLength prot - 2))
      (replicate (getLength prot - 2) 0%Z) w = Ok (enc, w1)
    /\ length enc = getLength prot - 2
    /\ Forall alphabet enc
    /\ energyEvalSteps w1 = energyEvalSteps w.
Proof.
  destruct (randomize_loop_Ok (seq 0 (getLength prot - 2))
              (replicate (getLength prot - 2) 0%Z) w) as (enc & w1 & Hrun & Hl & Hf & Hc & _).
  { intros i Hi. apply list_elem_of_In, in_seq in Hi. rewrite length_replicate. lia. }
  rewrite length_replicate in Hl.
  exists enc, w1. split_and!; try done.
  apply Forall_lookup. intros j v Hj. destruct (Hf j v Hj) as [Ha|[Hnin _]]; [done|].
  exfalso. apply Hnin, list_elem_of_In, in_seq.
  apply lookup_lt_Some in Hj. lia.
Qed.

Lemma Conformation_init_shaped (fuel : nat) (prot : Protein) (c : Conformation.t)
    (w w' : World) :
  Conformation.__init__ fuel (Some prot) true w = Ok (c, w') ->
  shaped prot c /\ positions_current c /\ Conformation.validState c = true
  /\ energyEvalSteps w' = energyEvalSteps w.
Proof.
  unfold Conformation.__init__, Conformation.generateRandomConformation.
  cbn [Conformation.length Conformation.encoding].
  intros H. run_in H.
  destruct (seeded_shape prot w) as (enc & ws & Hseed & Hl & Hf & Hc).
  rewrite Hseed in Hrun. injection Hrun as <- <-.
  assert (Hn : 2 <= getLength prot).
  { destruct (calcValidity_Ok _ _ _ _ Hrun0) as (c1 & Hpos & _).
    by apply calcAbsolutePositions_Ok_length in Hpos. }
  assert (Hs : shaped prot
                 (Conformation.set_encoding enc
                    (Conformation.mk (Some prot) true (getLength prot)
                       (replicate (getLength prot - 2) 0%Z)
                       (replicate (getLength prot) (0%Z, 0%Z)) 0 0 false)))
    by (unfold shaped; cbn; by split_and!).
  pose proof (calcValidity_shaped prot _ _ _ _ Hrun0 Hs) as Hs2.
  apply calcValidity_current in Hrun0 as (Hcur & _ & Hc2).
  destruct (repair_shaped prot _ _ _ _ _ H Hs2 Hcur) as (H1 & H2 & H3 & H4).
  split_and!; try done. congruence.
Qed.

Lemma Conformation_init_no_raise (fuel : nat) (prot : Protein) (w : World) :
  2 <= getLength prot ->
  no_exception (Conformation.__init__ fuel (Some prot) true w).
Proof.
  intros Hn.
  unfold Conformation.__init__, Conformation.generateRandomConformation.
  cbn [Conformation.length Conformation.encoding].
  destruct (seeded_shape prot w) as (enc & w1 & Hseed & Hl & Hf & Hc).
  unfold bind at 1. rewrite Hseed.
  match goal with |- context [Conformation.calcValidity ?c0] =>
    assert (Hs : shaped prot c0) by (unfold shaped; cbn; by split_and!);
    destruct (calcValidity_total c0 w1) as (c2 & w2 & Hv); [cbn; lia..|]
  end.
  unfold bind at 1. rewrite Hv. apply (repair_no_raise prot).
  eapply calcValidity_shaped; [exact Hv | exact Hs].
Qed.

(** *** Well-formed populations *)

Lemma sample_from_frame {A} (k : nat) :
  forall (pool l : list A) (w w' : World),
    sample_from pool k w = Ok (l, w') ->
    energyEvalSteps w' = energyEvalSteps w /\ collisionSet w' = collisionSet w.
Proof.
  induction k as [|k IH]; intros pool l w w' H; cbn [sample_from] in H.
  - by run_in H.
  - apply bind_Ok in H as (n & w1 & Hdraw & H).
    unfold draw in Hdraw. injection Hdraw as <- <-.
    destruct (pool !! _).
    + apply bind_Ok in H as (rest & w2 & Hrest & H). run_in H.
      by apply IH in Hrest.
    + by run_in H.
Qed.

Lemma tournamentSelect_total (k : nat) (p : Population.t) (w : World) :
  1 <= k <= length (Population.individuals p) ->
  exists r w', Population.tournamentSelect k p w = Ok (r, w')
               /\ r < length (Population.individuals p)
               /\ energyEvalSteps w' = energyEvalSteps w.
Proof.
  intros [Hk1 Hk2].
  destruct (sample_from_distinct k (seq 0 (length (Population.individuals p))) w)
    as (l & w' & Hrun & Hl & _); [by rewrite length_seq | apply NoDup_seq |].
  destruct l as [|r0 rest]; [simpl in Hl; lia|].
  assert (Hsel : Population.tournamentSelect k p w = Ok (Population.min_loop p rest r0, w')).
  { unfold Population.tournamentSelect, bind, sample. rewrite length_seq.
    destruct (Nat.ltb_spec (length (Population.individuals p)) k); [lia|]. by rewrite Hrun. }
  eexists _, _. split; [exact Hsel|]. split.
  - by eapply tournamentSelect_Ok.
  - by apply sample_from_frame in Hrun as [? _].
Qed.

Lemma tournamentSelect_small (k : nat) (p : Population.t) (w : World) :
  length (Population.individuals p) < k ->
  Population.tournamentSelect k p w = Raise ValueError.
Proof.
  intros Hk. unfold Population.tournamentSelect, bind, sample. rewrite length_seq.
  destruct (Nat.ltb_spec (length (Population.individuals p)) k); [done | lia].
Qed.

Lemma draw_breakpoint_frame (n k : nat) (w w' : World) :
  Conformation.draw_breakpoint n w = Ok (k, w') ->
  energyEvalSteps w' = energyEvalSteps w.
Proof.
  unfold Conformation.draw_breakpoint. destruct (0 <? n - 2); intros H; run_in H; [|done].
  unfold randint in Hrun. run_in Hrun. unfold draw in Hrun0. by injection Hrun0 as <- <-.
Qed.

Lemma Conformation_crossover_shaped (prot : Protein) (p1 p2 : Conformation.t) (w : World) :
  shaped prot p1 -> shaped prot p2 ->
  exists child w',
    Conformation.crossover p1 p2 true w = Ok (child, w')
    /\ shaped prot child
    /\ energyEvalSteps w' = energyEvalSteps w.
Proof.
  intros (Hp1 & Hl1 & Hn1 & He1 & Hf1) (Hp2 & Hl2 & Hn2 & He2 & Hf2).
  destruct (draw_breakpoint_Ok (Conformation.length p1) w) as (k & w1 & Hdraw & _ & Hk).
  destruct (crossover_at_child k p1 p2 true w1) as (child & w' & Hc & He & Hl & _ & Hp & _);
    [lia..|].
  exists child, w'. split; [|split].
  - unfold Conformation.crossover, bind. by rewrite Hdraw.
  - unfold shaped. split_and!; try congruence.
    + rewrite He, length_app, length_take, length_drop. lia.
    + rewrite He. apply Forall_app. split; [by apply Forall_take | by apply Forall_drop].
  - apply draw_breakpoint_frame in Hdraw. rewrite <- Hdraw.
    unfold Conformation.crossover_at in Hc. run_in Hc.
    by apply calcValidity_current in Hc as (_ & _ & ?).
Qed.

Lemma place_wellformed (child : Conformation.t) (owner other : nat) (p : Population.t) :
  shaped (Population.protein p) child ->
  up_to_date child ->
  wellformed p ->
  wellformed (Population.place child owner other p)
  /\ Population.protein (Population.place child owner other p) = Population.protein p.
Proof.
  intros Hs Hu Hw.
  destruct (place_cases child owner other p)
    as [[_ ->]|[(_ & _ & ->)|[(_ & _ & _ & ->)|(_ & _ & _ & ->)]]];
    (split; [|done]); try done;
    intros c Hc; cbn in Hc; apply elem_of_insert_inv in Hc as [->|Hc]; auto.
Qed.


Lemma offspring_total (child : Conformation.t) (owner other : nat) (p : Population.t)
    (w : World) :
  shaped (Population.protein p) child ->
  exists p' w',
    Population.offspring child owner other p w = Ok (p', w')
    /\ (wellformed p -> wellformed p')
    /\ Population.protein p' = Population.protein p
    /\ (energyEvalSteps w <= energyEvalSteps w' <= energyEvalSteps w + 1)%Z.
Proof.
  intros Hs. unfold Population.offspring.
  destruct (mutate_Ok (Population.mutProb p) _ child w Hs) as (c1 & w1 & Hm & Hs1 & _ & Hc1 & _).
  unfold bind at 1. rewrite Hm.
  destruct (calcValidity_total c1 w1) as (c2 & w2 & Hv);
    [destruct Hs1 as (_ & _ & ? & ? & _); lia..|].
  unfold bind at 1. rewrite Hv.
  pose proof (calcValidity_shaped _ _ _ _ _ Hv Hs1) as Hs2.
  apply calcValidity_current in Hv as (Hcur & _ & Hc2).
  unfold Conformation.isValid. destruct (Conformation.validState c2).
  - destruct (calcFitness_total _ c2 w2 Hs2 Hcur) as (c3 & w3 & Hf).
    unfold bind, ret. rewrite Hf.
    apply calcFitness_current in Hf as (Hu & Hc3 & Hcnt); [|done].
    assert (Hs3 : shaped (Population.protein p) c3) by (rewrite Hc3; exact Hs2).
    eexists _, _. split; [reflexivity|].
    split; [intros Hw; by apply place_wellformed|].
    split; [apply place_protein | lia].
  - eexists _, _. split; [reflexivity|]. split; [done|]. split; [done | lia].
Qed.

Lemma wellformed_fields (p p' : Population.t) :
  Population.individuals p' = Population.individuals p ->
  Population.protein p' = Population.protein p ->
  wellformed p -> wellformed p'.
Proof. intros Hi Hp Hw c Hc. rewrite Hp. apply Hw. by rewrite <- Hi. Qed.

(** A step of a well-formed population of at least three returns. *)
Lemma crossover_total (p : Population.t) (w : World) :
  wellformed p ->
  3 <= length (Population.individuals p) ->
  exists p' w',
    Population.crossover p w = Ok (p', w')
    /\ wellformed p'
    /\ Population.protein p' = Population.protein p
    /\ (energyEvalSteps w <= energyEvalSteps w' <= energyEvalSteps w + 2)%Z.
Proof.
  intros Hw Hlen. unfold Population.crossover.
  destruct (tournamentSelect_total 3 p w) as (r1 & w1 & Hsel1 & Hr1 & Hc1); [lia|].
  unfold bind at 1. rewrite Hsel1.
  destruct (random_Ok w1) as (u1 & w2 & Hu1 & Hc2 & _).
  unfold bind at 1. rewrite Hu1.
  destruct (Qlt_bool _ u1).
  { eexists _, _. split; [reflexivity|].
    split; [eapply wellformed_fields; [..|exact Hw]; done|]. split; [done | lia]. }
  destruct (tournamentSelect_total 3 (Population.set_parent1 r1 p) w2)
    as (r2 & w3 & Hsel2 & Hr2 & Hc3); [cbn; lia|].
  unfold bind at 1. rewrite Hsel2.
  destruct (random_Ok w3) as (u2 & w4 & Hu2 & Hc4 & _).
  unfold bind at 1. rewrite Hu2.
  destruct (Qlt_bool _ u2).
  { eexists _, _. split; [reflexivity|].
    split; [eapply wellformed_fields; [..|exact Hw]; done|]. split; [done | lia]. }
  set (p2 := Population.set_parent2 r2 (Population.set_parent1 r1 p)).
  assert (Hw2 : wellformed p2) by (eapply wellformed_fields; [..|exact Hw]; done).
  assert (Ho1 : shaped (Population.protein p) (Population.obj p2 r1))
    by (apply Hw, elem_of_individuals; eauto).
  assert (Ho2 : shaped (Population.protein p) (Population.obj p2 r2))
    by (apply Hw, elem_of_individuals; eauto).
  destruct (Conformation_crossover_shaped _ _ _ w4 Ho1 Ho2) as (ch1 & w5 & Hx1 & Hs1 & Hc5).
  unfold bind at 1. rewrite Hx1.
  destruct (Conformation_crossover_shaped _ _ _ w5 Ho2 Ho1) as (ch2 & w6 & Hx2 & Hs2 & Hc6).
  unfold bind at 1. rewrite Hx2.
  destruct (offspring_total ch1 r1 r2 p2 w6 Hs1) as (p3 & w7 & Hof1 & Hw3 & Hp3 & Hc7).
  unfold bind at 1. rewrite Hof1.
  destruct (offspring_total ch2 r2 r1 p3 w7) as (p4 & w8 & Hof2 & Hw4 & Hp4 & Hc8);
    [by rewrite Hp3|].
  unfold bind at 1. rewrite Hof2.
  eexists _, _. split; [reflexivity|].
  destruct (refresh_fittest_spec r1 r2 p4) as (t & -> & _).
  split; [eapply wellformed_fields; [..|exact (Hw4 (Hw3 Hw2))]; done|].
  split; [cbn; by rewrite Hp4, Hp3 | lia].
Qed.

Lemma crossover_small (p : Population.t) (w : World) :
  length (Population.individuals p) < 3 ->
  Population.crossover p w = Raise ValueError.
Proof.
  intros Hlen. unfold Population.crossover, bind.
  by rewrite tournamentSelect_small.
Qed.

Lemma crossover_wellformed (p p' : Population.t) (w w' : World) :
  Population.crossover p w = Ok (p', w') ->
  wellformed p ->
  3 <= length (Population.individuals p)
  /\ wellformed p'
  /\ Population.protein p' = Population.protein p
  /\ (energyEvalSteps w <= energyEvalSteps w' <= energyEvalSteps w + 2)%Z.
Proof.
  intros H Hw.
  destruct (decide (3 <= length (Population.individuals p))) as [Hlen|Hlen].
  - split; [done|].
    destruct (crossover_total p w Hw Hlen) as (p1 & w1 & Hrun & H1).
    rewrite Hrun in H. by injection H as <- <-.
  - rewrite crossover_small in H by lia. discriminate.
Qed.

Lemma fill_wellformed (fuel : nat) :
  forall (i : nat) (p p' : Population.t) (w w' : World),
    Population.fill fuel i p w = Ok (p', w') ->
    wellformed p ->
    wellformed p'
    /\ Population.protein p' = Population.protein p
    /\ Population.mutProb p' = Population.mutProb p
    /\ Population.crossProb p' = Population.crossProb p
    /\ (energyEvalSteps w + Z.of_nat (length (Population.individuals p'))
        - Z.of_nat (length (Population.individuals p)) <= energyEvalSteps w')%Z.
Proof.
  induction fuel as [|fuel IH]; intros i p p' w w' H Hw; cbn [Population.fill] in H.
  - destruct (Z.of_nat i <? Population.size p)%Z; [discriminate|].
    run_in H. split_and!; try done. lia.
  - destruct (Z.of_nat i <? Population.size p)%Z.
    2:{ run_in H. split_and!; try done. lia. }
    run_in H.
    apply Conformation_init_shaped in Hrun as (Hs & Hcur & _ & Hc0).
    apply calcFitness_current in Hrun0 as (Hu & Hc & Hcnt); [|done].
    assert (Hs' : shaped (Population.protein p) a0) by (rewrite Hc; exact Hs).
    destruct (_ && _).
    + apply IH in H as (H1 & H2 & H3 & H4 & H5).
      * split_and!; try done. cbn in H5. rewrite length_app in H5. simpl in H5. lia.
      * intros c Hc'. cbn in Hc'. apply elem_of_app in Hc' as [Hc'|Hc'].
        -- by apply Hw.
        -- apply list_elem_of_singleton in Hc' as ->. done.
    + apply IH in H as (H1 & H2 & H3 & H4 & H5); [|done].
      split_and!; try done. lia.
Qed.

Lemma Population_init_wellformed (fuel : nat) (size : Z) (prot : Protein)
    (mutProb crossProb : Q) (w w' : World) (p : Population.t) :
  Population.__init__ fuel size prot mutProb crossProb w = Ok (p, w') ->
  wellformed p
  /\ Population.protein p = prot
  /\ Population.mutProb p = mutProb
  /\ Population.crossProb p = crossProb
  /\ (energyEvalSteps w + size <= energyEvalSteps w')%Z.
Proof.
  intros Hinit. pose proof (Population_init_Ok _ _ _ _ _ _ _ _ Hinit) as ([Hcount _ _ _] & _ & Hsz).
  unfold Population.__init__ in Hinit. run_in Hinit.
  apply fill_wellformed in Hrun as (H1 & H2 & H3 & H4 & H5).
  2:{ intros c Hc. inversion Hc. }
  cbn in H2, H3, H4, H5.
  destruct (Population.individuals a) eqn:Hinds; [discriminate|]. run_in Hinit.
  cbn in Hcount, Hsz. rewrite Hinds in Hcount.
  split; [eapply wellformed_fields; [..|exact H1]; done|].
  split; [done|]. split; [done|]. split; [done | lia].
Qed.

Lemma generations_wellformed (p p' : Population.t) :
  generations p p' ->
  wellformed p ->
  wellformed p' /\ Population.protein p' = Population.protein p.
Proof.
  induction 1 as [p|p p1 p2 w w' Hstep _ IH]; intros Hw; [done|].
  apply crossover_wellformed in Hstep as (_ & Hw1 & Hp1 & _); [|done].
  destruct (IH Hw1) as [Hw2 Hp2]. split; [done | congruence].
Qed.

(** *** Geometry of the walk *)

Lemma alphabet_symbols (l : list Z) :
  Forall alphabet l -> exists syms, l = map code syms.
Proof.
  induction 1 as [|d l Hd _ [syms ->]]; [by exists []|].
  destruct Hd as [->|[->| ->]];
    [exists (SLEFT :: syms) | exists (SFORWARD :: syms) | exists (SRIGHT :: syms)]; done.
Qed.

Lemma advance_unit (h : heading) (p : Z * Z) :
  manhattan p (advance h p) = 1%Z
  /\ exists m : Z, ((advance h p).1 + (advance h p).2 = p.1 + p.2 + 1 + 2 * m)%Z.
Proof.
  unfold manhattan. destruct h; cbn; (split; [lia|]);
    [exists 0%Z | exists (-1)%Z | exists 0%Z | exists (-1)%Z]; lia.
Qed.

(** Residue [k] of the walk after [p]: one step from its predecessor, and on
    the colour of the chessboard that [k] steps from [p] lead to. *)
Lemma spec_walk_steps (syms : list symbol) :
  forall (h : heading) (p : Z * Z) (k : nat) (q : Z * Z),
    spec_walk h p syms !! k = Some q ->
    (exists m : Z, (q.1 + q.2 = p.1 + p.2 + Z.of_nat (S k) + 2 * m)%Z)
    /\ (forall q0, (p :: spec_walk h p syms) !! k = Some q0 -> manhattan q0 q = 1%Z).
Proof.
  induction syms as [|s syms IH]; intros h p k q Hq; [done|].
  cbn [spec_walk] in Hq |- *.
  destruct (advance_unit (new_heading h s) p) as [Hm [m0 Hpar]].
  destruct k as [|k].
  - injection Hq as <-. split; [exists m0; lia|]. intros q0 [= <-]. exact Hm.
  - change (spec_walk (new_heading h s) (advance (new_heading h s) p) syms !! k = Some q) in Hq.
    destruct (IH _ _ _ _ Hq) as [[m Hm'] Hstep]. split.
    + exists (m + m0)%Z. lia.
    + intros q0 Hq0. apply Hstep. exact Hq0.
Qed.

Lemma spec_positions_steps (syms : list symbol) (k : nat) (q : Z * Z) :
  spec_positions syms !! k = Some q ->
  (exists m : Z, (q.1 + q.2 = Z.of_nat k + 2 * m)%Z)
  /\ (forall p, spec_positions syms !! S k = Some p -> manhattan q p = 1%Z).
Proof.
  unfold spec_positions. intros Hq. split.
  - destruct k as [|[|k]].
    + injection Hq as <-. exists 0%Z. cbn. lia.
    + injection Hq as <-. exists 0%Z. cbn. lia.
    + change (spec_walk Up (0, 1)%Z syms !! k = Some q) in Hq.
      apply spec_walk_steps in Hq as [[m Hm] _]. exists m. cbn [fst snd] in Hm. lia.
  - intros p Hp. destruct k as [|k].
    + injection Hq as <-. injection Hp as <-. done.
    + change (spec_walk Up (0, 1)%Z syms !! k = Some p) in Hp.
      change (((0, 1)%Z :: spec_walk Up (0, 1)%Z syms) !! k = Some q) in Hq.
      apply spec_walk_steps in Hp as [_ Hstep]. by apply Hstep.
Qed.

Lemma manhattan_one_parity (p q : Z * Z) (i j : nat) (m n : Z) :
  (p.1 + p.2 = Z.of_nat i + 2 * m)%Z ->
  (q.1 + q.2 = Z.of_nat j + 2 * n)%Z ->
  manhattan p q = 1%Z ->
  i <= j ->
  Nat.Odd (j - i).
Proof.
  unfold manhattan. intros Hp Hq Hm Hij.
  assert (H : exists k : Z, (Z.of_nat (j - i) = 2 * k + 1)%Z).
  { destruct (Z.abs_spec (p.1 - q.1)) as [[? ?]|[? ?]],
             (Z.abs_spec (p.2 - q.2)) as [[? ?]|[? ?]].
    - exists (m - n - 1)%Z. lia.
    - exists (m - n - (p.2 - q.2) - 1)%Z. lia.
    - exists (m - n - (p.1 - q.1) - 1)%Z. lia.
    - exists (m - n)%Z. lia. }
  destruct H as [k Hk]. exists (Z.to_nat k). lia.
Qed.

(** The positions of a well-formed, up-to-date conformation are the walk of
    its symbols. *)
Lemma up_to_date_walk (prot : Protein) (c : Conformation.t) :
  shaped prot c ->
  Conformation.calcAbsolutePositions c = Ok c ->
  exists syms, Conformation.encoding c = map code syms
               /\ length syms + 2 = getLength prot
               /\ Conformation.absPositions c = spec_positions syms.
Proof.
  intros (Hp & Hl & Hn & He & Hf) Hpos.
  destruct (alphabet_symbols _ Hf) as [syms Hsyms].
  assert (Hlen : length syms + 2 = getLength prot).
  { rewrite Hsyms, length_map in He. lia. }
  exists syms. split; [done|]. split; [done|].
  rewrite (calcAbsolutePositions_spec c syms) in Hpos by (try done; lia).
  injection Hpos as Hpos. by rewrite <- Hpos at 1.
Qed.

(** *** Contacts of a walk *)

Lemma spec_walk_length (syms : list symbol) :
  forall (h : heading) (p : Z * Z), length (spec_walk h p syms) = length syms.
Proof.
  induction syms as [|s syms IH]; intros h p; [done|].
  cbn [spec_walk length]. f_equal. apply IH.
Qed.

Lemma spec_positions_length (syms : list symbol) :
  length (spec_positions syms) = length syms + 2.
Proof. unfold spec_positions. cbn [length]. rewrite spec_walk_length. lia. Qed.

Lemma walk_contact_odd (syms : list symbol) (prot : Protein) (n i j : nat) :
  In (i, j) (contacts prot (spec_positions syms) n) ->
  n <= length (spec_positions syms) ->
  Nat.Odd (j - i) /\ i + 3 <= j.
Proof.
  unfold contacts. rewrite filter_In, in_prod_iff, !in_seq. unfold is_contact. cbn [fst snd].
  rewrite !andb_true_iff, Nat.leb_le, Z.eqb_eq. intros ([Hi Hj] & ((Hij & _) & _) & Hm) Hn.
  unfold position in Hm.
  destruct (lookup_lt_is_Some_2 (spec_positions syms) i) as [p Hp]; [lia|].
  destruct (lookup_lt_is_Some_2 (spec_positions syms) j) as [q Hq]; [lia|].
  rewrite Hp, Hq in Hm. cbn [default] in Hm.
  destruct (spec_positions_steps syms i p Hp) as [[m Hpm] _].
  destruct (spec_positions_steps syms j q Hq) as [[m' Hqm] _].
  pose proof (manhattan_one_parity p q i j m m' Hpm Hqm Hm ltac:(lia)) as Hodd.
  split; [done|]. destruct Hodd as [k Hk]. lia.
Qed.

Lemma shaped_contact_odd (prot : Protein) (c : Conformation.t) (i j : nat) :
  shaped prot c ->
  Conformation.calcAbsolutePositions c = Ok c ->
  In (i, j) (contacts prot (Conformation.absPositions c) (Conformation.length c)) ->
  Nat.Odd (j - i) /\ i + 3 <= j.
Proof.
  intros Hs Hpos Hin.
  destruct (up_to_date_walk prot c Hs Hpos) as (syms & _ & Hlen & Habs).
  destruct Hs as (_ & Hl & _).
  rewrite Habs in Hin. apply (walk_contact_odd syms prot (Conformation.length c)); [done|].
  rewrite spec_positions_length. lia.
Qed.

(** X3: two residues counted as a contact in a well-formed conformation with
    current positions are an odd number of places apart along the chain, at
    least three: residues two places apart are never counted. *)
Theorem contacts_have_odd_separation (prot : Protein) (c : Conformation.t) (i j : nat) :
  shaped prot c ->
  Conformation.calcAbsolutePositions c = Ok c ->
  In (i, j) (contacts prot (Conformation.absPositions c) (Conformation.length c)) ->
  Nat.Odd (j - i) /\ i + 3 <= j.
Proof. apply shaped_contact_odd. Qed.

(** X4: in the positions [calcAbsolutePositions] returns for an encoding over
    the alphabet, consecutive residues are exactly one lattice step apart. *)
Theorem walk_steps_adjacent (prot : Protein) (c c' : Conformation.t) (i : nat) (p q : Z * Z) :
  shaped prot c ->
  Conformation.calcAbsolutePositions c = Ok c' ->
  Conformation.absPositions c' !! i = Some p ->
  Conformation.absPositions c' !! S i = Some q ->
  manhattan p q = 1%Z.
Proof.
  intros (Hp & Hl & Hn & He & Hf) Hpos Hi Hj.
  destruct (alphabet_symbols _ Hf) as [syms Hsyms].
  rewrite (calcAbsolutePositions_spec c syms) in Hpos.
  - injection Hpos as <-. cbn in Hi, Hj.
    by apply (proj2 (spec_positions_steps syms i p Hi)).
  - done.
  - rewrite Hsyms, length_map in He. lia.
Qed.

(** *** The straight walk *)

Lemma straight_walk_lookup (n : nat) :
  forall (p : Z * Z) (k : nat),
    k < n ->
    spec_walk Up p (replicate n SFORWARD) !! k = Some (p.1, (p.2 + Z.of_nat (S k))%Z).
Proof.
  induction n as [|n IH]; intros p k Hk; [lia|].
  cbn [replicate spec_walk new_heading advance]. destruct k as [|k].
  - cbn. do 2 f_equal.
  - change (spec_walk Up (p.1, (p.2 + 1)%Z) (replicate n SFORWARD) !! k
            = Some (p.1, (p.2 + Z.of_nat (S (S k)))%Z)).
    rewrite IH by lia. cbn [fst snd]. do 2 f_equal. lia.
Qed.

Lemma straight_positions_lookup (n i : nat) :
  i < n + 2 ->
  spec_positions (replicate n SFORWARD) !! i = Some (0%Z, Z.of_nat i).
Proof.
  intros Hi. unfold spec_positions. destruct i as [|[|i]]; [done..|].
  change (spec_walk Up (0, 1)%Z (replicate n SFORWARD) !! i = Some (0%Z, Z.of_nat (S (S i)))).
  rewrite straight_walk_lookup by lia. cbn [fst snd]. do 2 f_equal. lia.
Qed.

Lemma map_code_forward (n : nat) :
  replicate n FORWARD = map code (replicate n SFORWARD).
Proof. induction n as [|n IH]; [done|]. cbn. by rewrite IH. Qed.

(** X5: the all-FORWARD encoding of any sequence of at least two residues
    (the encoding a conformation has when built without a collision set) is
    valid, places residue [i] at [(0, i)], and has fitness 0 whatever the
    residues are. *)
Theorem straight_walk_scores_zero (prot : Protein) (c : Conformation.t) (w : World) :
  Conformation.protein c = Some prot ->
  Conformation.length c = getLength prot ->
  2 <= Conformation.length c ->
  Conformation.encoding c = replicate (Conformation.length c - 2) FORWARD ->
  exists (c1 : Conformation.t) (w1 : World) (c2 : Conformation.t) (w2 : World),
    Conformation.calcValidity c w = Ok (c1, w1)
    /\ Conformation.validState c1 = true
    /\ (forall i, i < Conformation.length c ->
          Conformation.absPositions c1 !! i = Some (0%Z, Z.of_nat i))
    /\ Conformation.calcFitness c1 w1 = Ok (c2, w2)
    /\ Conformation.fitness c2 = 0%Z.
Proof.
  intros Hp Hl Hn He.
  set (n := Conformation.length c - 2) in *.
  assert (Hspec : Conformation.calcAbsolutePositions c
                  = Ok (Conformation.set_absPositions (spec_positions (replicate n SFORWARD)) c)).
  { apply calcAbsolutePositions_spec; [by rewrite He, map_code_forward|].
    rewrite length_replicate. lia. }
  assert (Hlook : forall i, i < Conformation.length c ->
            spec_positions (replicate n SFORWARD) !! i = Some (0%Z, Z.of_nat i))
    by (intros i Hi; apply straight_positions_lookup; lia).
  assert (Hnd : NoDup (spec_positions (replicate n SFORWARD))).
  { apply NoDup_alt. intros i j p Hi Hj.
    pose proof (lookup_lt_Some _ _ _ Hi) as Hi'. pose proof (lookup_lt_Some _ _ _ Hj) as Hj'.
    rewrite spec_positions_length, length_replicate in Hi', Hj'.
    rewrite Hlook in Hi by lia. rewrite Hlook in Hj by lia.
    rewrite <- Hi in Hj. injection Hj as Hj. lia. }
  destruct (calcValidity_total c w Hn) as (c1 & w1 & Hv); [rewrite He, length_replicate; lia|].
  pose proof Hv as Hv'.
  apply calcValidity_Ok in Hv' as (c0 & Hpos & Hc1 & _).
  rewrite Hspec in Hpos. injection Hpos as <-. cbn in Hc1.
  rewrite bool_decide_eq_true_2 in Hc1 by done. subst c1.
  assert (Hs : shaped prot c).
  { unfold shaped. split_and!; try done; [by rewrite He, length_replicate|].
    rewrite He. apply Forall_replicate. right. by left. }
  assert (Hcur : positions_current
                   (Conformation.set_validState true
                      (Conformation.set_absPositions (spec_positions (replicate n SFORWARD)) c)))
    by (by apply calcValidity_current in Hv as (? & _)).
  eexists _, w1, _, _. split; [exact Hv|]. split; [done|]. split; [exact Hlook|].
  unfold Conformation.calcFitness.
  rewrite (fitness_outer_count _ prot).
  2:{ exact Hp. }
  2:{ exact (eq_sym Hl). }
  2:{ change (length (spec_positions (replicate n SFORWARD)) = Conformation.length c).
      rewrite spec_positions_length, length_replicate. lia. }
  2:{ intros i Hi. apply list_elem_of_In, in_seq in Hi.
      change (0 <= i < 0 + Conformation.length c) in Hi.
      change (i < Conformation.length c). lia. }
  split; [reflexivity|].
  change (0 - Z.of_nat (length (List.filter
            (is_contact prot (spec_positions (replicate n SFORWARD)))
            (list_prod (seq 0 (Conformation.length c)) (seq 0 (Conformation.length c)))))
          = 0)%Z.
  rewrite filter_none; [done|].
  intros [i j] Hin. apply in_prod_iff in Hin as [Hi Hj]. apply in_seq in Hi, Hj.
  unfold is_contact, position. cbn [fst snd].
  rewrite !Hlook by lia. cbn [default].
  destruct (Nat.leb_spec (i + 2) j); [|done].
  rewrite andb_false_intro2; [done|]. apply Z.eqb_neq. unfold manhattan. cbn. lia.
Qed.

(** *** Reachable populations *)

Lemma generations_admissible (p p' : Population.t) :
  generations p p' ->
  admissible p ->
  admissible p' /\ Population.size p' = Population.size p.
Proof.
  induction 1 as [p|p p1 p2 w w' Hstep _ IH]; intros Hadm; [done|].
  apply crossover_admissible in Hstep as [Hadm1 Hsz1]; [|done].
  destruct (IH Hadm1) as [Hadm2 Hsz2]. split; [done | congruence].
Qed.

Lemma reachable_population (fuel : nat) (size : Z) (prot : Protein) (mutProb crossProb : Q)
    (w w' : World) (p p' : Population.t) :
  Population.__init__ fuel size prot mutProb crossProb w = Ok (p, w') ->
  generations p p' ->
  admissible p' /\ wellformed p' /\ Population.protein p' = prot
  /\ Population.size p' = size.
Proof.
  intros Hinit Hgen.
  destruct (Population_init_Ok _ _ _ _ _ _ _ _ Hinit) as (Hadm & _ & Hsz).
  destruct (Population_init_wellformed _ _ _ _ _ _ _ _ Hinit) as (Hw & Hp & _).
  destruct (generations_admissible _ _ Hgen Hadm) as [Hadm' Hsz'].
  destruct (generations_wellformed _ _ Hgen Hw) as [Hw' Hp'].
  split_and!; try done; congruence.
Qed.

Lemma recompute_unchanged (c : Conformation.t) (w : World) :
  up_to_date c ->
  Conformation.validState c = true ->
  exists w1 w2,
    Conformation.calcValidity c w = Ok (c, w1)
    /\ Conformation.calcFitness c w1 = Ok (c, w2).
Proof.
  intros (Hpos & Hv & Hf) Hvalid.
  assert (Hnd : NoDup (Conformation.absPositions c))
    by (rewrite Hv in Hvalid; by apply bool_decide_eq_true in Hvalid).
  assert (E1 : Conformation.set_validState (Conformation.validState c) c = c)
    by (by destruct c).
  rewrite Hvalid in E1.
  assert (E2 : Conformation.set_fitness (Conformation.fitness c) c = c) by (by destruct c).
  unfold Conformation.calcValidity, bind, lift. rewrite Hpos.
  destruct (proj2 (scan_NoDup _) Hnd) as [seen ->].
  unfold Conformation.calcFitness. rewrite Hf, E1, E2.
  eexists _, _. split; reflexivity.
Qed.

(** X6: no member of a population is ever stale.  After construction and
    after any number of generation steps, each individual's encoding is a
    sequence of [length - 2] turn symbols, its positions are the walk of that
    encoding, its fitness is minus the number of its hydrophobic contacts, and
    recomputing validity and fitness returns it unchanged. *)
Theorem members_never_stale (fuel : nat) (size : Z) (prot : Protein) (mutProb crossProb : Q)
    (w w' : World) (p p' : Population.t) (c : Conformation.t) :
  Population.__init__ fuel size prot mutProb crossProb w = Ok (p, w') ->
  generations p p' ->
  c ∈ Population.individuals p' ->
  (exists syms : list symbol,
      Conformation.encoding c = map code syms
      /\ length syms + 2 = getLength prot
      /\ Conformation.absPositions c = spec_positions syms)
  /\ Conformation.protein c = Some prot
  /\ Conformation.length c = getLength prot
  /\ Conformation.fitness c
     = (- Z.of_nat (length (contacts prot (Conformation.absPositions c) (getLength prot))))%Z
  /\ forall w0 : World,
       exists w1 w2,
         Conformation.calcValidity c w0 = Ok (c, w1)
         /\ Conformation.calcFitness c w1 = Ok (c, w2).
Proof.
  intros Hinit Hgen Hc.
  destruct (reachable_population _ _ _ _ _ _ _ _ _ Hinit Hgen) as ([_ Hmem _ _] & Hw & Hp & _).
  destruct (Hw c Hc) as [Hs Hu]. rewrite Hp in Hs.
  destruct (Hmem c Hc) as [[Hvalid Hnd] _].
  destruct Hu as (Hpos & Hv & Hf).
  destruct (up_to_date_walk prot c Hs Hpos) as (syms & He & Hlen & Habs).
  pose proof Hs as (Hpc & Hl & Hn & _).
  split; [eauto|]. split; [done|]. split; [done|]. split.
  - rewrite (fitness_outer_count c prot) in Hf; try done.
    + injection Hf as Hf. rewrite <- Hf. unfold contacts. rewrite Hl. lia.
    + rewrite Habs, spec_positions_length. lia.
    + intros i Hi. apply list_elem_of_In, in_seq in Hi. lia.
  - intros w0. by apply recompute_unchanged.
Qed.

(** X7: the individuals of a population are pairwise different under the
    class's own comparison: after construction and after any number of
    generation steps, [__ne__] of two individuals in different slots is
    [True]. *)
Theorem members_pairwise_ne (fuel : nat) (size : Z) (prot : Protein) (mutProb crossProb : Q)
    (w w' : World) (p p' : Population.t) (i j : nat) (a b : Conformation.t) :
  Population.__init__ fuel size prot mutProb crossProb w = Ok (p, w') ->
  generations p p' ->
  i <> j ->
  Population.individuals p' !! i = Some a ->
  Population.individuals p' !! j = Some b ->
  Conformation.__ne__ a b = Ok true /\ Conformation.__eq__ a b = Ok false.
Proof.
  intros Hinit Hgen Hij Ha Hb.
  destruct (reachable_population _ _ _ _ _ _ _ _ _ Hinit Hgen) as ([_ _ Huniq _] & Hw & _).
  destruct (Hw a (list_elem_of_lookup_2 _ _ _ Ha)) as [(_ & _ & _ & Hea & _) _].
  destruct (Hw b (list_elem_of_lookup_2 _ _ _ Hb)) as [(_ & _ & _ & Heb & _) _].
  assert (Hne : Conformation.encoding a <> Conformation.encoding b).
  { intros Henc. apply Hij. unfold encoding_strings in Huniq.
    apply (proj1 (NoDup_alt _) Huniq i j (Conformation.getConformationString a)).
    - by rewrite list_lookup_fmap, Ha.
    - rewrite list_lookup_fmap, Hb. cbn. unfold Conformation.getConformationString.
      by rewrite Henc. }
  unfold Conformation.__ne__. rewrite (eq_spec a b Hea Heb).
  rewrite bool_decide_eq_false_2 by tauto. done.
Qed.

(** X8: once a population of at least three has been constructed, a
    generation step always returns: it raises nothing and needs no fuel,
    however many steps came before and whatever is drawn. *)
Theorem generation_step_returns (fuel : nat) (size : Z) (prot : Protein)
    (mutProb crossProb : Q) (w w' w0 : World) (p p' : Population.t) :
  Population.__init__ fuel size prot mutProb crossProb w = Ok (p, w') ->
  (3 <= size)%Z ->
  generations p p' ->
  exists p'' w'', Population.crossover p' w0 = Ok (p'', w'').
Proof.
  intros Hinit Hsz Hgen.
  destruct (reachable_population _ _ _ _ _ _ _ _ _ Hinit Hgen)
    as ([Hcount _ _ _] & Hw & _ & Hsz').
  destruct (crossover_total p' w0 Hw) as (p'' & w'' & Hrun & _); [lia|]. eauto.
Qed.

(** X9: a population constructed with fewer than three individuals cannot
    take a generation step: the tournament of three raises ValueError, and
    nothing in the population changes. *)
Theorem small_population_step_raises (fuel : nat) (size : Z) (prot : Protein)
    (mutProb crossProb : Q) (w w' w0 : World) (p p' : Population.t) :
  Population.__init__ fuel size prot mutProb crossProb w = Ok (p, w') ->
  (size < 3)%Z ->
  generations p p' ->
  p' = p /\ Population.crossover p w0 = Raise ValueError.
Proof.
  intros Hinit Hsz Hgen.
  destruct (Population_init_Ok _ _ _ _ _ _ _ _ Hinit) as ([Hcount _ _ _] & _ & Hsz').
  assert (Hsmall : forall w1, Population.crossover p w1 = Raise ValueError)
    by (intros w1; apply crossover_small; lia).
  split; [|done].
  destruct Hgen as [p|p p1 p2 w1 w1' Hstep _]; [done|].
  rewrite Hsmall in Hstep. discriminate.
Qed.

(** *** What a generation step leaves alone *)

(** X10: a generation step that returns has chosen two individuals [r1] and
    [r2]; it records the first in [parent1], keeps the number of individuals,
    the sequence, the size and both probabilities, leaves every other
    individual exactly as it was, never raises the fitness of any individual,
    and never removes a string from the index. *)
Theorem generation_step_frame (p p' : Population.t) (w w' : World) :
  Population.crossover p w = Ok (p', w') ->
  exists r1 r2 : nat,
    r1 < length (Population.individuals p)
    /\ r2 < length (Population.individuals p)
    /\ Population.parent1 p' = Some r1
    /\ (Population.parent2 p' = Some r2 \/ Population.parent2 p' = Population.parent2 p)
    /\ length (Population.individuals p') = length (Population.individuals p)
    /\ Population.protein p' = Population.protein p
    /\ Population.size p' = Population.size p
    /\ Population.mutProb p' = Population.mutProb p
    /\ Population.crossProb p' = Population.crossProb p
    /\ (forall i, i <> r1 -> i <> r2 ->
          Population.individuals p' !! i = Population.individuals p !! i)
    /\ (forall i c c',
          Population.individuals p !! i = Some c ->
          Population.individuals p' !! i = Some c' ->
          (Conformation.fitness c' <= Conformation.fitness c)%Z)
    /\ Population.setOfConformations p ⊆ Population.setOfConformations p'.
Proof.
  unfold Population.crossover. intros H. run_in H.
  pose proof (tournamentSelect_Ok _ _ _ _ _ Hrun) as Hr1.
  destruct (Qlt_bool _ a0).
  { run_in H. exists a, a. split_and!; auto. intros i c c' Hc Hc'. cbn in Hc'.
    rewrite Hc in Hc'. injection Hc' as <-. lia. }
  run_in H.
  pose proof (tournamentSelect_Ok _ _ _ _ _ Hrun1) as Hr2. cbn in Hr2.
  exists a, a1. split; [done|]. split; [done|].
  destruct (Qlt_bool _ a2).
  { run_in H. split_and!; auto. intros i c c' Hc Hc'. cbn in Hc'.
    rewrite Hc in Hc'. injection Hc' as <-. lia. }
  run_in H.
  destruct (offspring_fields _ _ _ _ _ _ _ Hrun5) as (F1 & F2 & F3 & F4 & F5).
  destruct (offspring_fields _ _ _ _ _ _ _ Hrun6) as (G1 & G2 & G3 & G4 & G5).
  apply offspring_refines in Hrun5, Hrun6. apply refines_sym in Hrun6.
  pose proof (refines_trans _ _ _ _ _ Hrun5 Hrun6) as (R1 & _ & R3 & R4 & R5 & R6 & _).
  destruct (refresh_fittest_spec a a1 a6) as (t & -> & _).
  cbn in *. split_and!; try congruence; auto.
  - left. congruence.
  - intros i Hi1 Hi2. specialize (R5 i Hi1 Hi2). unfold Population.obj in R5. cbn in R5.
    destruct (decide (i < length (Population.individuals p))) as [Hlt|Hge].
    + destruct (lookup_lt_is_Some_2 _ _ Hlt) as [c Hc].
      destruct (lookup_lt_is_Some_2 (Population.individuals a6) i) as [c' Hc']; [lia|].
      rewrite Hc, Hc' in *. cbn in R5. by rewrite R5.
    + rewrite !lookup_ge_None_2 by lia. done.
  - intros i c c' Hc Hc'. specialize (R6 i). unfold Population.obj in R6. cbn in R6.
    by rewrite Hc, Hc' in R6.
Qed.


(** *** isInsertable and setFittest *)

(** X12: [isInsertable] answers whether the candidate's string is new and
    registers it; asked again, it answers no and changes nothing.  The
    individuals are not touched and the index never loses a string. *)
Theorem isInsertable_registers_once (candidate : Conformation.t) (p : Population.t) :
  let s := Conformation.getConformationString candidate in
  let fresh := (Population.isInsertable candidate p).1 in
  let p' := (Population.isInsertable candidate p).2 in
  (fresh = true <-> s ∉ Population.setOfConformations p)
  /\ s ∈ Population.setOfConformations p'
  /\ Population.setOfConformations p ⊆ Population.setOfConformations p'
  /\ Population.individuals p' = Population.individuals p
  /\ Population.isInsertable candidate p' = (false, p')
  /\ (fresh = false -> p' = p).
Proof.
  unfold Population.isInsertable. cbn zeta.
  destruct (decide (Conformation.getConformationString candidate
                    ∈ Population.setOfConformations p)) as [Hin|Hnin]; cbn [fst snd].
  - split_and!; try done.
    destruct (decide _) as [|Hn]; [done | by destruct Hn].
  - cbn. split_and!; try done; try set_solver.
    destruct (decide _) as [|Hn]; [done | exfalso; apply Hn; set_solver].
Qed.

Lemma setFittest_loop_stable (p : Population.t) (todo : list nat) (best : nat) :
  (forall r, r ∈ todo ->
     (Conformation.getFitness (Population.obj p best)
      <= Conformation.getFitness (Population.obj p r))%Z) ->
  Population.setFittest_loop p todo best = best.
Proof.
  induction todo as [|r todo IH]; intros Hmin; cbn [Population.setFittest_loop]; [done|].
  destruct (Z.ltb_spec (Conformation.getFitness (Population.obj p r))
              (Conformation.getFitness (Population.obj p best))) as [Hlt|Hge].
  - specialize (Hmin r ltac:(left)). lia.
  - apply IH. intros r' Hr'. apply Hmin. by right.
Qed.

(** X13: [setFittest] makes [theFittest] refer to an individual of lowest
    fitness whenever it referred to an individual at all, and changes nothing
    when it already referred to one of lowest fitness (a tie never moves
    it). *)
Theorem setFittest_selects_minimum (p : Population.t) :
  Population.theFittest p < length (Population.individuals p) ->
  fittest_minimal (Population.setFittest p)
  /\ Population.individuals (Population.setFittest p) = Population.individuals p
  /\ (fittest_minimal p -> Population.setFittest p = p).
Proof.
  intros Hlt. split; [|split; [done|]].
  - unfold fittest_minimal, Population.setFittest, Population.getFittest. cbn.
    destruct (setFittest_loop_spec p (seq 0 (length (Population.individuals p)))
                (Population.theFittest p)) as [Hin Hmin].
    split.
    + apply elem_of_cons in Hin as [->|Hin]; [done|].
      apply list_elem_of_In, in_seq in Hin. lia.
    + intros c Hc. apply elem_of_individuals in Hc as (i & Hi & ->).
      change (Population.obj (Population.set_theFittest _ p)) with (Population.obj p).
      apply Hmin. right. apply list_elem_of_In, in_seq. lia.
  - intros [_ Hmin]. unfold Population.setFittest.
    rewrite setFittest_loop_stable; [by destruct p|].
    intros r Hr. apply list_elem_of_In, in_seq in Hr.
    apply Hmin, elem_of_individuals. exists r. split; [lia | done].
Qed.

(** *** Construction that cannot succeed *)

(** X14: a population of size zero or less cannot be constructed: the loop
    is skipped and reading [individuals[0]] raises IndexError. *)
Theorem init_without_size_raises (fuel : nat) (size : Z) (prot : Protein)
    (mutProb crossProb : Q) (w : World) :
  (size <= 0)%Z ->
  Population.__init__ fuel size prot mutProb crossProb w = Raise IndexError.
Proof.
  intros Hsz. unfold Population.__init__.
  assert (Hfill : forall w0,
            Population.fill fuel 0 (Population.mk None None mutProb crossProb prot size ∅ [] 0) w0
            = Ok (Population.mk None None mutProb crossProb prot size ∅ [] 0, w0)).
  { intros w0. destruct fuel; cbn [Population.fill Population.size];
      destruct (Z.ltb_spec (Z.of_nat 0) size); try lia; reflexivity. }
  unfold bind. by rewrite Hfill.
Qed.

Lemma no_contact_fitness (prot : Protein) (c : Conformation.t) :
  (forall i j, i + 3 <= j -> hydrophobic prot i = true -> hydrophobic prot j = true ->
               Nat.Even (j - i)) ->
  shaped prot c ->
  up_to_date c ->
  Conformation.fitness c = 0%Z.
Proof.
  intros Hpar Hs (Hpos & _ & Hf).
  pose proof Hs as (Hp & Hl & Hn & _).
  destruct (up_to_date_walk prot c Hs Hpos) as (syms & _ & Hlen & Habs).
  rewrite (fitness_outer_count c prot) in Hf; try done.
  - injection Hf as <-. rewrite filter_none; [done|].
    intros [i j] Hin. destruct (is_contact prot (Conformation.absPositions c) (i, j)) eqn:Hc;
      [|done]. exfalso.
    assert (Hin' : In (i, j) (contacts prot (Conformation.absPositions c)
                                (Conformation.length c)))
      by (unfold contacts; by apply filter_In).
    destruct (shaped_contact_odd prot c i j Hs Hpos Hin') as [Hodd Hij].
    unfold is_contact in Hc. cbn [fst snd] in Hc.
    apply andb_true_iff in Hc as [Hc _]. apply andb_true_iff in Hc as [Hc Hj].
    apply andb_true_iff in Hc as [_ Hi].
    apply (Nat.Even_Odd_False (j - i)); [by apply Hpar | done].
  - rewrite Habs, spec_positions_length. lia.
  - intros i Hi. apply list_elem_of_In, in_seq in Hi. lia.
Qed.

Lemma fill_starves (prot : Protein) (fuel : nat) :
  (forall i j, i + 3 <= j -> hydrophobic prot i = true -> hydrophobic prot j = true ->
               Nat.Even (j - i)) ->
  2 <= getLength prot ->
  forall (i : nat) (p : Population.t) (w : World),
    Population.protein p = prot ->
    (Z.of_nat i < Population.size p)%Z ->
    Population.fill fuel i p w = OutOfFuel.
Proof.
  intros Hpar Hn. induction fuel as [|fuel IH]; intros i p w Hp Hsz;
    cbn [Population.fill]; destruct (Z.ltb_spec (Z.of_nat i) (Population.size p)); try lia;
    [done|].
  rewrite Hp.
  destruct (Conformation_init_no_raise fuel prot w Hn) as [[[c w1] Hinit]|Hinit];
    unfold bind at 1; rewrite Hinit; [|done].
  apply Conformation_init_shaped in Hinit as (Hs & Hcur & _).
  destruct (calcFitness_total prot c w1 Hs Hcur) as (c' & w2 & Hfit).
  unfold bind at 1. rewrite Hfit.
  apply calcFitness_current in Hfit as (Hu & Hc & _); [|done].
  assert (Hs' : shaped prot c') by (rewrite Hc; exact Hs).
  unfold Conformation.getFitness.
  rewrite (no_contact_fitness prot c' Hpar Hs' Hu). cbn [Z.eqb negb andb].
  by apply IH.
Qed.

(** X15: when no two hydrophobic residues of the sequence are an odd number
    of places (three or more) apart, every conformation scores 0 and none is
    ever admitted: constructing a population of positive size never returns,
    whatever the fuel. *)
Theorem init_starves_without_contacts (fuel : nat) (size : Z) (prot : Protein)
    (mutProb crossProb : Q) (w : World) :
  2 <= getLength prot ->
  (1 <= size)%Z ->
  (forall i j, i + 3 <= j -> hydrophobic prot i = true -> hydrophobic prot j = true ->
               Nat.Even (j - i)) ->
  Population.__init__ fuel size prot mutProb crossProb w = OutOfFuel.
Proof.
  intros Hn Hsz Hpar. unfold Population.__init__, bind.
  rewrite (fill_starves prot fuel Hpar Hn); [done..|]. cbn. lia.
Qed.

(** *** Crossover and mutation, locus by locus *)

(** X16: every locus of a crossover child is the locus of one of its parents
    at the same place, so a locus on which the parents agree is inherited
    unchanged; in particular the child of two equal encodings has that
    encoding. *)
Theorem crossover_inherits_loci (prot : Protein) (A B : Conformation.t) (sp : bool)
    (w : World) :
  shaped prot A ->
  shaped prot B ->
  exists child w',
    Conformation.crossover A B sp w = Ok (child, w')
    /\ (forall i v, Conformation.encoding child !! i = Some v ->
          Conformation.encoding A !! i = Some v \/ Conformation.encoding B !! i = Some v)
    /\ (forall i, Conformation.encoding A !! i = Conformation.encoding B !! i ->
          Conformation.encoding child !! i = Conformation.encoding A !! i)
    /\ (Conformation.encoding A = Conformation.encoding B ->
        Conformation.encoding child = Conformation.encoding A).
Proof.
  intros (Hp1 & Hl1 & Hn1 & He1 & Hf1) (Hp2 & Hl2 & Hn2 & He2 & Hf2).
  destruct (draw_breakpoint_Ok (Conformation.length A) w) as (k & w1 & Hdraw & _ & Hk).
  destruct (crossover_at_child k A B sp w1) as (child & w' & Hc & He & _); [lia..|].
  exists child, w'. split; [unfold Conformation.crossover, bind; by rewrite Hdraw|].
  assert (Hlook : forall i, Conformation.encoding child !! i
                            = if decide (i < k) then Conformation.encoding A !! i
                              else Conformation.encoding B !! i).
  { intros i. rewrite He. destruct (decide (i < k)) as [Hi|Hi].
    - rewrite lookup_app_l by (rewrite length_take; lia). by apply lookup_take_lt.
    - rewrite lookup_app_r by (rewrite length_take; lia).
      rewrite length_take, lookup_drop. f_equal. lia. }
  split_and!.
  - intros i v. rewrite Hlook. destruct (decide (i < k)); auto.
  - intros i Hi. rewrite Hlook. destruct (decide (i < k)); [done | by symmetry].
  - intros Heq. rewrite He, Heq. apply take_drop.
Qed.

Lemma random_value_range (n : N) :
  (0 <= Qnum (random_value n) < 9007199254740992)%Z
  /\ Qden (random_value n) = 9007199254740992%positive.
Proof.
  unfold random_value. cbn [Qnum Qden]. split; [|done].
  apply Z.mod_pos_bound. lia.
Qed.

Lemma random_below (probability : Q) (n : N) :
  (probability < 0)%Q -> Qle_bool (random_value n) probability = false.
Proof.
  intros Hp. destruct (Qle_bool (random_value n) probability) eqn:Hle; [|done].
  apply Qle_bool_iff in Hle. exfalso.
  destruct (random_value_range n) as [Hr Hd].
  unfold Qle in Hle. unfold Qlt in Hp. cbn in Hp. rewrite Hd in Hle. nia.
Qed.

Lemma random_above (probability : Q) (n : N) :
  (1 <= probability)%Q -> Qle_bool (random_value n) probability = true.
Proof.
  intros Hp. apply Qle_bool_iff.
  destruct (random_value_range n) as [Hr Hd].
  unfold Qle in *. cbn in Hp. rewrite Hd. nia.
Qed.

Lemma random_eq (w : World) :
  random w = Ok (random_value (tape w 0),
                 mkWorld (fun i => tape w (S i)) (energyEvalSteps w) (collisionSet w)).
Proof. reflexivity. Qed.

Lemma randint_eq (lo hi : Z) (w : World) :
  randint lo hi w = Ok ((lo + Z.of_N (tape w 0) mod (hi - lo + 1))%Z,
                        mkWorld (fun i => tape w (S i)) (energyEvalSteps w) (collisionSet w)).
Proof. reflexivity. Qed.

Lemma mutate_loop_never (probability : Q) (todo : list nat) :
  (probability < 0)%Q ->
  forall (enc : list Z) (w : World),
    exists w', Conformation.mutate_loop probability todo enc w = Ok (enc, w').
Proof.
  intros Hp. induction todo as [|i todo IH]; intros enc w; cbn [Conformation.mutate_loop].
  - by eexists.
  - unfold bind at 1. rewrite random_eq, random_below by done. apply IH.
Qed.

Lemma mutate_loop_always (probability : Q) (n : nat) :
  (1 <= probability)%Q ->
  forall (k : nat) (enc : list Z) (w : World),
    k + n <= length enc ->
    exists enc' w',
      Conformation.mutate_loop probability (seq k n) enc w = Ok (enc', w')
      /\ (forall i, i < n ->
            enc' !! (k + i) = Some (-1 + Z.of_N (tape w (2 * i + 1)) mod 3)%Z)
      /\ (forall j, j < k -> enc' !! j = enc !! j).
Proof.
  intros Hp. induction n as [|n IH]; intros k enc w Hlen; cbn [seq Conformation.mutate_loop].
  - eexists _, _. split; [reflexivity|]. split; [lia | done].
  - unfold bind at 1. rewrite random_eq, random_above by done.
    unfold bind at 1. rewrite randint_eq. cbn [tape].
    unfold bind at 1, lift. rewrite store_Ok by lia.
    match goal with |- context [Conformation.mutate_loop _ _ ?e ?w2] =>
      destruct (IH (S k) e w2) as (enc' & w' & Hrun & Hnew & Hold);
      [rewrite length_insert; lia|]
    end.
    exists enc', w'. split; [exact Hrun|]. split.
    + intros i Hi. destruct i as [|i].
      * rewrite Nat.add_0_r, Hold by lia. rewrite list_lookup_insert_eq by lia. done.
      * replace (k + S i) with (S k + i) by lia. rewrite Hnew by lia. cbn [tape].
        by replace (2 * S i + 1) with (S (S (2 * i + 1))) by lia.
    + intros j Hj. rewrite Hold by lia. by rewrite list_lookup_insert_ne by lia.
Qed.

(** X17: [mutate] on a well-formed conformation always returns; it changes
    the encoding only (positions, validity flag and fitness are left as they
    were, stale if a locus changed), keeps the encoding well-formed and
    leaves the evaluation counter and the collision set alone.  With a
    negative probability nothing changes; with a probability of 1 or more
    every locus is redrawn. *)
Theorem mutate_changes_encoding_only (probability : Q) (prot : Protein) (c : Conformation.t)
    (w : World) :
  shaped prot c ->
  exists c' w',
    Conformation.mutate probability c w = Ok (c', w')
    /\ shaped prot c'
    /\ c' = Conformation.set_encoding (Conformation.encoding c') c
    /\ energyEvalSteps w' = energyEvalSteps w
    /\ collisionSet w' = collisionSet w
    /\ ((probability < 0)%Q -> c' = c)
    /\ ((1 <= probability)%Q ->
        forall i, i < Conformation.length c - 2 ->
          Conformation.encoding c' !! i
          = Some (-1 + Z.of_N (tape w (2 * i + 1)) mod 3)%Z).
Proof.
  intros Hs.
  destruct (mutate_Ok probability prot c w Hs) as (c' & w' & Hrun & Hs' & Hc' & Hcnt & Hset).
  exists c', w'. split_and!; try done.
  - intros Hp. unfold Conformation.mutate, bind, ret in Hrun.
    destruct (mutate_loop_never probability (seq 0 (Conformation.length c - 2)) Hp
                (Conformation.encoding c) w) as [w1 Hnever].
    rewrite Hnever in Hrun. injection Hrun as <- _. by destruct c.
  - intros Hp i Hi. unfold Conformation.mutate, bind, ret in Hrun.
    destruct Hs as (_ & _ & _ & He & _).
    destruct (mutate_loop_always probability (Conformation.length c - 2) Hp 0
                (Conformation.encoding c) w) as (enc' & w1 & Halways & Hnew & _); [lia|].
    rewrite Halways in Hrun. injection Hrun as <- _. cbn. by apply (Hnew i).
Qed.





(** *** The picture *)

Lemma fold_min_le (l : list Z) :
  forall x : Z, (fold_left Z.min l x <= x)%Z
                /\ forall y, y ∈ l -> (fold_left Z.min l x <= y)%Z.
Proof.
  induction l as [|z l IH]; intros x; cbn [fold_left].
  - split; [lia|]. intros y Hy. inversion Hy.
  - destruct (IH (Z.min x z)) as [H1 H2]. split; [lia|].
    intros y Hy. apply elem_of_cons in Hy as [->|Hy]; [lia | by apply H2].
Qed.

Lemma fold_max_ge (l : list Z) :
  forall x : Z, (x <= fold_left Z.max l x)%Z
                /\ forall y, y ∈ l -> (y <= fold_left Z.max l x)%Z.
Proof.
  induction l as [|z l IH]; intros x; cbn [fold_left].
  - split; [lia|]. intros y Hy. inversion Hy.
  - destruct (IH (Z.max x z)) as [H1 H2]. split; [lia|].
    intros y Hy. apply elem_of_cons in Hy as [->|Hy]; [lia | by apply H2].
Qed.

Lemma py_min_max (l : list Z) :
  l <> [] ->
  exists lo hi, Conformation.py_min l = Ok lo /\ Conformation.py_max l = Ok hi
                /\ forall y, y ∈ l -> (lo <= y <= hi)%Z.
Proof.
  destruct l as [|x l]; [done|]. intros _. eexists _, _.
  split; [reflexivity|]. split; [reflexivity|].
  destruct (fold_min_le l x) as [H1 H2]. destruct (fold_max_ge l x) as [H3 H4].
  intros y Hy. apply elem_of_cons in Hy as [->|Hy]; [lia|].
  specialize (H2 y Hy). specialize (H4 y Hy). lia.
Qed.

Lemma py_index_in_range (n : nat) (i : Z) :
  (0 <= i < Z.of_nat n)%Z -> Conformation.py_index n i = Ok (Z.to_nat i).
Proof.
  intros Hi. unfold Conformation.py_index.
  destruct (Z.leb_spec 0 i); [|lia]. destruct (Z.ltb_spec i (Z.of_nat n)); [done | lia].
Qed.

Lemma grid_store_Ok (grid : list (list ascii)) (h w : nat) (r c : Z) (v : ascii) :
  grid_dims grid h w ->
  (0 <= r < Z.of_nat h)%Z ->
  (0 <= c < Z.of_nat w)%Z ->
  exists grid',
    Conformation.grid_store grid r c v = Ok grid'
    /\ grid_dims grid' h w
    /\ gcell grid' (Z.to_nat r) (Z.to_nat c) = Some v
    /\ forall r' c', (r', c') <> (Z.to_nat r, Z.to_nat c) ->
         gcell grid' r' c' = gcell grid r' c'.
Proof.
  intros [Hh Hw] Hr Hc. unfold Conformation.grid_store.
  rewrite py_index_in_range by lia. cbn [rbind].
  destruct (lookup_lt_is_Some_2 grid (Z.to_nat r)) as [row Hrow]; [lia|].
  rewrite Hrow. pose proof (Hw row (list_elem_of_lookup_2 _ _ _ Hrow)) as Hlen.
  rewrite py_index_in_range by lia. cbn [rbind].
  eexists. split; [reflexivity|]. split; [|split].
  - split; [by rewrite length_insert|]. intros row' Hrow'.
    apply elem_of_insert_inv in Hrow' as [->|Hrow']; [by rewrite length_insert | by apply Hw].
  - unfold gcell. rewrite list_lookup_insert_eq by lia.
    apply list_lookup_insert_eq. lia.
  - intros r' c' Hne. unfold gcell.
    destruct (decide (r' = Z.to_nat r)) as [->|Hr'].
    + rewrite list_lookup_insert_eq by lia. rewrite Hrow.
      apply list_lookup_insert_ne. congruence.
    + by rewrite list_lookup_insert_ne.
Qed.

Lemma string_of_list_length (l : list ascii) :
  String.length (string_of_list_ascii l) = length l.
Proof. induction l as [|a l IH]; [done|]. cbn. by rewrite IH. Qed.

Lemma string_of_list_get (l : list ascii) :
  forall i : nat, String.get i (string_of_list_ascii l) = l !! i.
Proof.
  induction l as [|a l IH]; intros i; [by destruct i|].
  destruct i as [|i]; [done|]. cbn. apply IH.
Qed.

Section Picture.

Variables (prot : Protein) (c : Conformation.t).
Variables (lowestX highestX lowestY highestY : Z).

Let width : Z := ((highestX - lowestX) * 2 + 1)%Z.
Let height : Z := ((highestY - lowestY) * 2 + 1)%Z.

Hypothesis Hprot : Conformation.protein c = Some prot.

(** A bond glyph lands where a coordinate is odd, so it leaves the cells of
    residues alone. *)
Lemma bond_store (grid : list (list ascii)) (r cl : Z) (v : ascii) :
  grid_dims grid (Z.to_nat height) (Z.to_nat width) ->
  (0 <= r < height)%Z ->
  (0 <= cl < width)%Z ->
  (exists k, r = 2 * k + 1)%Z \/ (exists k, cl = 2 * k + 1)%Z ->
  exists grid',
    Conformation.grid_store grid r cl v = Ok grid'
    /\ grid_dims grid' (Z.to_nat height) (Z.to_nat width)
    /\ forall r' c', Nat.Even r' -> Nat.Even c' -> gcell grid' r' c' = gcell grid r' c'.
Proof.
  intros Hd Hr Hc Hodd.
  destruct (grid_store_Ok grid _ _ r cl v Hd) as (grid' & Hrun & Hd' & _ & Hother); [lia..|].
  exists grid'. split; [done|]. split; [done|].
  intros r' c' [kr Hkr] [kc Hkc]. apply Hother. intros [= Hr' Hc'].
  destruct Hodd as [[k Hk]|[k Hk]]; lia.
Qed.

Lemma picture_step_Ok (grid : list (list ascii)) (lastX lastY : Z) (idx : nat)
    (pos : Z * Z) (a : ascii) :
  grid_dims grid (Z.to_nat height) (Z.to_nat width) ->
  (lowestX <= pos.1 <= highestX)%Z ->
  (lowestY <= pos.2 <= highestY)%Z ->
  String.get idx (sequence prot) = Some a ->
  exists grid',
    Conformation.picture_step c lowestX lowestY width height grid lastX lastY idx pos
    = Ok (grid', pos.1, pos.2)
    /\ grid_dims grid' (Z.to_nat height) (Z.to_nat width)
    /\ gcell grid' (norm lowestY pos.2) (norm lowestX pos.1) = Some (Conformation.marker a)
    /\ forall r' c', Nat.Even r' -> Nat.Even c' ->
         (r', c') <> (norm lowestY pos.2, norm lowestX pos.1) ->
         gcell grid' r' c' = gcell grid r' c'.
Proof.
  intros Hd Hx Hy Ha. unfold Conformation.picture_step.
  unfold Conformation.protein_getNth, getNth. rewrite Hprot, Ha. cbn [rbind].
  destruct (grid_store_Ok grid _ _ ((pos.2 - lowestY) * 2) ((pos.1 - lowestX) * 2)
              (Conformation.marker a) Hd) as (g1 & Hrun & Hd1 & Hcell & Hother);
    [unfold height, width; lia..|].
  rewrite Hrun. cbn [rbind]. fold (norm lowestY pos.2) (norm lowestX pos.1) in Hcell, Hother.
  assert (Hev : Nat.Even (norm lowestY pos.2) /\ Nat.Even (norm lowestX pos.1)).
  { unfold norm. split; [exists (Z.to_nat (pos.2 - lowestY)) | exists (Z.to_nat (pos.1 - lowestX))];
      lia. }
  (* the horizontal bond, then the vertical one *)
  assert (Hh : exists g2,
    (if (pos.1 <? lastX)%Z
     then if ((pos.1 - lowestX) * 2 + 1 <? width)%Z
          then Conformation.grid_store g1 ((pos.2 - lowestY) * 2)
                 ((pos.1 - lowestX) * 2 + 1) "-"%char
          else Ok g1
     else if (lastX <? pos.1)%Z
          then if (0 <=? (pos.1 - lowestX) * 2 - 1)%Z
               then Conformation.grid_store g1 ((pos.2 - lowestY) * 2)
                      ((pos.1 - lowestX) * 2 - 1) "-"%char
               else Ok g1
          else Ok g1) = Ok g2
    /\ grid_dims g2 (Z.to_nat height) (Z.to_nat width)
    /\ forall r' c', Nat.Even r' -> Nat.Even c' -> gcell g2 r' c' = gcell g1 r' c').
  { destruct (pos.1 <? lastX)%Z.
    - destruct (Z.ltb_spec ((pos.1 - lowestX) * 2 + 1) width).
      + apply bond_store; [done | unfold height; lia | lia |].
        right. exists (pos.1 - lowestX)%Z. lia.
      + exists g1. by split_and!.
    - destruct (lastX <? pos.1)%Z; [|exists g1; by split_and!].
      destruct (Z.leb_spec 0 ((pos.1 - lowestX) * 2 - 1)).
      + apply bond_store; [done | unfold height; lia | unfold width; lia |].
        right. exists (pos.1 - lowestX - 1)%Z. lia.
      + exists g1. by split_and!. }
  destruct Hh as (g2 & Hg2 & Hd2 & Hsame2).
  assert (Hv : exists g3,
    (if (lastY <? pos.2)%Z
     then if (0 <=? (pos.2 - lowestY) * 2 - 1)%Z
          then Conformation.grid_store g2 ((pos.2 - lowestY) * 2 - 1)
                 ((pos.1 - lowestX) * 2) "|"%char
          else Ok g2
     else if (pos.2 <? lastY)%Z
          then if ((pos.2 - lowestY) * 2 + 1 <? height)%Z
               then Conformation.grid_store g2 ((pos.2 - lowestY) * 2 + 1)
                      ((pos.1 - lowestX) * 2) "|"%char
               else Ok g2
          else Ok g2) = Ok g3
    /\ grid_dims g3 (Z.to_nat height) (Z.to_nat width)
    /\ forall r' c', Nat.Even r' -> Nat.Even c' -> gcell g3 r' c' = gcell g2 r' c').
  { destruct (lastY <? pos.2)%Z.
    - destruct (Z.leb_spec 0 ((pos.2 - lowestY) * 2 - 1)).
      + apply bond_store; [done | unfold height; lia | unfold width; lia |].
        left. exists (pos.2 - lowestY - 1)%Z. lia.
      + exists g2. by split_and!.
    - destruct (pos.2 <? lastY)%Z; [|exists g2; by split_and!].
      destruct (Z.ltb_spec ((pos.2 - lowestY) * 2 + 1) height).
      + apply bond_store; [done | lia | unfold width; lia |].
        left. exists (pos.2 - lowestY)%Z. lia.
      + exists g2. by split_and!. }
  destruct Hv as (g3 & Hg3 & Hd3 & Hsame3).
  destruct (0 <? idx).
  - rewrite Hg2. cbn [rbind]. rewrite Hg3. cbn [rbind].
    exists g3. split; [done|]. split; [done|]. destruct Hev as [He1 He2]. split.
    + by rewrite Hsame3, Hsame2.
    + intros r' c' Hr' Hc' Hne. rewrite Hsame3, Hsame2 by done. by apply Hother.
  - cbn [rbind]. exists g1. split; [done|]. split; [done|]. split; [done|].
    intros r' c' _ _ Hne. by apply Hother.
Qed.

Lemma norm_inj (p q : Z * Z) :
  (lowestX <= p.1)%Z -> (lowestY <= p.2)%Z ->
  (lowestX <= q.1)%Z -> (lowestY <= q.2)%Z ->
  (norm lowestY q.2, norm lowestX q.1) = (norm lowestY p.2, norm lowestX p.1) ->
  q = p.
Proof.
  unfold norm. intros H1 H2 H3 H4 [= Hy Hx].
  destruct p as [px py], q as [qx qy]. cbn in *. f_equal; lia.
Qed.

Lemma norm_even (lowest v : Z) : Nat.Even (norm lowest v).
Proof.
  unfold norm. destruct (Z.le_gt_cases 0 (v - lowest)).
  - exists (Z.to_nat (v - lowest)). lia.
  - exists 0. lia.
Qed.

(** The loop over the positions: the grid keeps its size, a cell of a residue
    holds the marker of the last residue drawn there, and a cell at even
    coordinates where no residue is drawn is left as it was. *)
Lemma picture_loop_Ok (todo : list (Z * Z)) :
  forall (grid : list (list ascii)) (lastX lastY : Z) (idx : nat),
    grid_dims grid (Z.to_nat height) (Z.to_nat width) ->
    (forall p, p ∈ todo ->
       (lowestX <= p.1 <= highestX)%Z /\ (lowestY <= p.2 <= highestY)%Z) ->
    idx + length todo <= getLength prot ->
    exists grid',
      Conformation.picture_loop c lowestX lowestY width height grid lastX lastY idx todo
      = Ok grid'
      /\ grid_dims grid' (Z.to_nat height) (Z.to_nat width)
      /\ (forall r' c', Nat.Even r' -> Nat.Even c' ->
            (forall p, p ∈ todo -> (r', c') <> (norm lowestY p.2, norm lowestX p.1)) ->
            gcell grid' r' c' = gcell grid r' c')
      /\ (forall j p a,
            todo !! j = Some p ->
            (forall k q, j < k -> todo !! k = Some q -> q <> p) ->
            String.get (idx + j) (sequence prot) = Some a ->
            gcell grid' (norm lowestY p.2) (norm lowestX p.1)
            = Some (Conformation.marker a)).
Proof.
  induction todo as [|pos todo IH]; intros grid lastX lastY idx Hd Hbox Hlen.
  - exists grid. split; [done|]. split; [done|]. split; [done|]. by intros [].
  - cbn [length] in Hlen.
    destruct (get_lt (sequence prot) idx) as [a Ha]; [unfold getLength in Hlen; lia|].
    destruct (Hbox pos) as [Hx Hy]; [by left|].
    destruct (picture_step_Ok grid lastX lastY idx pos a Hd Hx Hy Ha)
      as (g1 & Hstep & Hd1 & Hcell & Hother).
    destruct (IH g1 pos.1 pos.2 (S idx) Hd1) as (g2 & Hloop & Hd2 & Hkeep & Hshow);
      [by intros p Hp; apply Hbox; right | lia |].
    exists g2. cbn [Conformation.picture_loop]. rewrite Hstep. cbn [rbind fst snd].
    split; [done|]. split; [done|]. split.
    + intros r' c' Hr' Hc' Hfree. rewrite Hkeep; [|done|done|].
      * apply Hother; [done|done|]. apply Hfree. by left.
      * intros p Hp. apply Hfree. by right.
    + intros [|j] p b Hj Hlast Hb.
      * injection Hj as ->. rewrite Nat.add_0_r in Hb. rewrite Ha in Hb. injection Hb as ->.
        rewrite Hkeep; [done | apply norm_even | apply norm_even |].
        intros q Hq Heq. apply list_elem_of_lookup_1 in Hq as Hk. destruct Hk as [k Hk].
        apply (Hlast (S k) q); [lia | done |].
        destruct (Hbox q) as [Hqx Hqy]; [by right|].
        symmetry. apply norm_inj; [lia..|done].
      * cbn in Hj. apply (Hshow j p b Hj).
        -- intros k q Hk Hq. apply (Hlast (S k) q); [lia | done].
        -- by replace (S idx + j) with (idx + S j) by lia.
Qed.

End Picture.

Lemma replicate_grid_dims (h w : nat) (a : ascii) :
  grid_dims (replicate h (replicate w a)) h w.
Proof.
  split; [apply length_replicate|].
  intros row Hrow. apply elem_of_replicate in Hrow as [-> _]. apply length_replicate.
Qed.

Lemma printAsciiPicture_Ok (c : Conformation.t) (prot : Protein) :
  Conformation.protein c = Some prot ->
  Conformation.absPositions c <> [] ->
  length (Conformation.absPositions c) <= getLength prot ->
  exists (lines : list string) (lowestX highestX lowestY highestY : Z),
    Conformation.py_min (map fst (Conformation.absPositions c)) = Ok lowestX
    /\ Conformation.py_max (map fst (Conformation.absPositions c)) = Ok highestX
    /\ Conformation.py_min (map snd (Conformation.absPositions c)) = Ok lowestY
    /\ Conformation.py_max (map snd (Conformation.absPositions c)) = Ok highestY
    /\ Conformation.printAsciiPicture c = Ok lines
    /\ length lines = Z.to_nat ((highestY - lowestY) * 2 + 1)
    /\ (forall line, line ∈ lines ->
          String.length line = Z.to_nat ((highestX - lowestX) * 2 + 1))
    /\ forall (j : nat) (p : Z * Z) (a : ascii),
         Conformation.absPositions c !! j = Some p ->
         (forall k q, j < k -> Conformation.absPositions c !! k = Some q -> q <> p) ->
         String.get j (sequence prot) = Some a ->
         exists line,
           lines !! norm lowestY p.2 = Some line
           /\ String.get (norm lowestX p.1) line = Some (Conformation.marker a).
Proof.
  intros Hprot Hne Hlen.
  destruct (py_min_max (map fst (Conformation.absPositions c))) as (lX & hX & HlX & HhX & Hxs).
  { by destruct (Conformation.absPositions c). }
  destruct (py_min_max (map snd (Conformation.absPositions c))) as (lY & hY & HlY & HhY & Hys).
  { by destruct (Conformation.absPositions c). }
  destruct (Conformation.absPositions c) as [|first rest] eqn:Hpos; [done|].
  rewrite <- Hpos in *.
  destruct (picture_loop_Ok prot c lX hX lY hY Hprot (Conformation.absPositions c)
              (replicate (Z.to_nat ((hY - lY) * 2 + 1))
                 (replicate (Z.to_nat ((hX - lX) * 2 + 1)) " "%char))
              first.1 first.2 0)
    as (grid & Hloop & [Hh Hw] & _ & Hshow).
  { apply replicate_grid_dims. }
  { intros p Hp. split.
    - apply Hxs. apply list_elem_of_fmap. by exists p.
    - apply Hys. apply list_elem_of_fmap. by exists p. }
  { lia. }
  exists (map string_of_list_ascii grid), lX, hX, lY, hY.
  split; [done|]. split; [done|]. split; [done|]. split; [done|]. split.
  { unfold Conformation.printAsciiPicture, Conformation.picture_grid.
    rewrite HlX, HhX, HlY, HhY. cbn [rbind].
    unfold Conformation.load. rewrite Hpos at 1. cbn [lookup list_lookup rbind].
    rewrite Hloop. done. }
  split; [by rewrite length_map|]. split.
  { intros line Hline. apply list_elem_of_fmap in Hline as (row & -> & Hrow).
    rewrite string_of_list_length. by apply Hw. }
  intros j p a Hj Hlast Ha. specialize (Hshow j p a Hj Hlast Ha).
  unfold gcell in Hshow.
  destruct (grid !! norm lY p.2) as [row|] eqn:Hrow; [|done].
  exists (string_of_list_ascii row). split.
  - by rewrite list_lookup_fmap, Hrow.
  - by rewrite string_of_list_get.
Qed.

(** X19: [printAsciiPicture] of a conformation with at least one position and
    no more positions than residues returns a picture of
    [2 * (highestY - lowestY) + 1] lines of [2 * (highestX - lowestX) + 1]
    characters each, and a residue that no later residue sits on top of is
    drawn, as [H] for [B] and [P] for [W], in line [2 * (y - lowestY)] at
    column [2 * (x - lowestX)]. *)
Theorem picture_shows_residues (c : Conformation.t) (prot : Protein) :
  Conformation.protein c = Some prot ->
  Conformation.absPositions c <> [] ->
  length (Conformation.absPositions c) <= getLength prot ->
  exists (lines : list string) (lowestX highestX lowestY highestY : Z),
    Conformation.py_min (map fst (Conformation.absPositions c)) = Ok lowestX
    /\ Conformation.py_max (map fst (Conformation.absPositions c)) = Ok highestX
    /\ Conformation.py_min (map snd (Conformation.absPositions c)) = Ok lowestY
    /\ Conformation.py_max (map snd (Conformation.absPositions c)) = Ok highestY
    /\ Conformation.printAsciiPicture c = Ok lines
    /\ length lines = Z.to_nat ((highestY - lowestY) * 2 + 1)
    /\ (forall line, line ∈ lines ->
          String.length line = Z.to_nat ((highestX - lowestX) * 2 + 1))
    /\ forall (j : nat) (p : Z * Z) (a : ascii),
         Conformation.absPositions c !! j = Some p ->
         (forall k q, j < k -> Conformation.absPositions c !! k = Some q -> q <> p) ->
         String.get j (sequence prot) = Some a ->
         exists line,
           lines !! norm lowestY p.2 = Some line
           /\ String.get (norm lowestX p.1) line = Some (Conformation.marker a).
Proof. apply printAsciiPicture_Ok. Qed.

(** *** The driver loop *)

Lemma refresh_fittest_strict (r1 r2 : nat) (p : Population.t) :
  exists t : nat,
    Population.refresh_fittest r1 r2 p = Population.set_theFittest t p
    /\ (t = Population.theFittest p
        \/ (Conformation.fitness (Population.obj p t)
            < Conformation.fitness (Population.obj p (Population.theFittest p)))%Z).
Proof.
  unfold Population.refresh_fittest, Population.getFittest, Conformation.getFitness.
  destruct p as [q1 q2 mp cp pr sz idx inds tf].
  unfold Population.obj, Population.set_theFittest; cbn.
  destruct (Z.ltb_spec (Conformation.fitness (default Conformation.blank (inds !! r1)))
              (Conformation.fitness (default Conformation.blank (inds !! tf)))); cbn.
  - destruct (Z.ltb_spec (Conformation.fitness (default Conformation.blank (inds !! r2)))
                (Conformation.fitness (default Conformation.blank (inds !! r1)))); cbn.
    + exists r2. split; [done|]. right. lia.
    + exists r1. split; [done|]. right. lia.
  - destruct (Z.ltb_spec (Conformation.fitness (default Conformation.blank (inds !! r2)))
                (Conformation.fitness (default Conformation.blank (inds !! tf)))); cbn.
    + exists r2. split; [done|]. right. lia.
    + exists tf. split; [done|]. by left.
Qed.

(** A step moves [theFittest] only to an object that is strictly fitter than
    the one it referred to, as that object is after the step. *)
Lemma crossover_moves (p p' : Population.t) (w w' : World) :
  Population.crossover p w = Ok (p', w') ->
  length (Population.individuals p') = length (Population.individuals p)
  /\ (forall i, (Conformation.fitness (Population.obj p' i)
                 <= Conformation.fitness (Population.obj p i))%Z)
  /\ (Population.theFittest p' = Population.theFittest p
      \/ (Conformation.fitness (Population.obj p' (Population.theFittest p'))
          < Conformation.fitness (Population.obj p' (Population.theFittest p)))%Z).
Proof.
  intros H.
  apply crossover_Ok in H as (r1 & r2 & _ & _ & [->|[->|(pm & Href & ->)]]).
  - split; [done|]. split; [intros i; apply Z.le_refl | by left].
  - split; [done|]. split; [intros i; apply Z.le_refl | by left].
  - destruct Href as (_ & Htf & Hlen & _ & _ & Hle & _).
    destruct (refresh_fittest_strict r1 r2 pm) as (t & -> & Ht).
    change (Population.obj (Population.set_theFittest t pm)) with (Population.obj pm).
    cbn. split; [done|]. split; [done|]. rewrite <- Htf. done.
Qed.

Lemma member_picture (prot : Protein) (c : Conformation.t) :
  shaped prot c ->
  up_to_date c ->
  exists picture, Conformation.printAsciiPicture c = Ok picture.
Proof.
  intros Hs (Hpos & _).
  destruct (up_to_date_walk prot c Hs Hpos) as (syms & _ & Hlen & Habs).
  destruct Hs as (Hp & _).
  destruct (printAsciiPicture_Ok c prot Hp) as (lines & _ & _ & _ & _ & _ & _ & _ & _ & Hrun & _).
  - rewrite Habs. unfold spec_positions. done.
  - rewrite Habs, spec_positions_length. lia.
  - eauto.
Qed.

Lemma calculation_body_step (p : Population.t) (g : Main.Globals) (out : list string)
    (w : World) :
  wellformed p ->
  3 <= length (Population.individuals p) ->
  fittest_minimal p ->
  Main.global_fittest_ptr g = Some (Population.theFittest p) ->
  exists (p' : Population.t) (w' : World) (picture : list string),
    Population.crossover p w = Ok (p', w')
    /\ Conformation.printAsciiPicture (Population.getFittest p') = Ok picture
    /\ Main.calculation_body (p, g, out) w
       = Ok ((p', Main.set_global_fittest_ptr (Some (Population.theFittest p')) g,
              if decide (Population.theFittest p' = Population.theFittest p) then out
              else if Main.switch_enable_graphics g then out
              else out ++ Conformation.getStatusString (Population.getFittest p') :: picture),
             w')
    /\ (Population.theFittest p' <> Population.theFittest p ->
        (Conformation.fitness (Population.getFittest p')
         < Conformation.fitness (Population.getFittest p))%Z)
    /\ (Conformation.fitness (Population.getFittest p')
        <= Conformation.fitness (Population.getFittest p))%Z
    /\ wellformed p'
    /\ 3 <= length (Population.individuals p')
    /\ fittest_minimal p'.
Proof.
  intros Hw Hlen Hmin Hptr.
  destruct (crossover_total p w Hw Hlen) as (p' & w' & Hrun & Hw' & Hprot & _).
  destruct (crossover_fittest _ _ _ _ Hrun Hmin) as [Hmin' Hle].
  destruct (crossover_moves _ _ _ _ Hrun) as (Hlen' & Hdown & Hmove).
  assert (Hin : Population.getFittest p' ∈ Population.individuals p').
  { apply elem_of_individuals. exists (Population.theFittest p'). split; [apply Hmin' | done]. }
  destruct (Hw' _ Hin) as [Hs Hu].
  destruct (member_picture _ _ Hs Hu) as [picture Hpic].
  exists p', w', picture. split; [done|]. split; [done|]. split.
  - unfold Main.calculation_body. unfold bind at 1. rewrite Hrun.
    unfold Main.ptr_fitness. rewrite Hptr. unfold bind at 1. cbn [lift].
    unfold Conformation.getFitness.
    destruct (decide (Population.theFittest p' = Population.theFittest p)) as [Heq|Hne].
    + unfold Population.getFittest at 1. rewrite Heq, Z.ltb_irrefl.
      unfold ret. do 3 f_equal. destruct g. cbn in *. by rewrite Hptr.
    + destruct Hmove as [Heq|Hlt]; [done|].
      unfold Population.getFittest at 1.
      destruct (Z.ltb_spec (Conformation.fitness (Population.obj p' (Population.theFittest p')))
                  (Conformation.fitness (Population.obj p' (Population.theFittest p))));
        [|lia].
      cbn [Main.set_global_fittest_ptr Main.switch_enable_graphics].
      destruct (Main.switch_enable_graphics g); cbn [negb]; [done|].
      unfold bind, lift. rewrite Hpic. done.
  - split; [|by split_and!; try done; lia].
    intros Hne. destruct Hmove as [Heq|Hlt]; [done|].
    unfold Population.getFittest. specialize (Hdown (Population.theFittest p)). lia.
Qed.

(** X20: one pass of the driver's loop over a well-formed population of at
    least three whose best individual [global_fittest_ptr] refers to.  The
    pass returns, and [global_fittest_ptr] again refers to the best
    individual.  It prints the status line and the picture exactly when
    [theFittest] has moved to another individual (and graphics are off); the
    best fitness has then dropped.  When the best individual is overwritten
    in place by a fitter child, [theFittest] does not move and nothing is
    printed. *)
Theorem calculation_reports_moves (p : Population.t) (g : Main.Globals) (out : list string)
    (w : World) :
  wellformed p ->
  3 <= length (Population.individuals p) ->
  fittest_minimal p ->
  Main.global_fittest_ptr g = Some (Population.theFittest p) ->
  exists (p' : Population.t) (w' : World) (picture : list string),
    Population.crossover p w = Ok (p', w')
    /\ Conformation.printAsciiPicture (Population.getFittest p') = Ok picture
    /\ Main.calculation_body (p, g, out) w
       = Ok ((p', Main.set_global_fittest_ptr (Some (Population.theFittest p')) g,
              if decide (Population.theFittest p' = Population.theFittest p) then out
              else if Main.switch_enable_graphics g then out
              else out ++ Conformation.getStatusString (Population.getFittest p') :: picture),
             w')
    /\ (Population.theFittest p' <> Population.theFittest p ->
        (Conformation.fitness (Population.getFittest p')
         < Conformation.fitness (Population.getFittest p))%Z)
    /\ (Conformation.fitness (Population.getFittest p')
        <= Conformation.fitness (Population.getFittest p))%Z
    /\ wellformed p'
    /\ 3 <= length (Population.individuals p')
    /\ fittest_minimal p'.
Proof. apply calculation_body_step. Qed.

Lemma calculation_loop_outcome (fuel : nat) :
  forall (p : Population.t) (g : Main.Globals) (out : list string) (w : World),
    wellformed p ->
    3 <= length (Population.individuals p) ->
    fittest_minimal p ->
    Main.global_fittest_ptr g = Some (Population.theFittest p) ->
    no_exception (Main.calculation_loop fuel (p, g, out) w)
    /\ forall p' g' out' w',
         Main.calculation_loop fuel (p, g, out) w = Ok ((p', g', out'), w') ->
         generations p p'
         /\ g' = Main.set_global_fittest_ptr (Some (Population.theFittest p')) g
         /\ Main.running (p', g', out') w' = false
         /\ fittest_minimal p'
         /\ (Conformation.fitness (Population.getFittest p')
             <= Conformation.fitness (Population.getFittest p))%Z
         /\ (exists more, out' = out ++ more)
         /\ (Main.switch_enable_graphics g = true
             \/ Conformation.fitness (Population.getFittest p')
                = Conformation.fitness (Population.getFittest p) ->
             out' = out).
Proof.
  induction fuel as [|fuel IH]; intros p g out w Hw Hlen Hmin Hptr.
  - cbn [Main.calculation_loop].
    destruct (Main.running (p, g, out) w) eqn:Hrunning.
    + split; [by right|]. discriminate.
    + split; [left; eauto|]. intros p' g' out' w' [= <- <- <- <-].
      split; [apply generations_none|]. split.
      { destruct g. cbn in *. by rewrite Hptr. }
      split; [done|]. split; [done|]. split; [lia|]. split; [|done].
      exists []. by rewrite app_nil_r.
  - cbn [Main.calculation_loop].
    destruct (Main.running (p, g, out) w) eqn:Hrunning.
    2:{ split; [left; eauto|]. intros p' g' out' w' [= <- <- <- <-].
        split; [apply generations_none|]. split.
        { destruct g. cbn in *. by rewrite Hptr. }
        split; [done|]. split; [done|]. split; [lia|]. split; [|done].
        exists []. by rewrite app_nil_r. }
    destruct (calculation_body_step p g out w Hw Hlen Hmin Hptr)
      as (p1 & w1 & picture & Hstep & _ & Hbody & Hdrop & Hle & Hw1 & Hlen1 & Hmin1).
    unfold bind. rewrite Hbody.
    set (g1 := Main.set_global_fittest_ptr (Some (Population.theFittest p1)) g) in *.
    set (out1 := if decide (Population.theFittest p1 = Population.theFittest p) then out
                 else if Main.switch_enable_graphics g then out
                 else out ++ Conformation.getStatusString (Population.getFittest p1) :: picture)
      in *.
    destruct (IH p1 g1 out1 w1 Hw1 Hlen1 Hmin1 eq_refl) as [Hno Hpost].
    split; [done|]. intros p' g' out' w' Hloop.
    destruct (Hpost _ _ _ _ Hloop) as (Hgen & Hg & Hstop & Hmin' & Hle' & [more Hmore] & Hquiet).
    split; [by eapply generations_step|]. split; [by rewrite Hg|].
    split; [done|]. split; [done|]. split; [lia|]. split.
    + subst out1. destruct (decide _); [eauto|].
      destruct (Main.switch_enable_graphics g); [eauto|].
      rewrite Hmore, <- app_assoc. eauto.
    + intros Hcase.
      assert (Hout1 : out1 = out).
      { subst out1. destruct (decide _) as [|Hne]; [done|].
        destruct Hcase as [-> | Hsame]; [done|]. specialize (Hdrop Hne). lia. }
      rewrite <- Hout1. apply Hquiet.
      destruct Hcase as [Hgr | Hsame]; [by left | right; lia].
Qed.

(** X21: [calculation] on a well-formed population of at least three whose
    [theFittest] is a best individual never raises.  When it returns, the
    population has gone through generation steps only, [isTerminated] is
    set, [global_fittest_ptr] refers to [theFittest], which is a best
    individual, and the threshold is reached or the evaluation budget is
    used up.  What was printed before is still there, and nothing is added
    with graphics on or when the best fitness is what it was at the start.
    If the loop condition fails at the start, it returns at once whatever
    the fuel. *)
Theorem calculation_outcome (fuel : nat) (p : Population.t) (g : Main.Globals)
    (out : list string) (w : World) :
  wellformed p ->
  3 <= length (Population.individuals p) ->
  fittest_minimal p ->
  no_exception (Main.calculation fuel (p, g, out) w)
  /\ (forall p' g' out' w',
        Main.calculation fuel (p, g, out) w = Ok ((p', g', out'), w') ->
        generations p p'
        /\ g' = Main.mkGlobals (Some (Population.theFittest p')) true
                  (Main.switch_enable_graphics g) (Main.switch_minen g)
                  (Main.switch_max_evaluations g)
        /\ fittest_minimal p'
        /\ ((Conformation.fitness (Population.getFittest p') <= Main.switch_minen g)%Z
            \/ (Main.switch_max_evaluations g <= energyEvalSteps w')%Z)
        /\ (exists more, out' = out ++ more)
        /\ (Main.switch_enable_graphics g = true
            \/ Conformation.fitness (Population.getFittest p')
               = Conformation.fitness (Population.getFittest p) ->
            out' = out))
  /\ (Main.running (p, g, out) w = false ->
      Main.calculation fuel (p, g, out) w
      = Ok ((p, Main.mkGlobals (Some (Population.theFittest p)) true
                  (Main.switch_enable_graphics g) (Main.switch_minen g)
                  (Main.switch_max_evaluations g), out), w)).
Proof.
  intros Hw Hlen Hmin. unfold Main.calculation.
  set (g0 := Main.set_global_fittest_ptr (Some (Population.theFittest p)) g).
  destruct (calculation_loop_outcome fuel p g0 out w Hw Hlen Hmin eq_refl) as [Hno Hpost].
  split; [|split].
  - unfold bind. destruct Hno as [[[[[p' g'] out'] w'] ->] | ->]; [left; eauto | by right].
  - intros p' g' out' w' H. unfold bind in H.
    destruct (Main.calculation_loop fuel (p, g0, out) w) as [[[[p1 g1] out1] w1]| |] eqn:Hloop;
      try discriminate.
    injection H as <- <- <- <-.
    destruct (Hpost _ _ _ _ eq_refl) as (Hgen & Hg & Hstop & Hmin' & _ & Hmore & Hquiet).
    split; [done|]. split; [by rewrite Hg|]. split; [done|]. split; [|by split].
    rewrite Hg in Hstop. cbn in Hstop. apply andb_false_iff in Hstop as [Hs|Hs].
    + left. apply Z.ltb_ge in Hs. done.
    + right. apply Z.ltb_ge in Hs. done.
  - intros Hstop. unfold bind.
    assert (Hloop : Main.calculation_loop fuel (p, g0, out) w = Ok ((p, g0, out), w)).
    { assert (Hstop0 : Main.running (p, g0, out) w = false) by exact Hstop.
      destruct fuel; cbn [Main.calculation_loop]; by rewrite Hstop0. }
    rewrite Hloop. done.
Qed.

(** *** The benchmark loop *)

Lemma place_objects (child : Conformation.t) (owner other : nat) (p : Population.t) :
  forall i,
    Population.obj (Population.place child owner other p) i = Population.obj p i
    \/ (Conformation.fitness (Population.obj (Population.place child owner other p) i)
        < Conformation.fitness (Population.obj p i))%Z.
Proof.
  assert (Hover : forall r i,
    (Conformation.fitness child < Conformation.fitness (Population.obj p r))%Z ->
    let p' := Population.overwrite r child
                (Population.set_setOfConformations
                   (Population.setOfConformations p
                    ∪ {[Conformation.getConformationString child]}) p) in
    Population.obj p' i = Population.obj p i
    \/ (Conformation.fitness (Population.obj p' i)
        < Conformation.fitness (Population.obj p i))%Z).
  { intros r i Hfit. unfold Population.obj, Population.overwrite in *. cbn in *.
    destruct (decide (i = r)) as [->|Hne].
    - destruct (decide (r < length (Population.individuals p))).
      + right. rewrite list_lookup_insert_eq by done. cbn. lia.
      + left. by rewrite list_insert_ge by lia.
    - left. by rewrite list_lookup_insert_ne by done. }
  intros i.
  destruct (place_cases child owner other p)
    as [[_ ->]|[(_ & Hf & ->)|[(_ & _ & Hf & ->)|(_ & _ & _ & ->)]]].
  - by left.
  - by apply Hover.
  - by apply Hover.
  - by left.
Qed.

Lemma offspring_objects (child : Conformation.t) (owner other : nat)
    (p p' : Population.t) (w w' : World) :
  Population.offspring child owner other p w = Ok (p', w') ->
  forall i,
    Population.obj p' i = Population.obj p i
    \/ (Conformation.fitness (Population.obj p' i)
        < Conformation.fitness (Population.obj p i))%Z.
Proof.
  unfold Population.offspring. intros H. run_in H.
  destruct (Conformation.isValid a0); run_in H.
  - apply place_objects.
  - intros i. by left.
Qed.

(** A step changes an individual only by overwriting it with a strictly
    fitter conformation. *)
Lemma crossover_objects (p p' : Population.t) (w w' : World) :
  Population.crossover p w = Ok (p', w') ->
  forall i,
    Population.obj p' i = Population.obj p i
    \/ (Conformation.fitness (Population.obj p' i)
        < Conformation.fitness (Population.obj p i))%Z.
Proof.
  unfold Population.crossover. intros H. run_in H.
  destruct (Qlt_bool _ a0).
  { run_in H. intros i. by left. }
  run_in H.
  destruct (Qlt_bool _ a2).
  { run_in H. intros i. by left. }
  run_in H. intros i.
  pose proof (offspring_objects _ _ _ _ _ _ _ Hrun5 i) as H1.
  pose proof (offspring_objects _ _ _ _ _ _ _ Hrun6 i) as H2.
  destruct (refresh_fittest_strict a a1 a6) as (t & -> & _).
  change (Population.obj (Population.set_theFittest t a6)) with (Population.obj a6).
  change (Population.obj (Population.set_parent2 a1 (Population.set_parent1 a p)))
    with (Population.obj p) in H1.
  destruct H1 as [H1|H1], H2 as [H2|H2].
  - left. congruence.
  - right. rewrite <- H1. done.
  - right. rewrite H2. done.
  - right. lia.
Qed.

Lemma benchmark_body_step (p : Population.t) (l : Testing.Locals) (w : World) :
  wellformed p ->
  3 <= length (Population.individuals p) ->
  fittest_minimal p ->
  tracked p l w ->
  exists (p1 : Population.t) (l1 : Testing.Locals) (w1 : World),
    Testing.calculation_body (p, l) w = Ok ((p1, l1), w1)
    /\ Population.crossover p w = Ok (p1, w1)
    /\ wellformed p1
    /\ 3 <= length (Population.individuals p1)
    /\ fittest_minimal p1
    /\ tracked p1 l1 w1
    /\ (Testing.best_fitness l1 <= Testing.best_fitness l)%Z
    /\ (Testing.best_fitness l1 = Testing.best_fitness l ->
        Testing.best_eval l1 = Testing.best_eval l
        /\ Testing.best_generation l1 = Testing.best_generation l).
Proof.
  intros Hw Hlen Hmin (Hbest & Hfit & Hbirth & Heval & Hgen).
  destruct (crossover_total p w Hw Hlen) as (p1 & w1 & Hrun & Hw1 & _ & Hcount).
  destruct (crossover_fittest _ _ _ _ Hrun Hmin) as [Hmin1 Hle].
  destruct (crossover_moves _ _ _ _ Hrun) as (Hlen1 & Hdown & Hmove).
  pose proof (crossover_objects _ _ _ _ Hrun (Population.theFittest p)) as Hobj.
  unfold Testing.calculation_body. unfold bind at 1. rewrite Hrun.
  unfold Conformation.getFitness, Conformation.getGeneration.
  unfold Population.getFittest in *.
  destruct (Z.ltb_spec (Conformation.fitness (Population.obj p1 (Population.theFittest p1)))
              (Testing.best_fitness l)) as [Hlt|Hge].
  - eexists _, _, _. split; [reflexivity|]. split; [done|]. split; [done|].
    split; [lia|]. split; [done|]. split.
    + unfold tracked, Population.getFittest. cbn. split_and!; try done; lia.
    + cbn. split; lia.
  - assert (Hsame : Population.theFittest p1 = Population.theFittest p).
    { destruct Hmove as [Heq|Hlt]; [done|].
      specialize (Hdown (Population.theFittest p)). lia. }
    assert (Hkept : Population.obj p1 (Population.theFittest p)
                    = Population.obj p (Population.theFittest p)).
    { destruct Hobj as [Heq|Hlt]; [done|]. rewrite Hsame in Hge. lia. }
    eexists _, _, _. split; [reflexivity|]. split; [done|]. split; [done|].
    split; [lia|]. split; [done|]. split.
    + unfold tracked, Population.getFittest. cbn. rewrite Hsame, Hkept.
      split_and!; try done; lia.
    + cbn. split; [lia | done].
Qed.

Lemma benchmark_loop_outcome (lo hi : Z) (fuel : nat) :
  forall (p : Population.t) (l : Testing.Locals) (w : World),
    wellformed p ->
    3 <= length (Population.individuals p) ->
    fittest_minimal p ->
    tracked p l w ->
    no_exception (Testing.calculation_loop lo hi fuel (p, l) w)
    /\ forall p' l' w',
         Testing.calculation_loop lo hi fuel (p, l) w = Ok ((p', l'), w') ->
         generations p p'
         /\ fittest_minimal p'
         /\ tracked p' l' w'
         /\ Testing.running lo hi (p', l') w' = false
         /\ (Testing.best_fitness l' <= Testing.best_fitness l)%Z
         /\ (Testing.best_fitness l' = Testing.best_fitness l ->
             Testing.best_eval l' = Testing.best_eval l
             /\ Testing.best_generation l' = Testing.best_generation l).
Proof.
  assert (Hstop : forall p l w p' l' w',
            Testing.running lo hi (p, l) w = false ->
            fittest_minimal p -> tracked p l w ->
            Ok ((p, l), w) = Ok ((p', l'), w') ->
            generations p p'
            /\ fittest_minimal p'
            /\ tracked p' l' w'
            /\ Testing.running lo hi (p', l') w' = false
            /\ (Testing.best_fitness l' <= Testing.best_fitness l)%Z
            /\ (Testing.best_fitness l' = Testing.best_fitness l ->
                Testing.best_eval l' = Testing.best_eval l
                /\ Testing.best_generation l' = Testing.best_generation l)).
  { intros p l w p' l' w' Hrunning Hmin Htr [= <- <- <-].
    split; [apply generations_none|]. split_and!; try done; lia. }
  induction fuel as [|fuel IH]; intros p l w Hw Hlen Hmin Htr;
    cbn [Testing.calculation_loop];
    destruct (Testing.running lo hi (p, l) w) eqn:Hrunning.
  - split; [by right | discriminate].
  - split; [left; eauto|]. intros p' l' w'. by apply Hstop.
  - destruct (benchmark_body_step p l w Hw Hlen Hmin Htr)
      as (p1 & l1 & w1 & Hbody & Hstep & Hw1 & Hlen1 & Hmin1 & Htr1 & Hle & Heq).
    unfold bind. rewrite Hbody.
    destruct (IH p1 l1 w1 Hw1 Hlen1 Hmin1 Htr1) as [Hno Hpost].
    split; [done|]. intros p' l' w' Hloop.
    destruct (Hpost _ _ _ Hloop) as (Hgen & Hmin' & Htr' & Hend & Hle' & Heq').
    split; [by eapply generations_step|]. split; [done|]. split; [done|].
    split; [done|]. split; [lia|].
    intros Hsame. destruct Heq as [He1 He2]; [lia|]. destruct Heq' as [He3 He4]; [lia|].
    split; congruence.
  - split; [left; eauto|]. intros p' l' w'. by apply Hstop.
Qed.

(** X22: the benchmark's [calculation] on a well-formed population of at
    least three whose [theFittest] is a best individual never raises.  When
    it returns, the population has gone through generation steps only; the
    best energy it reports is the fitness of [theFittest], the lowest in the
    population, and the birth generation it reports is that individual's
    generation; the threshold is reached or the evaluation budget is used up;
    the evaluations to best are between 0 and the evaluations counted since
    the call; the number of unique conformations is the size of the index;
    and if the best energy is the one the population started with, the
    evaluations and generations to best are both 0. *)
Theorem benchmark_reports_fittest (lo hi : Z) (fuel : nat) (p : Population.t) (w : World) :
  wellformed p ->
  3 <= length (Population.individuals p) ->
  fittest_minimal p ->
  no_exception (Testing.calculation lo hi fuel p w)
  /\ forall (p' : Population.t) (best_energy evals_to_best : Z) (unique_confs : nat)
            (generations_to_best birth_generation : Z) (w' : World),
       Testing.calculation lo hi fuel p w
       = Ok ((p', (best_energy, evals_to_best, unique_confs, generations_to_best,
                   birth_generation)), w') ->
       generations p p'
       /\ fittest_minimal p'
       /\ best_energy = Conformation.fitness (Population.getFittest p')
       /\ birth_generation = Conformation.generation (Population.getFittest p')
       /\ ((best_energy <= lo)%Z \/ (hi <= energyEvalSteps w')%Z)
       /\ (0 <= evals_to_best <= energyEvalSteps w')%Z
       /\ (0 <= generations_to_best)%Z
       /\ unique_confs = size (Population.setOfConformations p')
       /\ (best_energy = Conformation.fitness (Population.getFittest p) ->
           evals_to_best = 0%Z /\ generations_to_best = 0%Z).
Proof.
  intros Hw Hlen Hmin. unfold Testing.calculation.
  set (w0 := mkWorld (tape w) 0 (collisionSet w)).
  set (l0 := Testing.mkLocals _ _ _ _ _ _).
  assert (Htr : tracked p l0 w0).
  { unfold tracked. cbn. split_and!; try done; lia. }
  destruct (benchmark_loop_outcome lo hi fuel p l0 w0 Hw Hlen Hmin Htr) as [Hno Hpost].
  split.
  - unfold bind. destruct Hno as [[[[p' l'] w'] ->] | ->]; [left; eauto | by right].
  - intros p' bf be uc bg birth w' H. unfold bind in H.
    destruct (Testing.calculation_loop lo hi fuel (p, l0) w0) as [[[p1 l1] w1]| |] eqn:Hloop;
      try discriminate.
    injection H as <- <- <- <- <- <- <-.
    destruct (Hpost _ _ _ eq_refl)
      as (Hgen & Hmin' & (Hbest & Hfit & Hbirth & Heval & Hbg) & Hend & _ & Heq).
    split; [done|]. split; [done|]. split; [done|]. split; [done|]. split.
    { cbn in Hend. rewrite Hbest in Hend. unfold Conformation.getFitness in Hend.
      fold (Population.getFittest p1) in Hend. rewrite <- Hfit in Hend.
      apply andb_false_iff in Hend as [Hs|Hs]; apply Z.ltb_ge in Hs; [by left | by right]. }
    split; [done|]. split; [lia|]. split; [done|].
    intros Hsame. apply Heq. rewrite Hsame. done.
Qed.

(** *** Worked instances *)

Lemma ex_alphabet_LLFL : Forall alphabet [LEFT; LEFT; FORWARD; LEFT].
Proof.
  repeat (constructor; [unfold alphabet, LEFT, FORWARD, RIGHT; lia|]). constructor.
Qed.

Lemma ex_folded_shaped : shaped ex_protein ex_folded.
Proof.
  split; [reflexivity|]. split; [reflexivity|]. split; [cbn; lia|]. split; [reflexivity|].
  exact ex_alphabet_LLFL.
Qed.

Lemma ex_other_shaped : shaped ex_protein ex_other.
Proof.
  split; [reflexivity|]. split; [reflexivity|]. split; [cbn; lia|]. split; [reflexivity|].
  repeat (constructor; [unfold alphabet, LEFT, FORWARD, RIGHT; lia|]). constructor.
Qed.

Lemma ex_init_small_Ok : ex_init_small = Ok (ex_small, world_after ex_init_small).
Proof. vm_compute. reflexivity. Qed.

Lemma ex_alternating_even (i j : nat) :
  i + 3 <= j ->
  hydrophobic ex_alternating i = true ->
  hydrophobic ex_alternating j = true ->
  Nat.Even (j - i).
Proof.
  assert (Hb : forall k, hydrophobic ex_alternating k = true -> k = 0 \/ k = 2 \/ k = 4).
  { intros k Hk.
    do 5 (destruct k as [|k]; [vm_compute in Hk; first [discriminate | auto]|]).
    vm_compute in Hk. discriminate. }
  intros Hij Hi Hj. apply Hb in Hi, Hj.
  destruct Hi as [-> | [-> | ->]]; destruct Hj as [-> | [-> | ->]]; try lia.
  exists 2. reflexivity.
Qed.

Lemma getConformationString_faithful_witness :
  String.length (Conformation.getConformationString ex_folded)
  = length (Conformation.encoding ex_folded).
Proof. exact (proj1 (getConformationString_faithful ex_folded ex_folded)). Defined.

Lemma eq_compares_encodings_witness :
  Conformation.__eq__ ex_folded ex_tie_child
  = Ok (bool_decide (Conformation.length ex_folded = Conformation.length ex_tie_child
                     /\ Conformation.encoding ex_folded = Conformation.encoding ex_tie_child)).
Proof.
  exact (proj1 (eq_compares_encodings ex_folded ex_tie_child eq_refl eq_refl)).
Defined.

(** Residues 0 and 3 of the folding LLFL touch. *)
Lemma contacts_have_odd_separation_witness :
  shaped ex_protein ex_folded
  /\ In (0, 3) (contacts ex_protein (Conformation.absPositions ex_folded)
                  (Conformation.length ex_folded))
  /\ Nat.Odd (3 - 0) /\ 0 + 3 <= 3.
Proof.
  assert (Hin : In (0, 3) (contacts ex_protein (Conformation.absPositions ex_folded)
                             (Conformation.length ex_folded))).
  { vm_compute. left. reflexivity. }
  split; [exact ex_folded_shaped|]. split; [exact Hin|].
  exact (contacts_have_odd_separation ex_protein ex_folded 0 3 ex_folded_shaped eq_refl Hin).
Defined.

Lemma walk_steps_adjacent_witness :
  shaped ex_protein ex_folded
  /\ Conformation.calcAbsolutePositions ex_folded = Ok ex_folded
  /\ manhattan (0, 1)%Z (-1, 1)%Z = 1%Z.
Proof.
  split; [exact ex_folded_shaped|]. split; [reflexivity|].
  exact (walk_steps_adjacent ex_protein ex_folded ex_folded 1 (0, 1)%Z (-1, 1)%Z
           ex_folded_shaped eq_refl eq_refl eq_refl).
Defined.

Lemma straight_walk_scores_zero_witness :
  exists (c1 : Conformation.t) (w1 : World) (c2 : Conformation.t) (w2 : World),
    Conformation.calcValidity ex_straight ex_world = Ok (c1, w1)
    /\ Conformation.validState c1 = true
    /\ (forall i, i < Conformation.length ex_straight ->
          Conformation.absPositions c1 !! i = Some (0%Z, Z.of_nat i))
    /\ Conformation.calcFitness c1 w1 = Ok (c2, w2)
    /\ Conformation.fitness c2 = 0%Z.
Proof.
  apply (straight_walk_scores_zero ex_protein ex_straight ex_world);
    [reflexivity | reflexivity | cbn; lia | reflexivity].
Defined.

(** The individual that the step [ex_world_better] replaced. *)
Lemma members_never_stale_witness :
  Population.obj ex_replaced 0 ∈ Population.individuals ex_replaced
  /\ Conformation.fitness (Population.obj ex_replaced 0)
     = (- Z.of_nat (length (contacts ex_protein
                              (Conformation.absPositions (Population.obj ex_replaced 0))
                              (getLength ex_protein))))%Z.
Proof.
  assert (Hin : Population.obj ex_replaced 0 ∈ Population.individuals ex_replaced).
  { apply (list_elem_of_lookup_2 _ 0). vm_compute. reflexivity. }
  split; [exact Hin|].
  destruct (members_never_stale 3 3 ex_protein (1 # 2)%Q 1%Q ex_world ex_world_ready
              ex_population ex_replaced (Population.obj ex_replaced 0)
              ex_init_Ok ex_generations Hin) as (_ & _ & _ & Hfit & _).
  exact Hfit.
Defined.

Lemma members_pairwise_ne_witness :
  Conformation.__ne__ (Population.obj ex_replaced 0) (Population.obj ex_replaced 1) = Ok true
  /\ Conformation.__eq__ (Population.obj ex_replaced 0) (Population.obj ex_replaced 1)
     = Ok false.
Proof.
  apply (members_pairwise_ne 3 3 ex_protein (1 # 2)%Q 1%Q ex_world ex_world_ready
           ex_population ex_replaced 0 1 _ _ ex_init_Ok ex_generations);
    [lia | vm_compute; reflexivity | vm_compute; reflexivity].
Defined.

Lemma generation_step_returns_witness :
  exists p'' w'', Population.crossover ex_replaced ex_world_tie = Ok (p'', w'').
Proof.
  apply (generation_step_returns 3 3 ex_protein (1 # 2)%Q 1%Q ex_world ex_world_ready
           ex_world_tie ex_population ex_replaced ex_init_Ok);
    [lia | exact ex_generations].
Defined.

Lemma small_population_step_raises_witness :
  ex_init_small = Ok (ex_small, world_after ex_init_small)
  /\ Population.crossover ex_small ex_world_tie = Raise ValueError.
Proof.
  split; [exact ex_init_small_Ok|].
  refine (proj2 (small_population_step_raises 3 1 ex_protein (1 # 2)%Q 1%Q ex_world
                   (world_after ex_init_small) ex_world_tie ex_small ex_small
                   ex_init_small_Ok _ (generations_none ex_small))).
  lia.
Defined.

Lemma generation_step_frame_witness :
  exists r1 r2 : nat,
    Population.parent1 ex_replaced = Some r1
    /\ forall i, i <> r1 -> i <> r2 ->
         Population.individuals ex_replaced !! i = Population.individuals ex_population !! i.
Proof.
  destruct (generation_step_frame ex_population ex_replaced ex_world_better _ ex_step_better)
    as (r1 & r2 & _ & _ & Hp1 & _ & _ & _ & _ & _ & _ & Hframe & _).
  exists r1, r2. split; [exact Hp1 | exact Hframe].
Defined.


Lemma isInsertable_registers_once_witness :
  Population.isInsertable ex_folded (Population.isInsertable ex_folded ex_population).2
  = (false, (Population.isInsertable ex_folded ex_population).2).
Proof.
  destruct (isInsertable_registers_once ex_folded ex_population) as (_ & _ & _ & _ & H & _).
  exact H.
Defined.

Lemma setFittest_selects_minimum_witness :
  Population.theFittest ex_replaced < length (Population.individuals ex_replaced)
  /\ fittest_minimal (Population.setFittest ex_replaced).
Proof.
  assert (H : Population.theFittest ex_replaced < length (Population.individuals ex_replaced)).
  { vm_compute. lia. }
  split; [exact H|]. exact (proj1 (setFittest_selects_minimum ex_replaced H)).
Defined.

Lemma init_without_size_raises_witness :
  Population.__init__ 3 0 ex_protein (1 # 2) 1 ex_world = Raise IndexError.
Proof.
  apply (init_without_size_raises 3 0 ex_protein (1 # 2)%Q 1%Q ex_world). lia.
Defined.

Lemma init_starves_without_contacts_witness :
  Population.__init__ 1000 2 ex_alternating (1 # 2) 1 ex_world = OutOfFuel.
Proof.
  apply (init_starves_without_contacts 1000 2 ex_alternating (1 # 2)%Q 1%Q ex_world);
    [cbn; lia | lia | exact ex_alternating_even].
Defined.

Lemma crossover_inherits_loci_witness :
  shaped ex_protein ex_folded
  /\ shaped ex_protein ex_other
  /\ exists child w',
       Conformation.crossover ex_folded ex_other true ex_world = Ok (child, w')
       /\ forall i v, Conformation.encoding child !! i = Some v ->
            Conformation.encoding ex_folded !! i = Some v
            \/ Conformation.encoding ex_other !! i = Some v.
Proof.
  split; [exact ex_folded_shaped|]. split; [exact ex_other_shaped|].
  destruct (crossover_inherits_loci ex_protein ex_folded ex_other true ex_world
              ex_folded_shaped ex_other_shaped) as (child & w' & Hrun & Hloci & _).
  exists child, w'. split; [exact Hrun | exact Hloci].
Defined.

Lemma mutate_changes_encoding_only_witness :
  exists c' w',
    Conformation.mutate (1 # 2) ex_folded ex_world_mutation = Ok (c', w')
    /\ shaped ex_protein c'
    /\ c' = Conformation.set_encoding (Conformation.encoding c') ex_folded.
Proof.
  destruct (mutate_changes_encoding_only (1 # 2)%Q ex_protein ex_folded ex_world_mutation
              ex_folded_shaped) as (c' & w' & Hrun & Hs & Henc & _).
  exists c', w'. split; [exact Hrun|]. split; [exact Hs | exact Henc].
Defined.


(** The picture of the folding LLFL has five lines of three characters. *)
Lemma picture_shows_residues_witness :
  exists lines : list string,
    Conformation.printAsciiPicture ex_folded = Ok lines
    /\ length lines = 5.
Proof.
  destruct (picture_shows_residues ex_folded ex_protein) as
    (lines & lX & hX & lY & hY & _ & _ & HlY & HhY & Hrun & Hlen & _);
    [reflexivity | discriminate | cbn; lia |].
  exists lines. split; [exact Hrun|].
  injection HlY as <-. injection HhY as <-. exact Hlen.
Defined.

Lemma ex_wellformed : wellformed ex_population.
Proof. exact (proj1 (Population_init_wellformed _ _ _ _ _ _ _ _ ex_init_Ok)). Qed.

Lemma ex_fittest_minimal : fittest_minimal ex_population.
Proof. exact (proj1 (proj2 (Population_init_Ok _ _ _ _ _ _ _ _ ex_init_Ok))). Qed.

Lemma ex_three : 3 <= length (Population.individuals ex_population).
Proof. vm_compute. lia. Qed.

Lemma ex_run_Ok :
  exists p' g' out' w',
    Main.calculation 5 (ex_population, ex_switches, []) ex_world_report
    = Ok ((p', g', out'), w').
Proof. vm_compute. eauto. Qed.

Lemma ex_replaced_fittest :
  Population.theFittest ex_replaced = Population.theFittest ex_population.
Proof. vm_compute. reflexivity. Qed.

Lemma ex_switches_ptr :
  Main.global_fittest_ptr (Main.set_global_fittest_ptr (Some 0) ex_switches)
  = Some (Population.theFittest ex_population).
Proof. vm_compute. reflexivity. Qed.

Lemma Ok_pair_inj {A B} (a a' : A) (b b' : B) :
  Ok (a, b) = Ok (a', b') -> a = a' /\ b = b'.
Proof. intros [= -> ->]. done. Qed.

(** The step [ex_world_better] overwrites the best individual in place: the
    best fitness drops from -1 to -2 and the driver prints nothing. *)
Lemma calculation_reports_moves_witness :
  (Conformation.fitness (Population.getFittest ex_replaced)
   < Conformation.fitness (Population.getFittest ex_population))%Z
  /\ exists g' w',
       Main.calculation_body
         (ex_population, Main.set_global_fittest_ptr (Some 0) ex_switches, ["before"%string])
         ex_world_better
       = Ok ((ex_replaced, g', ["before"%string]), w').
Proof.
  split; [vm_compute; reflexivity|].
  destruct (calculation_reports_moves ex_population
              (Main.set_global_fittest_ptr (Some 0) ex_switches) ["before"%string]
              ex_world_better ex_wellformed ex_three ex_fittest_minimal ex_switches_ptr)
    as (p' & w' & picture & Hstep & _ & Hbody & _).
  rewrite ex_step_better in Hstep.
  destruct (Ok_pair_inj _ _ _ _ Hstep) as [Hp' _]. rewrite <- Hp' in Hbody.
  rewrite (decide_True _ _ ex_replaced_fittest) in Hbody.
  eexists _, _. exact Hbody.
Defined.

(** A run that reaches the threshold -2 after one reported step. *)
Lemma calculation_outcome_witness :
  exists p' g' out' w',
    Main.calculation 5 (ex_population, ex_switches, []) ex_world_report
    = Ok ((p', g', out'), w')
    /\ generations ex_population p'
    /\ Main.isTerminated g' = true
    /\ Main.global_fittest_ptr g' = Some (Population.theFittest p')
    /\ fittest_minimal p'.
Proof.
  destruct ex_run_Ok as (p' & g' & out' & w' & Hrun).
  destruct (calculation_outcome 5 ex_population ex_switches [] ex_world_report
              ex_wellformed ex_three ex_fittest_minimal) as (_ & Hpost & _).
  destruct (Hpost p' g' out' w' Hrun) as (Hgen & Hg & Hmin & _).
  exists p', g', out', w'.
  split; [exact Hrun|]. split; [exact Hgen|].
  split; [rewrite Hg; reflexivity|]. split; [rewrite Hg; reflexivity | exact Hmin].
Defined.

Lemma ex_benchmark_Ok :
  exists p' best_energy evals_to_best unique_confs generations_to_best birth_generation w',
    Testing.calculation (-2) 100 5 ex_population ex_world_better
    = Ok ((p', (best_energy, evals_to_best, unique_confs, generations_to_best,
                birth_generation)), w').
Proof. vm_compute. do 7 eexists. reflexivity. Qed.

(** The benchmark run over the step [ex_world_better]: the improvement made
    in place is recorded. *)
Lemma benchmark_reports_fittest_witness :
  exists p' best_energy evals_to_best unique_confs generations_to_best birth_generation w',
    Testing.calculation (-2) 100 5 ex_population ex_world_better
    = Ok ((p', (best_energy, evals_to_best, unique_confs, generations_to_best,
                birth_generation)), w')
    /\ generations ex_population p'
    /\ best_energy = Conformation.fitness (Population.getFittest p')
    /\ birth_generation = Conformation.generation (Population.getFittest p').
Proof.
  destruct ex_benchmark_Ok as (p' & bf & be & uc & bg & birth & w' & Hrun).
  destruct (benchmark_reports_fittest (-2) 100 5 ex_population ex_world_better
              ex_wellformed ex_three ex_fittest_minimal) as [_ Hpost].
  destruct (Hpost p' bf be uc bg birth w' Hrun) as (Hgen & _ & Hbf & Hbirth & _).
  exists p', bf, be, uc, bg, birth, w'.
  split; [exact Hrun|]. split; [exact Hgen|]. split; [exact Hbf | exact Hbirth].
Defined.
